(** * Canvas interaction engine of the document editor

    Shallow embedding of the [Editor] component (components/Editor.tsx):
    the tool state machine, the pointer and keyboard handlers, the resize
    calculator, hit testing and box selection.

    Modelling conventions
    - JavaScript numbers are exact rationals [Q] (no rounding, no [NaN]);
      comparisons are the boolean tests of the source, [Math.abs],
      [Math.min], [Math.max] are [Qabs], [Qmin], [Qmax].  Numbers are
      compared with [==] where two computations give the same value by
      different expressions.
    - An optional field ([width?: number]) is an [option]; JavaScript
      truthiness of an optional number is [truthy] ([undefined] and [0] are
      falsy).
    - React state ([useState]) and the mutable refs ([useRef]) are the
      fields of one record [EditorState]; every handler is a function from
      state to state.  [selectedIdsRef] mirrors [selectedIds] and is the
      same field.  The object [initialPositions] and the record
      [elementRefs] are finite maps keyed by element id.
    - A render separates two events: a handler reads the state left by the
      previous one.
    - [generateId()] is random: the handler that calls it receives the
      generated id as an argument.
    - [setTimeout] callbacks are queued in the field [timers] and run by
      [runTimeout].
    - What the handlers read from the DOM (target of the event, bounding
      rectangles, scroll height of the content node) is carried by the
      event records and by [elementRefs]. *)

From Stdlib Require Import Ascii QArith Qabs Qminmax Lqa.
From stdpp Require Import gmap strings list.

Local Open Scope Q_scope.

(** ** JavaScript numbers *)

Module JS.

Definition ltb (a b : Q) : bool := negb (Qle_bool b a).
Definition leb (a b : Q) : bool := Qle_bool a b.
Definition geb (a b : Q) : bool := Qle_bool b a.
Definition gtb (a b : Q) : bool := negb (Qle_bool a b).

(** [if (n)] for an optional number. *)
Definition truthy (o : option Q) : bool :=
  match o with
  | Some q => negb (Qeq_bool q 0)
  | None => false
  end.

(** [n || d] for an optional number. *)
Definition or_else (o : option Q) (d : Q) : Q :=
  match o with
  | Some q => if Qeq_bool q 0 then d else q
  | None => d
  end.

(** [Math.min(...l)] and [Math.max(...l)]; [None] stands for the
    [Infinity] / [-Infinity] returned on an empty argument list. *)
Definition min_list (l : list Q) : option Q :=
  match l with
  | [] => None
  | a :: r => Some (foldr Qmin a r)
  end.

Definition max_list (l : list Q) : option Q :=
  match l with
  | [] => None
  | a :: r => Some (foldr Qmax a r)
  end.

(** [s.includes(c)] for a one-character needle. *)
Fixpoint includes (s : string) (c : ascii) : bool :=
  match s with
  | EmptyString => false
  | String a r => if Ascii.eqb a c then true else includes r c
  end.

End JS.

(** ** Data model (types.ts and the type declarations of the editor) *)

Module ElementType.
Inductive t := TEXT | RECTANGLE | CIRCLE | PATH | IMAGE | CODE | EXPANDABLE.

Definition eqb (a b : t) : bool :=
  match a, b with
  | TEXT, TEXT | RECTANGLE, RECTANGLE | CIRCLE, CIRCLE | PATH, PATH
  | IMAGE, IMAGE | CODE, CODE | EXPANDABLE, EXPANDABLE => true
  | _, _ => false
  end.
End ElementType.

Module Tool.
Inductive t := SELECT | TEXT | RECT | CIRCLE | DRAW | CODE | EXPANDABLE | ERASER.

Definition eqb (a b : t) : bool :=
  match a, b with
  | SELECT, SELECT | TEXT, TEXT | RECT, RECT | CIRCLE, CIRCLE | DRAW, DRAW
  | CODE, CODE | EXPANDABLE, EXPANDABLE | ERASER, ERASER => true
  | _, _ => false
  end.

(** [[...].includes(tool)] *)
Definition oneOf (l : list t) (a : t) : bool := existsb (eqb a) l.
End Tool.

Inductive InteractionMode :=
  IDLE | CREATING | MOVING | BOX_SELECT | ERASING | RESIZING.

Record Point := { px : Q; py : Q }.

Record Bounds := { bx : Q; by_ : Q; bwidth : Q; bheight : Q }.

Record Style := {
  strokeColor : option string;
  backgroundColor : option string;
  strokeWidth : option Q;
  fontSize : option Q
}.

Record CanvasElement := {
  el_id : string;
  el_type : ElementType.t;
  el_x : Q;
  el_y : Q;
  el_width : option Q;
  el_height : option Q;
  el_content : option string;
  el_points : option (list Point);
  el_style : option Style;
  el_isExpanded : option bool
}.

(** The interaction session held in [interactionRef]. *)
Record Interaction := {
  startX : Q;
  startY : Q;
  currentId : option string;
  mode : InteractionMode;
  initialPositions : gmap string Point;
  resizeHandle : string;
  initialBounds : Bounds
}.

Record SlashMenu := { sm_x : Q; sm_y : Q; targetId : string }.

(** What the handlers read from a mounted element of [elementRefs]:
    its bounding rectangle and, when it has a [contenteditable]
    descendant, that node's [scrollHeight]. *)
Record DomElement := {
  rectWidth : Q;
  rectHeight : Q;
  contentScrollHeight : option Q
}.

Record EditorState := {
  elements : list CanvasElement;
  tool : Tool.t;
  activeColor : string;
  scale : Q;
  selectedIds : gset string;
  slashMenu : option SlashMenu;
  selectionBox : option Bounds;
  interaction : Interaction;
  elementRefs : gmap string DomElement;
  timers : list string
}.

(** The target of a pointer event, as far as the handlers inspect it. *)
Record Target := {
  target_id : string;
  tagName : string;
  isContentEditable : bool;
  closestDragHandle : bool
}.

(** A pointer event together with the bounding rectangle of the canvas
    container ([e.currentTarget.getBoundingClientRect()]). *)
Record PointerEvent := {
  clientX : Q;
  clientY : Q;
  button : Z;
  shiftKey : bool;
  target : Target;
  rectLeft : Q;
  rectTop : Q
}.

(** A keyboard event; [activeIsEditing] is the test made on
    [document.activeElement] (content-editable, INPUT or TEXTAREA). *)
Record KeyboardEvent := { key : string; activeIsEditing : bool }.

(** ** State updates *)

Definition noBounds : Bounds := {| bx := 0; by_ := 0; bwidth := 0; bheight := 0 |}.

Definition initialInteraction : Interaction :=
  {| startX := 0; startY := 0; currentId := None; mode := IDLE;
     initialPositions := ∅; resizeHandle := ""; initialBounds := noBounds |}.

Definition setElements (f : list CanvasElement → list CanvasElement) (s : EditorState) : EditorState :=
  {| elements := f (elements s); tool := tool s; activeColor := activeColor s;
     scale := scale s; selectedIds := selectedIds s; slashMenu := slashMenu s;
     selectionBox := selectionBox s; interaction := interaction s;
     elementRefs := elementRefs s; timers := timers s |}.

Definition setTool (t : Tool.t) (s : EditorState) : EditorState :=
  {| elements := elements s; tool := t; activeColor := activeColor s;
     scale := scale s; selectedIds := selectedIds s; slashMenu := slashMenu s;
     selectionBox := selectionBox s; interaction := interaction s;
     elementRefs := elementRefs s; timers := timers s |}.

Definition setActiveColor (c : string) (s : EditorState) : EditorState :=
  {| elements := elements s; tool := tool s; activeColor := c;
     scale := scale s; selectedIds := selectedIds s; slashMenu := slashMenu s;
     selectionBox := selectionBox s; interaction := interaction s;
     elementRefs := elementRefs s; timers := timers s |}.

Definition setScale (k : Q) (s : EditorState) : EditorState :=
  {| elements := elements s; tool := tool s; activeColor := activeColor s;
     scale := k; selectedIds := selectedIds s; slashMenu := slashMenu s;
     selectionBox := selectionBox s; interaction := interaction s;
     elementRefs := elementRefs s; timers := timers s |}.

Definition setSelectedIds (f : gset string → gset string) (s : EditorState) : EditorState :=
  {| elements := elements s; tool := tool s; activeColor := activeColor s;
     scale := scale s; selectedIds := f (selectedIds s); slashMenu := slashMenu s;
     selectionBox := selectionBox s; interaction := interaction s;
     elementRefs := elementRefs s; timers := timers s |}.

Definition setSlashMenu (m : option SlashMenu) (s : EditorState) : EditorState :=
  {| elements := elements s; tool := tool s; activeColor := activeColor s;
     scale := scale s; selectedIds := selectedIds s; slashMenu := m;
     selectionBox := selectionBox s; interaction := interaction s;
     elementRefs := elementRefs s; timers := timers s |}.

Definition setSelectionBox (b : option Bounds) (s : EditorState) : EditorState :=
  {| elements := elements s; tool := tool s; activeColor := activeColor s;
     scale := scale s; selectedIds := selectedIds s; slashMenu := slashMenu s;
     selectionBox := b; interaction := interaction s;
     elementRefs := elementRefs s; timers := timers s |}.

Definition setInteraction (i : Interaction) (s : EditorState) : EditorState :=
  {| elements := elements s; tool := tool s; activeColor := activeColor s;
     scale := scale s; selectedIds := selectedIds s; slashMenu := slashMenu s;
     selectionBox := selectionBox s; interaction := i;
     elementRefs := elementRefs s; timers := timers s |}.

(** [interactionRef.current.mode = m] *)
Definition setMode (m : InteractionMode) (s : EditorState) : EditorState :=
  setInteraction
    {| startX := startX (interaction s); startY := startY (interaction s);
       currentId := currentId (interaction s); mode := m;
       initialPositions := initialPositions (interaction s);
       resizeHandle := resizeHandle (interaction s);
       initialBounds := initialBounds (interaction s) |} s.

(** [setTimeout(() => { setSelectedIds(new Set([id])); ... }, 50)] *)
Definition setTimeout (id : string) (s : EditorState) : EditorState :=
  {| elements := elements s; tool := tool s; activeColor := activeColor s;
     scale := scale s; selectedIds := selectedIds s; slashMenu := slashMenu s;
     selectionBox := selectionBox s; interaction := interaction s;
     elementRefs := elementRefs s; timers := timers s ++ [id] |}.

(** ** The handlers of the [Editor] component *)

Definition idEq (a b : string) : bool := String.eqb a b.

(** [getMousePos]: pointer position in canvas space. *)
Definition getMousePos (s : EditorState) (e : PointerEvent) : Point :=
  {| px := (clientX e - rectLeft e) / scale s;
     py := (clientY e - rectTop e) / scale s |}.

(** [deleteElement] *)
Definition deleteElement (id : string) (s : EditorState) : EditorState :=
  setSelectedIds (λ prev, prev ∖ {[ id ]})
    (setElements (List.filter (λ el, negb (idEq (el_id el) id))) s).

(** [handleKeyDown] (the global key listener). *)
Definition handleKeyDown (s : EditorState) (e : KeyboardEvent) : EditorState :=
  if String.eqb (key e) "Escape" then
    setSlashMenu None (setSelectedIds (λ _, ∅) (setTool Tool.SELECT s))
  else if String.eqb (key e) "Backspace" || String.eqb (key e) "Delete" then
    if negb (activeIsEditing e) && bool_decide (0 < size (selectedIds s))%nat then
      setSelectedIds (λ _, ∅)
        (setElements
           (List.filter (λ el, negb (bool_decide (el_id el ∈ selectedIds s)))) s)
    else s
  else s.

(** *** Pointer move on the window: [handleGlobalMove] *)

Definition withPosition (el : CanvasElement) (x y : Q) : CanvasElement :=
  {| el_id := el_id el; el_type := el_type el; el_x := x; el_y := y;
     el_width := el_width el; el_height := el_height el;
     el_content := el_content el; el_points := el_points el;
     el_style := el_style el; el_isExpanded := el_isExpanded el |}.

Definition withBounds (el : CanvasElement) (b : Bounds) : CanvasElement :=
  {| el_id := el_id el; el_type := el_type el; el_x := bx b; el_y := by_ b;
     el_width := Some (bwidth b); el_height := Some (bheight b);
     el_content := el_content el; el_points := el_points el;
     el_style := el_style el; el_isExpanded := el_isExpanded el |}.

Definition withPoints (el : CanvasElement) (pts : list Point) : CanvasElement :=
  {| el_id := el_id el; el_type := el_type el; el_x := el_x el; el_y := el_y el;
     el_width := el_width el; el_height := el_height el;
     el_content := el_content el; el_points := Some pts;
     el_style := el_style el; el_isExpanded := el_isExpanded el |}.

(** The callback of [prev.map] in the MOVING branch. *)
Definition moveElement (ip : gmap string Point) (dx dy : Q) (el : CanvasElement) : CanvasElement :=
  match ip !! el_id el with
  | Some init => withPosition el (px init + dx) (py init + dy)
  | None => el
  end.

(** [minH] of the RESIZING branch: 20, or for a mounted TEXT element with
    a content node, that node's [scrollHeight] plus 16. *)
Definition minH (refs : gmap string DomElement) (el : CanvasElement) : Q :=
  if ElementType.eqb (el_type el) ElementType.TEXT then
    match refs !! el_id el with
    | Some dom =>
        match contentScrollHeight dom with
        | Some h => h + 16
        | None => 20
        end
    | None => 20
    end
  else 20.

(** The resize calculator: the four assignments of the RESIZING branch. *)
Definition resizeBounds (h : string) (b : Bounds) (dx dy mh : Q) : Bounds :=
  let newW := if JS.includes h "e" then Qmax 20 (bwidth b + dx) else bwidth b in
  let '(newW, newX) :=
    if JS.includes h "w" then
      let maxDelta := bwidth b - 20 in
      let effDx := Qmin dx maxDelta in
      (bwidth b - effDx, bx b + effDx)
    else (newW, bx b) in
  let newH := if JS.includes h "s" then Qmax mh (bheight b + dy) else bheight b in
  let '(newH, newY) :=
    if JS.includes h "n" then
      let maxDelta := bheight b - mh in
      let effDy := Qmin dy maxDelta in
      (bheight b - effDy, by_ b + effDy)
    else (newH, by_ b) in
  {| bx := newX; by_ := newY; bwidth := newW; bheight := newH |}.

(** The callback of [prev.map] in the RESIZING branch. *)
Definition resizeElement (refs : gmap string DomElement) (cur h : string)
    (b : Bounds) (dx dy : Q) (el : CanvasElement) : CanvasElement :=
  if negb (idEq (el_id el) cur) then el
  else withBounds el (resizeBounds h b dx dy (minH refs el)).

Definition handleGlobalMove (s : EditorState) (e : PointerEvent) : EditorState :=
  let i := interaction s in
  match mode i with
  | IDLE => s
  | MOVING =>
      let dx := (clientX e - startX i) / scale s in
      let dy := (clientY e - startY i) / scale s in
      setElements (map (moveElement (initialPositions i) dx dy)) s
  | RESIZING =>
      match currentId i with
      | Some cur =>
          if idEq cur "" then s
          else
            let dx := (clientX e - startX i) / scale s in
            let dy := (clientY e - startY i) / scale s in
            setElements
              (map (resizeElement (elementRefs s) cur (resizeHandle i)
                      (initialBounds i) dx dy)) s
      | None => s
      end
  | _ => s
  end.

Definition handleGlobalUp (s : EditorState) : EditorState :=
  let s := match mode (interaction s) with
           | BOX_SELECT => setSelectionBox None s
           | _ => s
           end in
  setMode IDLE s.

(** [handleResizeStart] *)
Definition handleResizeStart (s : EditorState) (e : PointerEvent)
    (id handle : string) : EditorState :=
  match List.find (λ x, idEq (el_id x) id) (elements s) with
  | None => s
  | Some el =>
      let '(domW, domH) :=
        match elementRefs s !! id with
        | Some d => (rectWidth d, rectHeight d)
        | None => (0, 0)
        end in
      let currentW := JS.or_else (el_width el) (domW / scale s) in
      let currentH := JS.or_else (el_height el) (domH / scale s) in
      setInteraction
        {| mode := RESIZING; startX := clientX e; startY := clientY e;
           currentId := Some id; resizeHandle := handle;
           initialBounds := {| bx := el_x el; by_ := el_y el;
                               bwidth := currentW; bheight := currentH |};
           initialPositions := ∅ |} s
  end.

(** *** Pointer down on the canvas container: [handleContainerPointerDown] *)

Definition isNonPrimary (e : PointerEvent) : bool := negb (Z.eqb (button e) 0).

Definition isBackground (t : Target) : bool :=
  String.eqb (target_id t) "canvas-bg" || String.eqb (tagName t) "svg".

Definition session (x y : Q) (cur : option string) (m : InteractionMode) : Interaction :=
  {| startX := x; startY := y; currentId := cur; mode := m;
     initialPositions := ∅; resizeHandle := ""; initialBounds := noBounds |}.

Definition newCode (id : string) (x y : Q) : CanvasElement :=
  {| el_id := id; el_type := ElementType.CODE; el_x := x; el_y := y;
     el_width := Some 300; el_height := Some 150;
     el_content := Some "// Code block"%string; el_points := None;
     el_style := None; el_isExpanded := None |}.

Definition newExpandable (id : string) (x y : Q) : CanvasElement :=
  {| el_id := id; el_type := ElementType.EXPANDABLE; el_x := x; el_y := y;
     el_width := Some 300; el_height := None;
     el_content := Some "Toggle Section"%string; el_points := None;
     el_style := None; el_isExpanded := Some true |}.

Definition newText (id : string) (x y : Q) : CanvasElement :=
  {| el_id := id; el_type := ElementType.TEXT; el_x := x; el_y := y;
     el_width := Some 400; el_height := None;
     el_content := Some ""%string; el_points := None;
     el_style := None; el_isExpanded := None |}.

Definition newPath (id color : string) (x y : Q) : CanvasElement :=
  {| el_id := id; el_type := ElementType.PATH; el_x := 0; el_y := 0;
     el_width := None; el_height := None;
     el_content := None; el_points := Some [ {| px := x; py := y |} ];
     el_style := Some {| strokeColor := Some color; backgroundColor := None;
                         strokeWidth := Some 2; fontSize := None |};
     el_isExpanded := None |}.

Definition newShape (id color : string) (ty : ElementType.t) (x y : Q) : CanvasElement :=
  {| el_id := id; el_type := ty; el_x := x; el_y := y;
     el_width := Some 0; el_height := Some 0;
     el_content := None; el_points := None;
     el_style := Some {| strokeColor := Some color;
                         backgroundColor := Some "transparent"%string;
                         strokeWidth := Some 2; fontSize := None |};
     el_isExpanded := None |}.

Definition append (el : CanvasElement) (prev : list CanvasElement) : list CanvasElement :=
  prev ++ [el].

(** [newId] is the value returned by the call of [generateId()]. *)
Definition handleContainerPointerDown (s : EditorState) (e : PointerEvent)
    (newId : string) : EditorState :=
  if negb (Tool.eqb (tool s) Tool.SELECT) && negb (Tool.eqb (tool s) Tool.ERASER)
     && isNonPrimary e then s
  else
    let p := getMousePos s e in
    let x := px p in
    let y := py p in
    if Tool.eqb (tool s) Tool.SELECT then
      if isBackground (target e) then
        let s := setInteraction (session x y None BOX_SELECT) s in
        let s := setSelectionBox
                   (Some {| bx := x; by_ := y; bwidth := 0; bheight := 0 |}) s in
        let s := if negb (shiftKey e) then setSelectedIds (λ _, ∅) s else s in
        setSlashMenu None s
      else s
    else if Tool.eqb (tool s) Tool.ERASER then
      setInteraction (session x y None ERASING) s
    else if Tool.eqb (tool s) Tool.TEXT && isContentEditable (target e) then s
    else
      let isDragCreation := Tool.oneOf [Tool.RECT; Tool.CIRCLE; Tool.DRAW] (tool s) in
      let s' := setInteraction
                  (session x y (Some newId) (if isDragCreation then CREATING else IDLE)) s in
      if Tool.oneOf [Tool.TEXT; Tool.CODE; Tool.EXPANDABLE] (tool s) then
        let newEl :=
          if Tool.eqb (tool s) Tool.CODE then newCode newId x y
          else if Tool.eqb (tool s) Tool.EXPANDABLE then newExpandable newId x y
          else newText newId x y in
        setTimeout (el_id newEl) (setElements (append newEl) s')
      else
        let newEl :=
          if Tool.eqb (tool s) Tool.DRAW then newPath newId (activeColor s) x y
          else newShape newId (activeColor s)
                 (if Tool.eqb (tool s) Tool.RECT then ElementType.RECTANGLE
                  else ElementType.CIRCLE) x y in
        setElements (append newEl) s'.

(** The callback run when the 50 ms timer of a click-to-place creation
    fires: [setSelectedIds(new Set([newEl.id]))]. *)
Definition runTimeout (s : EditorState) : EditorState :=
  match timers s with
  | [] => s
  | id :: rest =>
      {| elements := elements s; tool := tool s; activeColor := activeColor s;
         scale := scale s; selectedIds := {[ id ]}; slashMenu := slashMenu s;
         selectionBox := selectionBox s; interaction := interaction s;
         elementRefs := elementRefs s; timers := rest |}
  end.

(** *** Pointer move on the canvas container: [handleContainerPointerMove] *)

(** The callback of [prev.map] in the CREATING branch. *)
Definition createStep (cur : option string) (sx sy x y : Q) (el : CanvasElement) : CanvasElement :=
  if negb (bool_decide (Some (el_id el) = cur)) then el
  else if ElementType.eqb (el_type el) ElementType.PATH then
    withPoints el (default [] (el_points el) ++ [ {| px := x; py := y |} ])
  else
    let width := x - sx in
    let height := y - sy in
    {| el_id := el_id el; el_type := el_type el;
       el_x := if JS.ltb width 0 then x else sx;
       el_y := if JS.ltb height 0 then y else sy;
       el_width := Some (Qabs width); el_height := Some (Qabs height);
       el_content := el_content el; el_points := el_points el;
       el_style := el_style el; el_isExpanded := el_isExpanded el |}.

Definition inBox (x y x0 y0 w h : Q) : bool :=
  JS.geb x x0 && JS.leb x (x0 + w) && JS.geb y y0 && JS.leb y (y0 + h).

(** The predicate of [elements.find] in the ERASING branch.  On an empty
    [points] array [Math.min()] is [Infinity] and [Math.max()] is
    [-Infinity], so every comparison fails. *)
Definition pathHit (x y : Q) (el : CanvasElement) (pts : list Point) : bool :=
  match JS.min_list (map px pts), JS.max_list (map px pts),
        JS.min_list (map py pts), JS.max_list (map py pts) with
  | Some minX, Some maxX, Some minY, Some maxY =>
      JS.geb x (minX + el_x el) && JS.leb x (maxX + el_x el)
      && JS.geb y (minY + el_y el) && JS.leb y (maxY + el_y el)
  | _, _, _, _ => false
  end.

Definition eraserHit (x y : Q) (el : CanvasElement) : bool :=
  if JS.truthy (el_width el) && JS.truthy (el_height el) then
    inBox x y (el_x el) (el_y el) (default 0 (el_width el)) (default 0 (el_height el))
  else
    match ElementType.eqb (el_type el) ElementType.PATH, el_points el with
    | true, Some pts => pathHit x y el pts
    | _, _ =>
        if ElementType.eqb (el_type el) ElementType.TEXT then
          inBox x y (el_x el) (el_y el) 300 50
        else false
    end.

(** The selection rectangle of the BOX_SELECT branch. *)
Definition dragBox (sx sy x y : Q) : Bounds :=
  let w := x - sx in
  let h := y - sy in
  {| bx := if JS.ltb w 0 then x else sx;
     by_ := if JS.ltb h 0 then y else sy;
     bwidth := Qabs w; bheight := Qabs h |}.

Definition handleContainerPointerMove (s : EditorState) (e : PointerEvent) : EditorState :=
  let i := interaction s in
  let p := getMousePos s e in
  let x := px p in
  let y := py p in
  match mode i with
  | CREATING =>
      setElements (map (createStep (currentId i) (startX i) (startY i) x y)) s
  | BOX_SELECT =>
      setSelectionBox (Some (dragBox (startX i) (startY i) x y)) s
  | ERASING =>
      match List.find (eraserHit x y) (elements s) with
      | Some hit => deleteElement (el_id hit) s
      | None => s
      end
  | _ => s
  end.

(** *** Pointer up on the canvas container: [handleContainerPointerUp] *)

(** The predicate of [elements.filter] in the box-select resolution. *)
Definition boxHit (sb : Bounds) (el : CanvasElement) : bool :=
  let elX := el_x el in
  let elY := el_y el in
  let elW := JS.or_else (el_width el) 10 in
  let elH := JS.or_else (el_height el) 10 in
  JS.ltb elX (bx sb + bwidth sb) && JS.gtb (elX + elW) (bx sb)
  && JS.ltb elY (by_ sb + bheight sb) && JS.gtb (elY + elH) (by_ sb).

Definition addAll (hits : list CanvasElement) (prev : gset string) : gset string :=
  foldl (λ next h, {[ el_id h ]} ∪ next) prev hits.

Definition handleContainerPointerUp (s : EditorState) : EditorState :=
  let s' :=
    match mode (interaction s), selectionBox s with
    | BOX_SELECT, Some sb =>
        let hits := List.filter (boxHit sb) (elements s) in
        setSelectionBox None (setSelectedIds (addAll hits) s)
    | _, _ => s
    end in
  setMode IDLE s'.

(** *** Pointer down on an element: [handleElementPointerDown] *)

Definition isInput (t : Target) : bool :=
  String.eqb (tagName t) "INPUT" || String.eqb (tagName t) "TEXTAREA"
  || isContentEditable t.

(** [elements.forEach(el => { if (currentSelection.has(el.id)) initPos[el.id] = ... })] *)
Definition snapshot (sel : gset string) (els : list CanvasElement) : gmap string Point :=
  foldl (λ (m : gmap string Point) el,
           if bool_decide (el_id el ∈ sel)
           then <[ el_id el := {| px := el_x el; py := el_y el |} ]> m
           else m) ∅ els.

Definition pickColor (s : EditorState) (id : string) : EditorState :=
  match List.find (λ el, idEq (el_id el) id) (elements s) with
  | Some el =>
      match el_style el with
      | Some st =>
          match strokeColor st with
          | Some c => if String.eqb c "" then s else setActiveColor c s
          | None => s
          end
      | None => s
      end
  | None => s
  end.

Definition handleElementPointerDown (s : EditorState) (e : PointerEvent)
    (id : string) : EditorState :=
  if Tool.eqb (tool s) Tool.ERASER then deleteElement id s
  else if Tool.eqb (tool s) Tool.SELECT then
    let ref := selectedIds s in
    let s1 := pickColor s id in
    let s2 :=
      if shiftKey e then
        setSelectedIds
          (λ prev, if bool_decide (id ∈ prev) then prev ∖ {[ id ]} else {[ id ]} ∪ prev) s1
      else if negb (bool_decide (id ∈ ref)) then setSelectedIds (λ _, {[ id ]}) s1
      else s1 in
    if closestDragHandle (target e) || negb (isInput (target e)) then
      let currentSelection : gset string :=
        if shiftKey e then ref
        else if bool_decide (id ∈ ref) then ref else {[ id ]} in
      setInteraction
        {| startX := clientX e; startY := clientY e; currentId := Some id;
           mode := MOVING; initialPositions := snapshot currentSelection (elements s);
           resizeHandle := ""; initialBounds := noBounds |} s2
    else s2
  else s.

(** *** Zoom controls and dispatch *)

Definition zoomOut (s : EditorState) : EditorState :=
  setScale (Qmax (1 # 10) (scale s - (1 # 10))) s.

Definition zoomIn (s : EditorState) : EditorState :=
  setScale (Qmin 3 (scale s + (1 # 10))) s.

Definition zoomReset (s : EditorState) : EditorState := setScale 1 s.

(** A pointer move over the canvas reaches the container handler and then
    the listener on the window; likewise a pointer up. *)
Definition onPointerMove (s : EditorState) (e : PointerEvent) : EditorState :=
  handleGlobalMove (handleContainerPointerMove s e) e.

Definition onPointerUp (s : EditorState) : EditorState :=
  handleGlobalUp (handleContainerPointerUp s).

(** The state of a freshly mounted editor. *)
Definition initialState (els : list CanvasElement) : EditorState :=
  {| elements := els; tool := Tool.SELECT; activeColor := "#000000";
     scale := 1; selectedIds := ∅; slashMenu := None; selectionBox := None;
     interaction := initialInteraction; elementRefs := ∅; timers := [] |}.

(** ** The earlier copy of the component

    The source holds a second, earlier copy of [Editor], without zoom.
    Its handlers differ from the ones above in the points modelled here:
    pointer positions are not divided by a scale, every creation tool
    opens its session in mode CREATING, a text block is created without a
    width, and shapes are stroked with the constant "#000". *)

Module Earlier.

Definition getMousePos (e : PointerEvent) : Point :=
  {| px := clientX e - rectLeft e; py := clientY e - rectTop e |}.

Definition newText (id : string) (x y : Q) : CanvasElement :=
  {| el_id := id; el_type := ElementType.TEXT; el_x := x; el_y := y;
     el_width := None; el_height := None;
     el_content := Some ""%string; el_points := None;
     el_style := None; el_isExpanded := None |}.

Definition handleContainerPointerDown (s : EditorState) (e : PointerEvent)
    (newId : string) : EditorState :=
  let p := getMousePos e in
  let x := px p in
  let y := py p in
  if Tool.eqb (tool s) Tool.SELECT then
    if isBackground (target e) then
      let s := setInteraction (session x y None BOX_SELECT) s in
      let s := setSelectionBox
                 (Some {| bx := x; by_ := y; bwidth := 0; bheight := 0 |}) s in
      let s := if negb (shiftKey e) then setSelectedIds (λ _, ∅) s else s in
      setSlashMenu None s
    else s
  else if Tool.eqb (tool s) Tool.ERASER then
    setInteraction (session x y None ERASING) s
  else if Tool.eqb (tool s) Tool.TEXT && isContentEditable (target e) then s
  else
    let s' := setInteraction (session x y (Some newId) CREATING) s in
    if Tool.oneOf [Tool.TEXT; Tool.CODE; Tool.EXPANDABLE] (tool s) then
      let newEl :=
        if Tool.eqb (tool s) Tool.CODE then newCode newId x y
        else if Tool.eqb (tool s) Tool.EXPANDABLE then newExpandable newId x y
        else newText newId x y in
      setTimeout (el_id newEl) (setElements (append newEl) s')
    else
      let newEl :=
        if Tool.eqb (tool s) Tool.DRAW then newPath newId "#000" x y
        else newShape newId "#000"
               (if Tool.eqb (tool s) Tool.RECT then ElementType.RECTANGLE
                else ElementType.CIRCLE) x y in
      setElements (append newEl) s'.

Definition handleContainerPointerMove (s : EditorState) (e : PointerEvent) : EditorState :=
  let i := interaction s in
  let p := getMousePos e in
  let x := px p in
  let y := py p in
  match mode i with
  | CREATING =>
      setElements (map (createStep (currentId i) (startX i) (startY i) x y)) s
  | BOX_SELECT =>
      setSelectionBox (Some (dragBox (startX i) (startY i) x y)) s
  | ERASING =>
      match List.find (eraserHit x y) (elements s) with
      | Some hit => deleteElement (el_id hit) s
      | None => s
      end
  | _ => s
  end.

Definition handleGlobalMove (s : EditorState) (e : PointerEvent) : EditorState :=
  let i := interaction s in
  match mode i with
  | IDLE => s
  | MOVING =>
      let dx := clientX e - startX i in
      let dy := clientY e - startY i in
      setElements (map (moveElement (initialPositions i) dx dy)) s
  | RESIZING =>
      match currentId i with
      | Some cur =>
          if idEq cur "" then s
          else
            let dx := clientX e - startX i in
            let dy := clientY e - startY i in
            let b := resizeBounds (resizeHandle i) (initialBounds i) dx dy 20 in
            setElements
              (map (λ el, if idEq (el_id el) cur then withBounds el b else el)) s
      | None => s
      end
  | _ => s
  end.

End Earlier.

(** ** Predicates and sample data used in the statements *)

Definition shapeOf (t : Tool.t) : ElementType.t :=
  if Tool.eqb t Tool.RECT then ElementType.RECTANGLE else ElementType.CIRCLE.

(** The session of a shape under creation: the anchor [(ax, ay)] is fixed
    and the new shape, of id [nid] and type [ty], is the last element of
    the collection. *)
Definition creating (ax ay k : Q) (nid : string) (ty : ElementType.t)
    (st : EditorState) : Prop :=
  interaction st = session ax ay (Some nid) CREATING ∧ scale st = k ∧
  ∃ front el, elements st = front ++ [el] ∧ el_id el = nid ∧ el_type el = ty.

(** The shape under creation spans the anchor and the point [(x, y)]. *)
Definition sized (ax ay : Q) (nid : string) (ty : ElementType.t)
    (st : EditorState) (x y : Q) : Prop :=
  ∃ el, last (elements st) = Some el ∧ el_id el = nid ∧ el_type el = ty ∧
        el_width el = Some (Qabs (x - ax)) ∧
        el_height el = Some (Qabs (y - ay)) ∧
        el_x el == Qmin x ax ∧ el_y el == Qmin y ay.

(** A pointer event at screen position [(x, y)] over a canvas whose
    container has its origin at the screen origin. *)
Definition pointerAt (x y : Q) : PointerEvent :=
  {| clientX := x; clientY := y; button := 0; shiftKey := false;
     target := {| target_id := "canvas-bg"; tagName := "DIV";
                  isContentEditable := false; closestDragHandle := false |};
     rectLeft := 0; rectTop := 0 |}.

(** A mounted element of [elementRefs]. *)
Definition mounted (w h : Q) (content : option Q) : DomElement :=
  {| rectWidth := w; rectHeight := h; contentScrollHeight := content |}.

Definition withRefs (refs : gmap string DomElement) (s : EditorState) : EditorState :=
  {| elements := elements s; tool := tool s; activeColor := activeColor s;
     scale := scale s; selectedIds := selectedIds s; slashMenu := slashMenu s;
     selectionBox := selectionBox s; interaction := interaction s;
     elementRefs := refs; timers := timers s |}.

(** A page holding one code block "c" (300 x 150 at (10,10)), selected and
    mounted, on which a resize by the south handle has started at the
    screen point (160,160). *)
Definition codeResize : EditorState :=
  handleResizeStart
    (withRefs {[ "c"%string := mounted 300 150 None ]}
       (setSelectedIds (λ _, {[ "c"%string ]}) (initialState [newCode "c" 10 10])))
    (pointerAt 160 160) "c" "s".

(** A page holding one text block "t" placed by a click (width 400, height
    left to its content), mounted with a content node 100 high, on which a
    resize by the east handle has started at the screen point (410,60). *)
Definition textResize : EditorState :=
  handleResizeStart
    (withRefs {[ "t"%string := mounted 400 100 (Some 100) ]}
       (setSelectedIds (λ _, {[ "t"%string ]}) (initialState [newText "t" 10 10])))
    (pointerAt 410 60) "t" "e".

(** The minimum-size rule read as holding on both axes of every resize
    step, whatever the handle. *)
Definition resize_minimum_on_both_axes : Prop :=
  ∀ (s : EditorState) (e : PointerEvent) (cur : string) (el' : CanvasElement),
    mode (interaction s) = RESIZING →
    currentId (interaction s) = Some cur → cur ≠ ""%string →
    el' ∈ elements (handleGlobalMove s e) → el_id el' = cur →
    ∃ w h, el_width el' = Some w ∧ el_height el' = Some h ∧
           20 <= w ∧ minH (elementRefs s) el' <= h.

(** Escape read as ending the interaction session. *)
Definition escape_forces_idle : Prop :=
  ∀ (s : EditorState) (active : bool),
    let s' := handleKeyDown s {| key := "Escape"; activeIsEditing := active |} in
    mode (interaction s') = IDLE ∧ selectedIds s' = ∅ ∧
    tool s' = Tool.SELECT ∧ slashMenu s' = None.

(** Two rectangles for the box-select and drag scenarios. *)
Definition rectA : CanvasElement :=
  {| el_id := "A"; el_type := ElementType.RECTANGLE; el_x := 10; el_y := 10;
     el_width := Some 40; el_height := Some 30; el_content := None;
     el_points := None; el_style := None; el_isExpanded := None |}.

Definition rectB : CanvasElement :=
  {| el_id := "B"; el_type := ElementType.RECTANGLE; el_x := 100; el_y := 40;
     el_width := Some 40; el_height := Some 30; el_content := None;
     el_points := None; el_style := None; el_isExpanded := None |}.

(** The same event with the shift key held. *)
Definition withShift (e : PointerEvent) : PointerEvent :=
  {| clientX := clientX e; clientY := clientY e; button := button e;
     shiftKey := true; target := target e;
     rectLeft := rectLeft e; rectTop := rectTop e |}.

(** A pointer event on an element (not on the canvas background). *)
Definition pointerOn (x y : Q) (shift : bool) : PointerEvent :=
  {| clientX := x; clientY := y; button := 0; shiftKey := shift;
     target := {| target_id := ""; tagName := "rect";
                  isContentEditable := false; closestDragHandle := false |};
     rectLeft := 0; rectTop := 0 |}.

(** The extent box selection gives to an element on one axis: its explicit
    size, or 10 when it has none (absent, or zero). *)
Definition extent (o : option Q) : Q :=
  match o with
  | Some w => if Qeq_dec w 0 then 10 else w
  | None => 10
  end.

(** Open-interval intersection of an element's box with the selection
    rectangle. *)
Definition overlaps (sb : Bounds) (el : CanvasElement) : Prop :=
  el_x el < bx sb + bwidth sb ∧ bx sb < el_x el + extent (el_width el) ∧
  el_y el < by_ sb + bheight sb ∧ by_ sb < el_y el + extent (el_height el).

(** The ids a drag started on element [id] moves: the selection held when
    the pointer went down, or [id] alone when a plain press hits an
    unselected element. *)
Definition dragged (s : EditorState) (e : PointerEvent) (id : string) : gset string :=
  if shiftKey e then selectedIds s
  else if bool_decide (id ∈ selectedIds s) then selectedIds s
  else {[ id ]}.

(** Translation of the elements whose id is in [ids] by [(dx, dy)]. *)
Definition translate (ids : gset string) (dx dy : Q) (el : CanvasElement) : CanvasElement :=
  if bool_decide (el_id el ∈ ids)
  then withPosition el (el_x el + dx) (el_y el + dy)
  else el.

(** The session of a drag: anchor, snapshot and scale are fixed, and the
    elements are those of [els0] up to the positions of the snapshotted
    ones. *)
Definition moving (i : Interaction) (k : Q) (els0 : list CanvasElement)
    (st : EditorState) : Prop :=
  interaction st = i ∧ scale st = k ∧
  ∀ dx dy, map (moveElement (initialPositions i) dx dy) (elements st)
           = map (moveElement (initialPositions i) dx dy) els0.

(** Every selected id is the id of an element of the collection. *)
Definition selection_live (s : EditorState) : Prop :=
  ∀ id, id ∈ selectedIds s → ∃ el, el ∈ elements s ∧ el_id el = id.

(** Running the pending timer callbacks, oldest first. *)
Fixpoint runTimeouts (n : nat) (s : EditorState) : EditorState :=
  match n with
  | O => s
  | S n => runTimeouts n (runTimeout s)
  end.

Definition flushTimers (s : EditorState) : EditorState :=
  runTimeouts (length (timers s)) s.

(** Click-to-place creation read as adding the new id to the selection:
    the selection observed through [observe] (at once, or after the timer)
    is the previous one plus the new id. *)
Definition click_to_place_adds_to_selection (observe : EditorState → EditorState) : Prop :=
  ∀ (s : EditorState) (e : PointerEvent) (nid : string),
    Tool.oneOf [Tool.TEXT; Tool.CODE; Tool.EXPANDABLE] (tool s) = true →
    button e = 0%Z → isContentEditable (target e) = false → timers s = [] →
    selectedIds (observe (handleContainerPointerDown s e nid))
    = {[ nid ]} ∪ selectedIds s.

(** The eraser's hit region, following its description: the explicit box
    when width and height are both present and non-zero; otherwise, for a
    path, the bounding box of its points offset by the origin (a point
    lies in it when some point of the path is at or before it and some
    point at or after it, on each axis); otherwise, for a text element, a
    box of 300 by 50 at the origin; otherwise nothing. *)
Definition explicitSize (el : CanvasElement) : Prop :=
  ∃ w h, el_width el = Some w ∧ el_height el = Some h ∧ ¬ w == 0 ∧ ¬ h == 0.

Definition inHitRegion (x y : Q) (el : CanvasElement) : Prop :=
  (∃ w h, el_width el = Some w ∧ el_height el = Some h ∧ ¬ w == 0 ∧ ¬ h == 0 ∧
          el_x el <= x ∧ x <= el_x el + w ∧ el_y el <= y ∧ y <= el_y el + h)
  ∨ (¬ explicitSize el ∧ el_type el = ElementType.PATH ∧
     ∃ pts, el_points el = Some pts ∧
            (∃ p, p ∈ pts ∧ px p + el_x el <= x) ∧ (∃ p, p ∈ pts ∧ x <= px p + el_x el) ∧
            (∃ p, p ∈ pts ∧ py p + el_y el <= y) ∧ (∃ p, p ∈ pts ∧ y <= py p + el_y el))
  ∨ (¬ explicitSize el ∧ el_type el = ElementType.TEXT ∧
     el_x el <= x ∧ x <= el_x el + 300 ∧ el_y el <= y ∧ y <= el_y el + 50).

(** A rectangle drawn with no width. *)
Definition flatRect : CanvasElement :=
  {| el_id := "F"; el_type := ElementType.RECTANGLE; el_x := 20; el_y := 20;
     el_width := Some 0; el_height := Some 30; el_content := None;
     el_points := None; el_style := None; el_isExpanded := None |}.

(** An eraser drag in progress over a page holding [flatRect], [rectA] and
    [rectB], all selected. *)
Definition erasing : EditorState :=
  handleContainerPointerDown
    (setTool Tool.ERASER
       (setSelectedIds (λ _, {[ "F"%string; "A"%string; "B"%string ]})
          (initialState [flatRect; rectA; rectB])))
    (pointerAt 0 0) "n".

(** ** Further handlers of the [Editor] component *)

(** A [Partial<CanvasElement>]: a field is [None] when the key is absent
    from the object; for an optional field of the element the value may
    itself be [undefined]. *)
Record Patch := {
  p_id : option string;
  p_type : option ElementType.t;
  p_x : option Q;
  p_y : option Q;
  p_width : option (option Q);
  p_height : option (option Q);
  p_content : option (option string);
  p_points : option (option (list Point));
  p_style : option (option Style);
  p_isExpanded : option (option bool)
}.

Definition noPatch : Patch :=
  {| p_id := None; p_type := None; p_x := None; p_y := None; p_width := None;
     p_height := None; p_content := None; p_points := None; p_style := None;
     p_isExpanded := None |}.

(** [{ ...el, ...updates }] *)
Definition applyPatch (el : CanvasElement) (u : Patch) : CanvasElement :=
  {| el_id := default (el_id el) (p_id u);
     el_type := default (el_type el) (p_type u);
     el_x := default (el_x el) (p_x u);
     el_y := default (el_y el) (p_y u);
     el_width := default (el_width el) (p_width u);
     el_height := default (el_height el) (p_height u);
     el_content := default (el_content el) (p_content u);
     el_points := default (el_points el) (p_points u);
     el_style := default (el_style el) (p_style u);
     el_isExpanded := default (el_isExpanded el) (p_isExpanded u) |}.

(** [updateElement] *)
Definition updateElement (id : string) (updates : Patch) (s : EditorState) : EditorState :=
  setElements (map (λ el, if idEq (el_id el) id then applyPatch el updates else el)) s.

(** [getContentHeight]; [innerHeight] is [window.innerHeight]. *)
Definition getContentHeight (innerHeight : Q) (s : EditorState) : Q :=
  if Nat.eqb (length (elements s)) 0 then 2000
  else
    match JS.max_list (map (λ el, el_y el + JS.or_else (el_height el) 0) (elements s)) with
    | Some maxY => Qmax innerHeight (maxY + 500)
    | None => innerHeight
    end.

(** [{ ...el, style: { ...el.style, strokeColor: color } }] *)
Definition withStrokeColor (el : CanvasElement) (color : string) : CanvasElement :=
  {| el_id := el_id el; el_type := el_type el; el_x := el_x el; el_y := el_y el;
     el_width := el_width el; el_height := el_height el;
     el_content := el_content el; el_points := el_points el;
     el_style :=
       Some match el_style el with
            | Some st =>
                {| strokeColor := Some color; backgroundColor := backgroundColor st;
                   strokeWidth := strokeWidth st; fontSize := fontSize st |}
            | None =>
                {| strokeColor := Some color; backgroundColor := None;
                   strokeWidth := None; fontSize := None |}
            end;
     el_isExpanded := el_isExpanded el |}.

(** The callback of [elements.map] in [applyColorToSelection];
    [highlighted] is the test on the window's text selection (a non-empty
    selection anchored inside the focused element).  The [execCommand]
    calls act on the content surface only. *)
Definition recolor (sel : gset string) (color : string) (highlighted : bool)
    (el : CanvasElement) : CanvasElement :=
  if bool_decide (el_id el ∈ sel) then
    if ElementType.eqb (el_type el) ElementType.TEXT then
      if highlighted then el else withStrokeColor el color
    else if ElementType.eqb (el_type el) ElementType.EXPANDABLE then el
    else if existsb (ElementType.eqb (el_type el))
              [ElementType.RECTANGLE; ElementType.CIRCLE; ElementType.PATH]
    then withStrokeColor el color
    else el
  else el.

(** [applyColorToSelection] *)
Definition applyColorToSelection (color : string) (highlighted : bool)
    (s : EditorState) : EditorState :=
  let s1 := setActiveColor color s in
  if bool_decide (0 < size (selectedIds s))%nat then
    setElements (λ _, map (recolor (selectedIds s) color highlighted) (elements s)) s1
  else s1.

(** ** Slash menu and mounted nodes *)

(** [handleTextKeyUp]: [caret] is the left and bottom of the rectangle the
    handler reads from the DOM selection, [None] when there is no
    selection with a range. *)
Definition handleTextKeyUp (s : EditorState) (k : string) (caret : option Point)
    (id : string) : EditorState :=
  if String.eqb k "/" then
    match caret with
    | Some r => setSlashMenu (Some {| sm_x := px r; sm_y := py r + 5; targetId := id |}) s
    | None => s
    end
  else s.

(** [handleSlashSelect]: the commands it runs act on the document of the
    browser; of the state it only closes the menu. *)
Definition handleSlashSelect (s : EditorState) : EditorState :=
  match slashMenu s with
  | None => s
  | Some _ => setSlashMenu None s
  end.

(** [registerRef]: [elementRefs.current[id] = el], [None] for [null]. *)
Definition registerRef (id : string) (el : option DomElement) (s : EditorState) : EditorState :=
  withRefs (match el with
            | Some d => <[ id := d ]> (elementRefs s)
            | None => delete id (elementRefs s)
            end) s.

(** ** Events

    The wiring of the component: which handlers an event reaches.  A
    pointer move or a pointer-up over the canvas reaches the container
    handler and the listener on the window; outside the canvas only the
    listener on the window.  [Timeout] is the oldest pending 50 ms timer
    of a click-to-place creation firing; [SlashClose] the click outside
    the menu. *)
Inductive Event :=
  | KeyDown (e : KeyboardEvent)
  | CanvasDown (e : PointerEvent) (newId : string)
  | ElementDown (e : PointerEvent) (id : string)
  | ResizeDown (e : PointerEvent) (id handle : string)
  | Move (e : PointerEvent)
  | MoveOutside (e : PointerEvent)
  | Up
  | UpOutside
  | PickTool (t : Tool.t)
  | PickColor (color : string) (highlighted : bool)
  | ZoomIn
  | ZoomOut
  | ZoomReset
  | Update (id : string) (updates : Patch)
  | Delete (id : string)
  | Timeout
  | TextKeyUp (k : string) (caret : option Point) (id : string)
  | SlashSelect
  | SlashClose
  | Register (id : string) (el : option DomElement).

Definition dispatch (s : EditorState) (ev : Event) : EditorState :=
  match ev with
  | KeyDown e => handleKeyDown s e
  | CanvasDown e newId => handleContainerPointerDown s e newId
  | ElementDown e id => handleElementPointerDown s e id
  | ResizeDown e id handle => handleResizeStart s e id handle
  | Move e => onPointerMove s e
  | MoveOutside e => handleGlobalMove s e
  | Up => onPointerUp s
  | UpOutside => handleGlobalUp s
  | PickTool t => setTool t s
  | PickColor color highlighted => applyColorToSelection color highlighted s
  | ZoomIn => zoomIn s
  | ZoomOut => zoomOut s
  | ZoomReset => zoomReset s
  | Update id updates => updateElement id updates s
  | Delete id => deleteElement id s
  | Timeout => runTimeout s
  | TextKeyUp k caret id => handleTextKeyUp s k caret id
  | SlashSelect => handleSlashSelect s
  | SlashClose => setSlashMenu None s
  | Register id el => registerRef id el s
  end.

Definition ids (s : EditorState) : list string := map el_id (elements s).

(** What the wiring guarantees of an event: a generated id is new, an
    element handler fires on an element of the collection, and the child
    components never patch the id of an element. *)
Definition enabled (s : EditorState) (ev : Event) : Prop :=
  match ev with
  | CanvasDown _ newId => newId ∉ ids s
  | ElementDown _ id => id ∈ ids s
  | Update _ updates => p_id updates = None
  | _ => True
  end.

Fixpoint admissible (s : EditorState) (evs : list Event) : Prop :=
  match evs with
  | [] => True
  | ev :: rest => enabled s ev ∧ admissible (dispatch s ev) rest
  end.

(** The points of the path under creation. *)
Definition drawing (ax ay k : Q) (nid : string) (pts : list Point)
    (st : EditorState) : Prop :=
  interaction st = session ax ay (Some nid) CREATING ∧ scale st = k ∧
  ∃ front el, elements st = front ++ [el] ∧ el_id el = nid ∧
              el_type el = ElementType.PATH ∧ el_points el = Some pts ∧
              el_x el = 0 ∧ el_y el = 0.

(** A field of the optional style of an element. *)
Definition styleField {A : Type} (f : Style → option A) (el : CanvasElement) : option A :=
  match el_style el with
  | Some st => f st
  | None => None
  end.

(** Two elements that differ at most in their style. *)
Definition sameButStyle (a b : CanvasElement) : Prop :=
  el_id a = el_id b ∧ el_type a = el_type b ∧ el_x a = el_x b ∧ el_y a = el_y b ∧
  el_width a = el_width b ∧ el_height a = el_height b ∧
  el_content a = el_content b ∧ el_points a = el_points b ∧
  el_isExpanded a = el_isExpanded b.

Definition isShape (t : ElementType.t) : Prop :=
  t = ElementType.RECTANGLE ∨ t = ElementType.CIRCLE ∨ t = ElementType.PATH.

(** [{ ...u1, ...u2 }] *)
Definition mergePatch (u1 u2 : Patch) : Patch :=
  {| p_id := match p_id u2 with Some v => Some v | None => p_id u1 end;
     p_type := match p_type u2 with Some v => Some v | None => p_type u1 end;
     p_x := match p_x u2 with Some v => Some v | None => p_x u1 end;
     p_y := match p_y u2 with Some v => Some v | None => p_y u1 end;
     p_width := match p_width u2 with Some v => Some v | None => p_width u1 end;
     p_height := match p_height u2 with Some v => Some v | None => p_height u1 end;
     p_content := match p_content u2 with Some v => Some v | None => p_content u1 end;
     p_points := match p_points u2 with Some v => Some v | None => p_points u1 end;
     p_style := match p_style u2 with Some v => Some v | None => p_style u1 end;
     p_isExpanded :=
       match p_isExpanded u2 with Some v => Some v | None => p_isExpanded u1 end |}.

(** A rectangle stroked in red. *)
Definition redRect : CanvasElement :=
  {| el_id := "R"; el_type := ElementType.RECTANGLE; el_x := 10; el_y := 10;
     el_width := Some 40; el_height := Some 30; el_content := None;
     el_points := None;
     el_style := Some {| strokeColor := Some "#ef4444"%string;
                         backgroundColor := Some "transparent"%string;
                         strokeWidth := Some 2; fontSize := None |};
     el_isExpanded := None |}.

(** The session of a box selection in progress. *)
Definition boxSelecting (ax ay k : Q) (els : list CanvasElement) (sel : gset string)
    (st : EditorState) : Prop :=
  interaction st = session ax ay None BOX_SELECT ∧ scale st = k ∧
  elements st = els ∧ selectedIds st = sel.

(** The element's box (with the fallback extent 10) meets the open
    rectangle spanned by the points [a] and [p]. *)
Definition meets (a p : Point) (el : CanvasElement) : Prop :=
  el_x el < Qmax (px p) (px a) ∧ Qmin (px p) (px a) < el_x el + extent (el_width el) ∧
  el_y el < Qmax (py p) (py a) ∧ Qmin (py p) (py a) < el_y el + extent (el_height el).

(** The invariant of the element store: ids are unique and every selected
    id is the id of an element. *)
Definition well_formed (s : EditorState) : Prop :=
  NoDup (ids s) ∧ selection_live s.

(** The ids generated for the presses on the canvas of a sequence of
    events. *)
Definition placed (evs : list Event) : list string :=
  flat_map (λ ev, match ev with CanvasDown _ newId => [newId] | _ => [] end) evs.

(** The invariant up to the ids of [G]: ids are unique and every selected
    id is the id of an element or one of [G]. *)
Definition live_upto (G : list string) (s : EditorState) : Prop :=
  NoDup (ids s) ∧ ∀ id, id ∈ selectedIds s → id ∈ ids s ∨ id ∈ G.

(** A text block placed by a click and erased before its timer fires. *)
Definition placeThenErase : list Event :=
  [ PickTool Tool.TEXT; CanvasDown (pointerAt 200 200) "n";
    PickTool Tool.ERASER; ElementDown (pointerOn 210 210 false) "n"; Timeout ].

(** * The document store (services/store.ts) and the application shell
      (App.tsx)

    The three records of [AppState] are finite maps keyed by id.  The ids
    returned by [generateId()] and the time returned by [Date.now()] are
    arguments.  A function that throws (a property read on a missing
    record) returns [None]. *)

Module NodeType.
Inductive t := FOLDER | PAGE.

Definition eqb (a b : t) : bool :=
  match a, b with
  | FOLDER, FOLDER | PAGE, PAGE => true
  | _, _ => false
  end.
End NodeType.

Record FileNode := {
  fn_id : string;
  fn_type : NodeType.t;
  fn_name : string;
  parentId : option string;
  children : list string;
  isOpen : option bool
}.

Record Document := {
  doc_id : string;
  doc_name : string;
  rootNodeId : string;
  createdAt : Z
}.

(** [pageId] is absent from a record built by spreading a missing page. *)
Record PageContent := {
  pageId : option string;
  pc_elements : list CanvasElement
}.

Record AppState := {
  documents : gmap string Document;
  fileNodes : gmap string FileNode;
  pages : gmap string PageContent
}.

(** [createDocument]; returns the new state and the id of the document. *)
Definition createDocument (state : AppState) (name : string)
    (docId rootId newPageId : string) (now : Z) : AppState * string :=
  let newDoc := {| doc_id := docId; doc_name := name; rootNodeId := rootId;
                   createdAt := now |} in
  let rootNode := {| fn_id := rootId; fn_type := NodeType.FOLDER; fn_name := "Root";
                     parentId := None; children := [newPageId];
                     isOpen := Some true |} in
  let initialPage := {| fn_id := newPageId; fn_type := NodeType.PAGE;
                        fn_name := "Untitled Page"; parentId := Some rootId;
                        children := []; isOpen := None |} in
  let newPageContent := {| pageId := Some newPageId; pc_elements := [] |} in
  ({| documents := <[ docId := newDoc ]> (documents state);
      fileNodes := <[ newPageId := initialPage ]> (<[ rootId := rootNode ]> (fileNodes state));
      pages := <[ newPageId := newPageContent ]> (pages state) |},
   docId).

(** [createFileNode]; reading [parent.children] throws when the parent is
    missing. *)
Definition createFileNode (state : AppState) (parent : string) (type : NodeType.t)
    (name : string) (nodeId : string) : option (AppState * string) :=
  let newNode := {| fn_id := nodeId; fn_type := type; fn_name := name;
                    parentId := Some parent; children := [];
                    isOpen := if NodeType.eqb type NodeType.FOLDER then Some true else None |} in
  match fileNodes state !! parent with
  | None => None
  | Some p =>
      let updatedParent := {| fn_id := fn_id p; fn_type := fn_type p; fn_name := fn_name p;
                              parentId := parentId p;
                              children := children p ++ [nodeId];
                              isOpen := isOpen p |} in
      let newPages :=
        if NodeType.eqb type NodeType.PAGE
        then <[ nodeId := {| pageId := Some nodeId; pc_elements := [] |} ]> (pages state)
        else pages state in
      Some ({| documents := documents state;
               fileNodes := <[ nodeId := newNode ]> (<[ parent := updatedParent ]> (fileNodes state));
               pages := newPages |},
            nodeId)
  end.

(** [updatePageContent] *)
Definition updatePageContent (state : AppState) (page : string)
    (els : list CanvasElement) : AppState :=
  {| documents := documents state;
     fileNodes := fileNodes state;
     pages := <[ page := {| pageId := match pages state !! page with
                                      | Some pc => pageId pc
                                      | None => None
                                      end;
                            pc_elements := els |} ]> (pages state) |}.

(** The state of the [App] component once the store is loaded. *)
Record App := {
  state : AppState;
  currentDocId : option string;
  activePageId : option string;
  isModalOpen : bool;
  newDocName : string
}.

(** Truthiness of an optional string. *)
Definition truthyId (o : option string) : bool :=
  match o with
  | Some i => negb (String.eqb i "")
  | None => false
  end.

(** [handleCreateDoc]; [blank] is the test [!newDocName.trim()]. *)
Definition handleCreateDoc (blank : bool) (docId rootId newPageId : string) (now : Z)
    (app : App) : App :=
  if blank then app
  else
    let '(newState, docId) :=
      createDocument (state app) (newDocName app) docId rootId newPageId now in
    match documents newState !! docId with
    | None => app
    | Some doc =>
        match fileNodes newState !! rootNodeId doc with
        | None => app
        | Some root =>
            {| state := newState; currentDocId := Some docId;
               activePageId := head (children root);
               isModalOpen := false; newDocName := "" |}
        end
    end.

(** [handleCreateNode] *)
Definition handleCreateNode (parent : string) (type : NodeType.t) (name : string)
    (nodeId : string) (app : App) : App :=
  match createFileNode (state app) parent type name nodeId with
  | None => app
  | Some (newState, nodeId) =>
      {| state := newState; currentDocId := currentDocId app;
         activePageId := if NodeType.eqb type NodeType.PAGE then Some nodeId
                         else activePageId app;
         isModalOpen := isModalOpen app; newDocName := newDocName app |}
  end.

(** [handleDeleteNode] *)
Definition handleDeleteNode (nodeId : string) (app : App) : App :=
  match fileNodes (state app) !! nodeId with
  | None => app
  | Some node =>
      if negb (truthyId (parentId node)) then app
      else
        let pid := default ""%string (parentId node) in
        match fileNodes (state app) !! pid with
        | None => app
        | Some p =>
            let updatedParent :=
              {| fn_id := fn_id p; fn_type := fn_type p; fn_name := fn_name p;
                 parentId := parentId p;
                 children := List.filter (λ c, negb (String.eqb c nodeId)) (children p);
                 isOpen := isOpen p |} in
            {| state := {| documents := documents (state app);
                           fileNodes := <[ pid := updatedParent ]> (fileNodes (state app));
                           pages := pages (state app) |};
               currentDocId := currentDocId app;
               activePageId := if bool_decide (activePageId app = Some nodeId) then None
                               else activePageId app;
               isModalOpen := isModalOpen app; newDocName := newDocName app |}
        end
  end.

(** [handleSavePage] *)
Definition handleSavePage (els : list CanvasElement) (app : App) : App :=
  match activePageId app with
  | Some page =>
      if String.eqb page "" then app
      else {| state := updatePageContent (state app) page els;
              currentDocId := currentDocId app; activePageId := activePageId app;
              isModalOpen := isModalOpen app; newDocName := newDocName app |}
  | None => app
  end.

(** The elements an editor mounted on [page] starts from:
    [(state.pages[page] || { pageId, elements: [] }).elements]. *)
Definition mountedElements (st : AppState) (page : string) : list CanvasElement :=
  match pages st !! page with
  | Some pc => pc_elements pc
  | None => []
  end.

(** The file tree is consistent: a node is stored under its own id, each
    child of a node is stored and names that node as its parent, and every
    page node has a page content. *)
Definition tree_ok (st : AppState) : Prop :=
  ∀ i n, fileNodes st !! i = Some n →
    fn_id n = i ∧
    (∀ c, c ∈ children n → ∃ cn, fileNodes st !! c = Some cn ∧ parentId cn = Some i) ∧
    (fn_type n = NodeType.PAGE → is_Some (pages st !! i)).

Definition emptyStore : AppState :=
  {| documents := ∅; fileNodes := ∅; pages := ∅ |}.

Definition freshApp : App :=
  {| state := emptyStore; currentDocId := None; activePageId := None;
     isModalOpen := true; newDocName := "Notes" |}.

(** * The collapsible section ([ExpandableElement])

    The content of a section holds its title and its body, separated by
    "||".  [cut s] is the text before the leftmost "||" of [s] and, when
    there is one, the text after it: the first element of
    [s.split('||')] and the input of the search for the second. *)

Definition isBar (a : ascii) : bool := Ascii.eqb a "|".

Fixpoint cut (s : string) : string * option string :=
  match s with
  | EmptyString => (EmptyString, None)
  | String a r =>
      match r with
      | String b r' =>
          if isBar a && isBar b then (EmptyString, Some r')
          else let '(x, y) := cut r in (String a x, y)
      | EmptyString => (String a EmptyString, None)
      end
  end.

(** [el.content?.split('||')[0] || ''] *)
Definition titleOf (content : option string) : string :=
  match content with
  | Some c => (cut c).1
  | None => ""
  end.

(** [el.content?.split('||')[1] || ''] *)
Definition bodyOf (content : option string) : string :=
  match content with
  | Some c =>
      match (cut c).2 with
      | Some rest => (cut rest).1
      | None => ""
      end
  | None => ""
  end.

Definition contentPatch (c : string) : Patch :=
  {| p_id := None; p_type := None; p_x := None; p_y := None; p_width := None;
     p_height := None; p_content := Some (Some c); p_points := None;
     p_style := None; p_isExpanded := None |}.

(** The title input: [onUpdate(el.id, { content: `${value}||${body}` })] *)
Definition editTitle (el : CanvasElement) (value : string) : EditorState → EditorState :=
  updateElement (el_id el) (contentPatch (value +:+ "||" +:+ bodyOf (el_content el))).

(** The body surface: [onUpdate(el.id, { content: `${title}||${innerHTML}` })] *)
Definition editBody (el : CanvasElement) (html : string) : EditorState → EditorState :=
  updateElement (el_id el) (contentPatch (titleOf (el_content el) +:+ "||" +:+ html)).

(** No "|" occurs in the string. *)
Fixpoint noBar (s : string) : bool :=
  match s with
  | EmptyString => true
  | String a r => negb (isBar a) && noBar r
  end.

(** The session of an eraser drag over the elements [els]. *)
Definition erasingOver (i : Interaction) (k : Q) (st : EditorState) : Prop :=
  interaction st = i ∧ scale st = k ∧ mode i = ERASING ∧ NoDup (ids st).

(** ** Anchors of interaction sessions *)



(** * Properties *)

(** ** Comparisons *)

Lemma ltb_lt (a b : Q) : JS.ltb a b = true ↔ a < b.
Proof.
  unfold JS.ltb. rewrite negb_true_iff. split.
  - intros H. apply Qnot_le_lt. intros Hle. apply Qle_bool_iff in Hle. congruence.
  - intros H. destruct (Qle_bool b a) eqn:E; [|done].
    apply Qle_bool_iff in E. lra.
Qed.

Lemma ltb_ge (a b : Q) : JS.ltb a b = false ↔ b <= a.
Proof.
  unfold JS.ltb. rewrite negb_false_iff. apply Qle_bool_iff.
Qed.

Lemma gtb_gt (a b : Q) : JS.gtb a b = true ↔ b < a.
Proof. apply (ltb_lt b a). Qed.

Lemma leb_le (a b : Q) : JS.leb a b = true ↔ a <= b.
Proof. apply Qle_bool_iff. Qed.

Lemma geb_ge (a b : Q) : JS.geb a b = true ↔ b <= a.
Proof. apply Qle_bool_iff. Qed.

(** Boolean tests of the source as order relations. *)
Ltac js_compare :=
  rewrite ?andb_true_iff, ?ltb_lt, ?gtb_gt, ?leb_le, ?geb_ge.

Lemma anchor_min (p a : Q) :
  (if JS.ltb (p - a) 0 then p else a) == Qmin p a.
Proof.
  destruct (JS.ltb (p - a) 0) eqn:E.
  - apply ltb_lt in E. symmetry. apply Q.min_l. lra.
  - apply ltb_ge in E. symmetry. apply Q.min_r. lra.
Qed.

(** ** Which handler acts in which mode *)

Lemma handleGlobalMove_other (st : EditorState) (e : PointerEvent) :
  mode (interaction st) ≠ MOVING → mode (interaction st) ≠ RESIZING →
  handleGlobalMove st e = st.
Proof.
  intros H1 H2. unfold handleGlobalMove. by destruct (mode (interaction st)).
Qed.

Lemma handleContainerPointerMove_other (st : EditorState) (e : PointerEvent) :
  mode (interaction st) ≠ CREATING → mode (interaction st) ≠ BOX_SELECT →
  mode (interaction st) ≠ ERASING →
  handleContainerPointerMove st e = st.
Proof.
  intros H1 H2 H3. unfold handleContainerPointerMove.
  by destruct (mode (interaction st)).
Qed.

Lemma onPointerMove_creating (st : EditorState) (e : PointerEvent) :
  mode (interaction st) = CREATING →
  onPointerMove st e =
  setElements
    (map (createStep (currentId (interaction st)) (startX (interaction st))
            (startY (interaction st)) (px (getMousePos st e)) (py (getMousePos st e))))
    st.
Proof.
  intros H. unfold onPointerMove.
  assert (Hc : handleContainerPointerMove st e =
    setElements
      (map (createStep (currentId (interaction st)) (startX (interaction st))
            (startY (interaction st)) (px (getMousePos st e)) (py (getMousePos st e))))
      st).
  { unfold handleContainerPointerMove. by rewrite H. }
  rewrite Hc. apply handleGlobalMove_other; cbn; rewrite H; done.
Qed.

(** ** Drag-to-size creation (CREATING) *)

Section Creating.
Variables (ax ay k : Q) (nid : string) (ty : ElementType.t).
Hypothesis ty_shape : ElementType.eqb ty ElementType.PATH = false.

Lemma creating_move (st : EditorState) (e : PointerEvent) :
  creating ax ay k nid ty st →
  creating ax ay k nid ty (onPointerMove st e) ∧
  sized ax ay nid ty (onPointerMove st e) ((clientX e - rectLeft e) / k) ((clientY e - rectTop e) / k).
Proof using ty_shape.
  intros (Hi & Hk & front & el & Hels & Hid & Hty).
  rewrite (onPointerMove_creating st e) by (by rewrite Hi).
  rewrite Hi. cbn [session currentId startX startY]. unfold setElements at 1 2.
  cbn [elements interaction scale]. rewrite Hels, map_app. cbn [map].
  unfold getMousePos; cbn [px py]. rewrite Hk.
  set (x := (clientX e - rectLeft e) / k). set (y := (clientY e - rectTop e) / k).
  assert (Hstep : createStep (Some nid) ax ay x y el =
    {| el_id := el_id el; el_type := el_type el;
       el_x := if JS.ltb (x - ax) 0 then x else ax;
       el_y := if JS.ltb (y - ay) 0 then y else ay;
       el_width := Some (Qabs (x - ax)); el_height := Some (Qabs (y - ay));
       el_content := el_content el; el_points := el_points el;
       el_style := el_style el; el_isExpanded := el_isExpanded el |}).
  { unfold createStep. rewrite Hid, bool_decide_eq_true_2 by done.
    cbn [negb]. rewrite Hty, ty_shape. done. }
  rewrite Hstep. split.
  - split; [done|]. split; [done|]. cbn [elements]. eexists _, _. split; [done|].
    cbn. done.
  - eexists. cbn [elements]. rewrite last_snoc. split; [done|]. cbn.
    repeat split; try done; apply anchor_min.
Qed.

Lemma creating_moves (moves : list PointerEvent) (st : EditorState) :
  creating ax ay k nid ty st → creating ax ay k nid ty (foldl onPointerMove st moves).
Proof using ty_shape.
  revert st. induction moves as [|e moves IH]; intros st H; [done|].
  cbn. apply IH. by apply creating_move.
Qed.

End Creating.


Lemma pointerDown_creating (s : EditorState) (e : PointerEvent) (nid : string) :
  tool s = Tool.RECT ∨ tool s = Tool.CIRCLE → button e = 0%Z →
  creating (px (getMousePos s e)) (py (getMousePos s e)) (scale s) nid
    (shapeOf (tool s)) (handleContainerPointerDown s e nid).
Proof.
  intros Ht Hb. unfold handleContainerPointerDown, isNonPrimary. rewrite Hb.
  destruct Ht as [-> | ->]; cbn; (split; [done|]); (split; [done|]);
    eexists _, _; (split; [done|]); done.
Qed.


(** C1.  A CREATING drag of a RECT or CIRCLE: after the pointer-down at the
    canvas anchor and any sequence of pointer moves, the element under
    creation has width [|px - sx|], height [|py - sy|], x [min(px, sx)] and
    y [min(py, sy)] for the last pointer position; so its size is never
    negative, whatever the drag direction.  Pressing at canvas (50,50) and
    releasing at (150,120) with the RECT tool gives the element
    x 50, y 50, width 100, height 70. *)
Theorem creating_drag_geometry :
  (∀ (s : EditorState) (down : PointerEvent) (nid : string)
     (moves : list PointerEvent) (e : PointerEvent),
     tool s = Tool.RECT ∨ tool s = Tool.CIRCLE →
     button down = 0%Z →
     let a := getMousePos s down in
     let p := getMousePos s e in
     let s' := foldl onPointerMove (handleContainerPointerDown s down nid) (moves ++ [e]) in
     ∃ el w h,
       last (elements s') = Some el ∧ el_id el = nid ∧
       el_type el = shapeOf (tool s) ∧
       el_width el = Some w ∧ el_height el = Some h ∧
       w = Qabs (px p - px a) ∧ h = Qabs (py p - py a) ∧
       el_x el == Qmin (px p) (px a) ∧ el_y el == Qmin (py p) (py a) ∧
       0 <= w ∧ 0 <= h ∧ el_x el <= el_x el + w ∧ el_y el <= el_y el + h)
  ∧ (let s := setTool Tool.RECT (initialState []) in
     let s1 := handleContainerPointerDown s (pointerAt 50 50) "r1" in
     let s2 := onPointerMove s1 (pointerAt 150 120) in
     elements (onPointerUp s2) =
       [ {| el_id := "r1"; el_type := ElementType.RECTANGLE;
            el_x := 50; el_y := 50; el_width := Some 100; el_height := Some 70;
            el_content := None; el_points := None;
            el_style := Some {| strokeColor := Some "#000000"%string;
                                backgroundColor := Some "transparent"%string;
                                strokeWidth := Some 2; fontSize := None |};
            el_isExpanded := None |} ]
     ∧ mode (interaction (onPointerUp s2)) = IDLE).
Proof.
  split.
  - intros s down nid moves e Ht Hb a p s'.
    assert (Hty : ElementType.eqb (shapeOf (tool s)) ElementType.PATH = false)
      by (by destruct Ht as [-> | ->]).
    pose proof (pointerDown_creating s down nid Ht Hb) as H0.
    apply (creating_moves _ _ _ _ _ Hty moves) in H0.
    apply (creating_move _ _ _ _ _ Hty _ e) in H0 as [_ (el & Hl & Hid & Hel & Hw & Hh & Hx & Hy)].
    exists el, (Qabs (px p - px a)), (Qabs (py p - py a)).
    subst s'. rewrite foldl_app. cbn [foldl].
    pose proof (Qabs_nonneg (px p - px a)). pose proof (Qabs_nonneg (py p - py a)).
    repeat split; try done; lra.
  - vm_compute. split; reflexivity.
Qed.

Lemma creating_drag_geometry_witness :
  let s := setTool Tool.CIRCLE (initialState []) in
  ∃ el w h,
    last (elements (foldl onPointerMove
                      (handleContainerPointerDown s (pointerAt 150 120) "c1")
                      ([pointerAt 90 200] ++ [pointerAt 50 50]))) = Some el ∧
    el_id el = "c1"%string ∧ el_type el = ElementType.CIRCLE ∧
    el_width el = Some w ∧ el_height el = Some h ∧
    w = Qabs (50 / 1 - 150 / 1) ∧ h = Qabs (50 / 1 - 120 / 1) ∧
    el_x el == Qmin (50 / 1) (150 / 1) ∧ el_y el == Qmin (50 / 1) (120 / 1) ∧
    0 <= w ∧ 0 <= h ∧ el_x el <= el_x el + w ∧ el_y el <= el_y el + h.
Proof.
  intros s.
  exact (proj1 creating_drag_geometry s (pointerAt 150 120) "c1"%string
           [pointerAt 90 200] (pointerAt 50 50) (or_intror eq_refl) eq_refl).
Defined.

(** ** The resize calculator *)

Lemma resizeBounds_x (h : string) (b : Bounds) (dx dy mh : Q) :
  JS.includes h "w" = false → bx (resizeBounds h b dx dy mh) = bx b.
Proof.
  intros Hw. unfold resizeBounds. rewrite Hw.
  by destruct (JS.includes h "n").
Qed.

Lemma resizeBounds_y (h : string) (b : Bounds) (dx dy mh : Q) :
  JS.includes h "n" = false → by_ (resizeBounds h b dx dy mh) = by_ b.
Proof.
  intros Hn. unfold resizeBounds. rewrite Hn.
  by destruct (JS.includes h "w").
Qed.

Lemma resizeBounds_width (h : string) (b : Bounds) (dx dy mh : Q) :
  JS.includes h "e" = false → JS.includes h "w" = false →
  bwidth (resizeBounds h b dx dy mh) = bwidth b.
Proof.
  intros He Hw. unfold resizeBounds. rewrite He, Hw.
  by destruct (JS.includes h "n").
Qed.

Lemma resizeBounds_height (h : string) (b : Bounds) (dx dy mh : Q) :
  JS.includes h "n" = false → JS.includes h "s" = false →
  bheight (resizeBounds h b dx dy mh) = bheight b.
Proof.
  intros Hn Hs. unfold resizeBounds. rewrite Hn, Hs.
  by destruct (JS.includes h "w").
Qed.

Lemma resizeBounds_min_width (h : string) (b : Bounds) (dx dy mh : Q) :
  JS.includes h "e" = true ∨ JS.includes h "w" = true ∨ 20 <= bwidth b →
  20 <= bwidth (resizeBounds h b dx dy mh).
Proof.
  intros H. unfold resizeBounds.
  pose proof (Q.le_max_l 20 (bwidth b + dx)).
  pose proof (Q.le_min_r dx (bwidth b - 20)).
  destruct (JS.includes h "e") eqn:He, (JS.includes h "w") eqn:Hw,
    (JS.includes h "n"); cbn; try lra;
    destruct H as [H | [H | H]]; try discriminate; lra.
Qed.

Lemma resizeBounds_min_height (h : string) (b : Bounds) (dx dy mh : Q) :
  JS.includes h "s" = true ∨ JS.includes h "n" = true ∨ mh <= bheight b →
  mh <= bheight (resizeBounds h b dx dy mh).
Proof.
  intros H. unfold resizeBounds.
  pose proof (Q.le_max_l mh (bheight b + dy)).
  pose proof (Q.le_min_r dy (bheight b - mh)).
  destruct (JS.includes h "s") eqn:Hs, (JS.includes h "n") eqn:Hn,
    (JS.includes h "w"); cbn; try lra;
    destruct H as [H | [H | H]]; try discriminate; lra.
Qed.

Lemma idEq_eq (a b : string) : idEq a b = true ↔ a = b.
Proof. apply String.eqb_eq. Qed.

Lemma idEq_refl (a : string) : idEq a a = true.
Proof. by apply idEq_eq. Qed.

(** In a resize session every element that carries the session's id is
    the image of an element of the collection under the calculator. *)
Lemma handleGlobalMove_resizing (s : EditorState) (e : PointerEvent)
    (cur : string) (el' : CanvasElement) :
  mode (interaction s) = RESIZING →
  currentId (interaction s) = Some cur → cur ≠ ""%string →
  el' ∈ elements (handleGlobalMove s e) → el_id el' = cur →
  ∃ el, el ∈ elements s ∧ el_id el = cur ∧ el_type el = el_type el' ∧
        minH (elementRefs s) el = minH (elementRefs s) el' ∧
        el' = withBounds el
                (resizeBounds (resizeHandle (interaction s))
                   (initialBounds (interaction s))
                   ((clientX e - startX (interaction s)) / scale s)
                   ((clientY e - startY (interaction s)) / scale s)
                   (minH (elementRefs s) el)).
Proof.
  intros Hm Hc Hne Hin Hid. unfold handleGlobalMove in Hin.
  rewrite Hm, Hc in Hin.
  destruct (idEq cur "") eqn:E; [apply idEq_eq in E; done|].
  cbn [setElements elements] in Hin.
  apply list_elem_of_fmap in Hin as (el & -> & Hel).
  unfold resizeElement in Hid |- *.
  destruct (idEq (el_id el) cur) eqn:E'; cbn [negb] in *.
  - exists el. apply idEq_eq in E'. done.
  - rewrite Hid, idEq_refl in E'. done.
Qed.

(** C2.  Anchor preservation: in a resize step with handle [h], initial
    bounds [b] and any pointer delta, a handle with neither 'e' nor 'w'
    leaves x and width equal to those of [b], a handle with neither 'n' nor
    's' leaves y and height equal to those of [b]; the handle "e" changes
    none of x, y and height. *)
Theorem resize_anchor_preservation (s : EditorState) (e : PointerEvent)
    (cur : string) (el' : CanvasElement) :
  mode (interaction s) = RESIZING →
  currentId (interaction s) = Some cur → cur ≠ ""%string →
  el' ∈ elements (handleGlobalMove s e) → el_id el' = cur →
  let h := resizeHandle (interaction s) in
  let b := initialBounds (interaction s) in
  (JS.includes h "e" = false → JS.includes h "w" = false →
   el_x el' = bx b ∧ el_width el' = Some (bwidth b)) ∧
  (JS.includes h "n" = false → JS.includes h "s" = false →
   el_y el' = by_ b ∧ el_height el' = Some (bheight b)) ∧
  (h = "e"%string →
   el_x el' = bx b ∧ el_y el' = by_ b ∧ el_height el' = Some (bheight b)).
Proof.
  intros Hm Hc Hne Hin Hid h b.
  destruct (handleGlobalMove_resizing s e cur el' Hm Hc Hne Hin Hid)
    as (el & _ & _ & _ & _ & ->).
  fold h b. cbn [withBounds el_x el_y el_width el_height].
  split; [|split].
  - intros He Hw. by rewrite resizeBounds_x, resizeBounds_width.
  - intros Hn Hs. by rewrite resizeBounds_y, resizeBounds_height.
  - intros Hh. rewrite resizeBounds_x, resizeBounds_y, resizeBounds_height;
      by rewrite ?Hh.
Qed.

Lemma minH_not_text (refs : gmap string DomElement) (el : CanvasElement) :
  el_type el ≠ ElementType.TEXT → minH refs el = 20.
Proof. intros H. unfold minH. by destruct (el_type el). Qed.

Lemma minH_text (refs : gmap string DomElement) (el : CanvasElement)
    (dom : DomElement) (sh : Q) :
  el_type el = ElementType.TEXT → refs !! el_id el = Some dom →
  contentScrollHeight dom = Some sh → minH refs el = sh + 16.
Proof. intros Ht Hd Hs. unfold minH. by rewrite Ht, Hd, Hs. Qed.

Lemma resize_anchor_preservation_witness :
  let el' := withBounds (newCode "c" 10 10)
               {| bx := 10; by_ := 10; bwidth := 300; bheight := 150 + (190 - 160) / 1 |} in
  (JS.includes "s" "e" = false → JS.includes "s" "w" = false →
   el_x el' = 10 ∧ el_width el' = Some 300) ∧
  (JS.includes "s" "n" = false → JS.includes "s" "s" = false →
   el_y el' = 10 ∧ el_height el' = Some 150) ∧
  ("s"%string = "e"%string →
   el_x el' = 10 ∧ el_y el' = 10 ∧ el_height el' = Some 150).
Proof.
  intros el'.
  refine (resize_anchor_preservation codeResize (pointerAt 170 190) "c" el'
            eq_refl eq_refl _ _ eq_refl).
  - discriminate.
  - vm_compute. left.
Defined.

(** The minimum-size rule does not hold on an axis the handle does not
    address: dragging the east handle of the text block of [textResize]
    keeps its height of 100, below the minimum 100 + 16 required by its
    content. *)
Lemma resize_minimum_counterexample : ¬ resize_minimum_on_both_axes.
Proof.
  intros H.
  destruct (H textResize (pointerAt 420 60) "t"%string
              (withBounds (newText "t" 10 10)
                 {| bx := 10; by_ := 10; bwidth := 410; bheight := 100 |})
              eq_refl eq_refl) as (w & h & _ & Hh & _ & Hmin).
  - discriminate.
  - vm_compute. left.
  - reflexivity.
  - injection Hh as <-. vm_compute in Hmin. by apply Hmin.
Qed.

(** C3 (amended).  In a resize step the width is at least 20 when the
    handle addresses the horizontal axis ('e' or 'w') and the height is at
    least the minimum height when the handle addresses the vertical axis
    ('s' or 'n'); an axis the handle does not address keeps the extent of
    the initial bounds.  The minimum height is 20 for an element that is
    not a text block, and the scroll height of the content node plus 16 for
    a mounted text block. *)
Theorem resize_minimum_on_dragged_axes (s : EditorState) (e : PointerEvent)
    (cur : string) (el' : CanvasElement) :
  mode (interaction s) = RESIZING →
  currentId (interaction s) = Some cur → cur ≠ ""%string →
  el' ∈ elements (handleGlobalMove s e) → el_id el' = cur →
  let h := resizeHandle (interaction s) in
  let b := initialBounds (interaction s) in
  let mh := minH (elementRefs s) el' in
  ∃ w ht,
    el_width el' = Some w ∧ el_height el' = Some ht ∧
    (JS.includes h "e" = true ∨ JS.includes h "w" = true → 20 <= w) ∧
    (JS.includes h "s" = true ∨ JS.includes h "n" = true → mh <= ht) ∧
    (JS.includes h "e" = false → JS.includes h "w" = false → w = bwidth b) ∧
    (JS.includes h "s" = false → JS.includes h "n" = false → ht = bheight b) ∧
    (el_type el' ≠ ElementType.TEXT → mh = 20) ∧
    (∀ dom sh, el_type el' = ElementType.TEXT →
               elementRefs s !! cur = Some dom →
               contentScrollHeight dom = Some sh → mh = sh + 16).
Proof.
  intros Hm Hc Hne Hin Hid h b mh.
  destruct (handleGlobalMove_resizing s e cur el' Hm Hc Hne Hin Hid)
    as (el & _ & Hid' & _ & Hmh & Hel).
  fold h b in Hel. subst mh. rewrite <- Hmh.
  set (mh := minH (elementRefs s) el) in *.
  exists (bwidth (resizeBounds h b ((clientX e - startX (interaction s)) / scale s)
                    ((clientY e - startY (interaction s)) / scale s) mh)),
         (bheight (resizeBounds h b ((clientX e - startX (interaction s)) / scale s)
                     ((clientY e - startY (interaction s)) / scale s) mh)).
  split; [by rewrite Hel|]. split; [by rewrite Hel|].
  split; [intros [H|H]; apply resizeBounds_min_width; tauto|].
  split; [intros [H|H]; apply resizeBounds_min_height; tauto|].
  split; [apply resizeBounds_width|].
  split; [intros; by apply resizeBounds_height|].
  subst mh. rewrite Hmh. split.
  - apply minH_not_text.
  - intros dom sh Ht Hd Hs. rewrite <- Hid in Hd. by apply (minH_text _ _ dom).
Qed.

Lemma resize_minimum_on_dragged_axes_witness :
  let el' := withBounds (newText "t" 10 10)
               {| bx := 10; by_ := 10; bwidth := 410; bheight := 100 |} in
  ∃ w ht,
    el_width el' = Some w ∧ el_height el' = Some ht ∧
    (JS.includes "e" "e" = true ∨ JS.includes "e" "w" = true → 20 <= w) ∧
    (JS.includes "e" "s" = true ∨ JS.includes "e" "n" = true → 116 <= ht) ∧
    (JS.includes "e" "e" = false → JS.includes "e" "w" = false → w = 400) ∧
    (JS.includes "e" "s" = false → JS.includes "e" "n" = false → ht = 100) ∧
    (el_type el' ≠ ElementType.TEXT → 116 = 20) ∧
    (∀ dom sh, el_type el' = ElementType.TEXT →
               ({[ "t"%string := mounted 400 100 (Some 100) ]} : gmap string DomElement)
                 !! "t"%string = Some dom →
               contentScrollHeight dom = Some sh → 116 = sh + 16).
Proof.
  intros el'.
  refine (resize_minimum_on_dragged_axes textResize (pointerAt 420 60) "t" el'
            eq_refl eq_refl _ _ eq_refl).
  - discriminate.
  - vm_compute. left.
Defined.

(** ** Escape *)

(** Escape leaves the interaction session as it is: pressed during a box
    selection, the session stays in BOX_SELECT. *)
Lemma escape_counterexample : ¬ escape_forces_idle.
Proof.
  intros H.
  destruct (H (handleContainerPointerDown (initialState [rectA]) (pointerAt 0 0) "n") false)
    as [Hmode _].
  vm_compute in Hmode. discriminate.
Qed.

(** A box selection interrupted by Escape is still committed by the
    pointer-up that follows. *)
Lemma escape_then_release_commits :
  let s1 := handleContainerPointerDown (initialState [rectA]) (pointerAt 0 0) "n" in
  let s2 := onPointerMove s1 (pointerAt 60 60) in
  let s3 := handleKeyDown s2 {| key := "Escape"; activeIsEditing := false |} in
  selectedIds s3 = ∅ ∧ mode (interaction s3) = BOX_SELECT ∧
  selectedIds (onPointerUp s3) = {[ "A"%string ]}.
Proof. vm_compute. done. Qed.

(** C4 (amended).  Escape, in any interaction mode, clears the selection,
    switches the tool to SELECT and dismisses the command menu; it leaves
    the interaction session (mode and anchor data), the selection box and
    the element collection as they are. *)
Theorem escape_resets_tool_and_selection (s : EditorState) (active : bool) :
  let s' := handleKeyDown s {| key := "Escape"; activeIsEditing := active |} in
  selectedIds s' = ∅ ∧ tool s' = Tool.SELECT ∧ slashMenu s' = None ∧
  interaction s' = interaction s ∧ selectionBox s' = selectionBox s ∧
  elements s' = elements s.
Proof. cbn. done. Qed.

(** ** Box selection *)

Lemma or_else_extent (o : option Q) : JS.or_else o 10 = extent o.
Proof.
  destruct o as [w|]; [|done]. cbn.
  destruct (Qeq_dec w 0) as [E|E].
  - apply Qeq_bool_iff in E. by rewrite E.
  - destruct (Qeq_bool w 0) eqn:E'; [|done]. by apply Qeq_bool_iff in E'.
Qed.

Lemma boxHit_overlaps (sb : Bounds) (el : CanvasElement) :
  boxHit sb el = true ↔ overlaps sb el.
Proof.
  unfold boxHit, overlaps. rewrite !or_else_extent. js_compare. tauto.
Qed.

Lemma elem_of_filter_bool (f : CanvasElement → bool) (l : list CanvasElement)
    (el : CanvasElement) :
  el ∈ List.filter f l ↔ el ∈ l ∧ f el = true.
Proof. rewrite !list_elem_of_In. apply filter_In. Qed.

Lemma elem_of_addAll (hits : list CanvasElement) (prev : gset string) (id : string) :
  id ∈ addAll hits prev ↔ id ∈ prev ∨ ∃ h, h ∈ hits ∧ el_id h = id.
Proof.
  unfold addAll. revert prev. induction hits as [|h hits IH]; intros prev; cbn.
  - split; [tauto|]. intros [H|(h & H & _)]; [done|]. by apply elem_of_nil in H.
  - rewrite IH, elem_of_union, elem_of_singleton. split.
    + intros [[-> | H] | (h' & H & E)]; [right|by left|right].
      * exists h. split; [left|done].
      * exists h'. split; [by right|done].
    + intros [H | (h' & H & E)]; [left; by right|].
      apply elem_of_cons in H as [-> | H]; [left; by left|].
      right. by exists h'.
Qed.

(** C5.  At pointer-up a box selection selects exactly the elements whose
    box (an absent or zero width or height counting as 10) meets the
    selection rectangle by the open-interval test, and adds their ids to
    the selection by union, removing none; a plain box selection empties
    the selection at pointer-down, a shift box selection keeps it. *)
Theorem box_select_resolution :
  (∀ (s : EditorState) (sb : Bounds),
     mode (interaction s) = BOX_SELECT → selectionBox s = Some sb →
     let s' := handleContainerPointerUp s in
     (∀ id, id ∈ selectedIds s' ↔
            id ∈ selectedIds s ∨ ∃ el, el ∈ elements s ∧ overlaps sb el ∧ el_id el = id) ∧
     selectedIds s ⊆ selectedIds s' ∧
     selectedIds (onPointerUp s) = selectedIds s' ∧
     selectionBox s' = None ∧ mode (interaction s') = IDLE ∧
     elements s' = elements s)
  ∧ (∀ (s : EditorState) (e : PointerEvent) (nid : string),
       tool s = Tool.SELECT → isBackground (target e) = true →
       let s' := handleContainerPointerDown s e nid in
       mode (interaction s') = BOX_SELECT ∧
       selectedIds s' = (if shiftKey e then selectedIds s else ∅) ∧
       selectionBox s' = Some {| bx := px (getMousePos s e); by_ := py (getMousePos s e);
                                 bwidth := 0; bheight := 0 |} ∧
       elements s' = elements s).
Proof.
  split.
  - intros s sb Hm Hsb s'.
    assert (Hs' : s' = setMode IDLE (setSelectionBox None
              (setSelectedIds (addAll (List.filter (boxHit sb) (elements s))) s))).
    { subst s'. unfold handleContainerPointerUp. by rewrite Hm, Hsb. }
    assert (Hiff : ∀ id, id ∈ selectedIds s' ↔
              id ∈ selectedIds s ∨ ∃ el, el ∈ elements s ∧ overlaps sb el ∧ el_id el = id).
    { intros id. rewrite Hs'. cbn [setMode setInteraction setSelectionBox setSelectedIds selectedIds].
      rewrite elem_of_addAll. split; (intros [H | (el & H)]; [by left|right; exists el]).
      - destruct H as [H E]. apply elem_of_filter_bool in H as [H1 H2].
        by apply boxHit_overlaps in H2.
      - destruct H as (H1 & H2 & E). split; [|done].
        apply elem_of_filter_bool. by rewrite boxHit_overlaps. }
    split; [done|]. split.
    { intros id Hid. apply Hiff. by left. }
    split.
    { unfold onPointerUp. fold s'. rewrite Hs'. done. }
    rewrite Hs'. done.
  - intros s e nid Ht Hbg s'. subst s'. unfold handleContainerPointerDown.
    rewrite Ht, Hbg. cbn. by destruct (shiftKey e).
Qed.

Lemma box_select_resolution_witness :
  let s := onPointerMove
             (handleContainerPointerDown
                (setSelectedIds (λ _, {[ "B"%string ]}) (initialState [rectA; rectB]))
                (withShift (pointerAt 0 0)) "n")
             (pointerAt 60 60) in
  ("A"%string ∈ selectedIds (handleContainerPointerUp s) ↔
   "A"%string ∈ selectedIds s ∨
   ∃ el, el ∈ elements s ∧
         overlaps {| bx := 0; by_ := 0; bwidth := 60; bheight := 60 |} el ∧
         el_id el = "A"%string) ∧
  selectedIds (handleContainerPointerUp s) = {[ "A"%string; "B"%string ]}.
Proof.
  intros s. split.
  - exact (proj1 (proj1 box_select_resolution s
                    {| bx := 0; by_ := 0; bwidth := 60; bheight := 60 |}
                    eq_refl eq_refl) "A"%string).
  - vm_compute. reflexivity.
Defined.

(** ** Dragging the selection (MOVING) *)

Lemma moveElement_absorb (ip : gmap string Point) (dx dy dx' dy' : Q) (el : CanvasElement) :
  moveElement ip dx dy (moveElement ip dx' dy' el) = moveElement ip dx dy el.
Proof.
  unfold moveElement. destruct (ip !! el_id el) as [o|] eqn:E; cbn; by rewrite E.
Qed.

Lemma onPointerMove_moving (st : EditorState) (e : PointerEvent) :
  mode (interaction st) = MOVING →
  onPointerMove st e =
  setElements
    (map (moveElement (initialPositions (interaction st))
            ((clientX e - startX (interaction st)) / scale st)
            ((clientY e - startY (interaction st)) / scale st))) st.
Proof.
  intros H. unfold onPointerMove.
  rewrite handleContainerPointerMove_other by (rewrite H; done).
  unfold handleGlobalMove. by rewrite H.
Qed.

Lemma snapshot_fold_other (sel : gset string) (els : list CanvasElement)
    (m : gmap string Point) (id : string) :
  id ∉ sel ∨ id ∉ map el_id els →
  foldl (λ (m : gmap string Point) el,
           if bool_decide (el_id el ∈ sel)
           then <[ el_id el := {| px := el_x el; py := el_y el |} ]> m
           else m) m els !! id = m !! id.
Proof.
  revert m. induction els as [|a r IH]; intros m H; [done|]. cbn [foldl].
  rewrite IH.
  - case_bool_decide as Ha; [|done]. apply lookup_insert_ne.
    intros <-. destruct H as [H|H]; [done|]. apply H. cbn. left.
  - destruct H as [H|H]; [by left|right]. intros Hr. apply H. cbn. by right.
Qed.

Lemma snapshot_lookup (sel : gset string) (els : list CanvasElement) (el : CanvasElement) :
  NoDup (map el_id els) → el ∈ els → el_id el ∈ sel →
  snapshot sel els !! el_id el = Some {| px := el_x el; py := el_y el |}.
Proof.
  unfold snapshot. generalize (∅ : gmap string Point).
  induction els as [|a r IH]; intros m Hnd Hin Hsel.
  - by apply elem_of_nil in Hin.
  - cbn in Hnd. apply NoDup_cons in Hnd as [Ha Hnd]. cbn [foldl].
    apply elem_of_cons in Hin as [-> | Hin].
    + rewrite snapshot_fold_other by (by right).
      rewrite bool_decide_eq_true_2 by done. apply lookup_insert_eq.
    + by apply IH.
Qed.

Lemma moveElement_snapshot (sel : gset string) (els : list CanvasElement)
    (dx dy : Q) (el : CanvasElement) :
  NoDup (map el_id els) → el ∈ els →
  moveElement (snapshot sel els) dx dy el = translate sel dx dy el.
Proof.
  intros Hnd Hin. unfold moveElement, translate. case_bool_decide as Hs.
  - by rewrite snapshot_lookup.
  - unfold snapshot. rewrite snapshot_fold_other by (by left). done.
Qed.

Lemma moving_move (i : Interaction) (k : Q) (els0 : list CanvasElement)
    (st : EditorState) (e : PointerEvent) :
  mode i = MOVING → moving i k els0 st →
  moving i k els0 (onPointerMove st e) ∧
  elements (onPointerMove st e) =
    map (moveElement (initialPositions i) ((clientX e - startX i) / k)
           ((clientY e - startY i) / k)) els0.
Proof.
  intros Hm (Hi & Hk & Hels).
  rewrite onPointerMove_moving by (by rewrite Hi).
  rewrite Hi, Hk. cbn [setElements elements]. rewrite Hels. split; [|done].
  split; [done|]. split; [done|]. intros dx dy. cbn [setElements elements].
  rewrite map_map, <- (Hels dx dy).
  apply map_ext. intros el. apply moveElement_absorb.
Qed.

Lemma moving_moves (i : Interaction) (k : Q) (els0 : list CanvasElement)
    (moves : list PointerEvent) (st : EditorState) :
  mode i = MOVING → moving i k els0 st → moving i k els0 (foldl onPointerMove st moves).
Proof.
  intros Hm. revert st. induction moves as [|e moves IH]; intros st H; [done|].
  cbn. apply IH. by apply moving_move.
Qed.

Lemma pickColor_frame (s : EditorState) (id : string) :
  elements (pickColor s id) = elements s ∧ scale (pickColor s id) = scale s ∧
  selectedIds (pickColor s id) = selectedIds s ∧
  interaction (pickColor s id) = interaction s.
Proof.
  unfold pickColor. destruct (List.find _ _) as [el|]; [|done].
  destruct (el_style el) as [st|]; [|done].
  destruct (strokeColor st) as [c|]; [|done].
  by destruct (String.eqb c "").
Qed.

Lemma elementPointerDown_moving (s : EditorState) (e : PointerEvent) (id : string) :
  tool s = Tool.SELECT →
  closestDragHandle (target e) || negb (isInput (target e)) = true →
  let i := {| startX := clientX e; startY := clientY e; currentId := Some id;
              mode := MOVING;
              initialPositions := snapshot (dragged s e id) (elements s);
              resizeHandle := ""; initialBounds := noBounds |} in
  moving i (scale s) (elements s) (handleElementPointerDown s e id).
Proof.
  intros Ht Hd i. unfold handleElementPointerDown. rewrite Ht, Hd. cbn [Tool.eqb].
  destruct (pickColor_frame s id) as (He & Hk & Hsel & Hi).
  subst i. unfold moving, dragged.
  destruct (shiftKey e); [|destruct (bool_decide (id ∈ selectedIds s))]; cbn;
    rewrite ?He, ?Hk; done.
Qed.

Lemma moving_no_accumulation (s : EditorState) (e1 e2 : PointerEvent) :
  mode (interaction s) = MOVING →
  onPointerMove (onPointerMove s e1) e2 = onPointerMove s e2.
Proof.
  intros Hm. rewrite (onPointerMove_moving s e1) by done.
  rewrite onPointerMove_moving by done. rewrite onPointerMove_moving by done.
  unfold setElements. cbn [elements interaction scale tool activeColor selectedIds
    slashMenu selectionBox elementRefs timers].
  f_equal. rewrite map_map. apply map_ext. intros el. apply moveElement_absorb.
Qed.

(** C6.  During MOVING each pointer move sets every element whose id is in
    the snapshot taken at drag start to snapshot origin + (pointer - anchor),
    the delta being the same for all of them and computed from the anchor,
    not accumulated: a second move gives what it alone would give.  From
    the pointer-down on an element, through any sequence of moves, the
    dragged elements are the originals translated by the delta of the last
    pointer position, the others are untouched.  Dragging A (10,10)
    together with the selected B (100,40) by (30,-5) gives A = (40,5) and
    B = (130,35). *)
Theorem moving_applies_anchor_delta :
  (∀ (st : EditorState) (e : PointerEvent) (el' : CanvasElement) (o : Point),
     mode (interaction st) = MOVING →
     el' ∈ elements (onPointerMove st e) →
     initialPositions (interaction st) !! el_id el' = Some o →
     el_x el' = px o + (clientX e - startX (interaction st)) / scale st ∧
     el_y el' = py o + (clientY e - startY (interaction st)) / scale st)
  ∧ (∀ (st : EditorState) (e1 e2 : PointerEvent),
       mode (interaction st) = MOVING →
       onPointerMove (onPointerMove st e1) e2 = onPointerMove st e2)
  ∧ (∀ (s : EditorState) (down : PointerEvent) (id : string)
       (moves : list PointerEvent) (e : PointerEvent),
       tool s = Tool.SELECT → NoDup (map el_id (elements s)) →
       closestDragHandle (target down) || negb (isInput (target down)) = true →
       let dx := (clientX e - clientX down) / scale s in
       let dy := (clientY e - clientY down) / scale s in
       let s' := foldl onPointerMove (handleElementPointerDown s down id) (moves ++ [e]) in
       elements s' = map (translate (dragged s down id) dx dy) (elements s) ∧
       (¬ scale s == 0 → rectLeft e = rectLeft down → rectTop e = rectTop down →
        dx == px (getMousePos s e) - px (getMousePos s down) ∧
        dy == py (getMousePos s e) - py (getMousePos s down)))
  ∧ (let s := setSelectedIds (λ _, {[ "A"%string; "B"%string ]})
                (initialState [rectA; rectB]) in
     let s' := onPointerMove (handleElementPointerDown s (pointerOn 20 20 false) "A")
                 (pointerOn 50 15 false) in
     map (λ el, (el_id el, el_x el, el_y el)) (elements s')
     = [ ("A"%string, 40, 5); ("B"%string, 130, 35) ]).
Proof.
  split; [|split; [|split]].
  - intros st e el' o Hm Hin Ho. rewrite onPointerMove_moving in Hin by done.
    cbn [setElements elements] in Hin.
    apply list_elem_of_fmap in Hin as (el & -> & _).
    unfold moveElement in Ho |- *.
    destruct (initialPositions (interaction st) !! el_id el) as [o'|] eqn:E.
    + cbn in Ho. rewrite E in Ho. by injection Ho as ->.
    + rewrite E in Ho. discriminate.
  - apply moving_no_accumulation.
  - intros s down id moves e Ht Hnd Hd dx dy s'. split.
    + pose proof (elementPointerDown_moving s down id Ht Hd) as H0. cbn zeta in H0.
      apply (moving_moves _ _ _ moves) in H0; [|done].
      apply (moving_move _ _ _ _ e) in H0 as [_ H0]; [|done].
      subst s'. rewrite foldl_app. cbn [foldl]. rewrite H0.
      cbn [initialPositions startX startY].
      apply map_ext_in. intros el Hel. apply moveElement_snapshot; [done|].
      by apply list_elem_of_In.
    + intros Hk Hl Hr. subst dx dy. unfold getMousePos. cbn [px py].
      rewrite Hl, Hr. split; field; done.
  - vm_compute. reflexivity.
Qed.

Lemma moving_applies_anchor_delta_witness :
  let s := setSelectedIds (λ _, {[ "A"%string; "B"%string ]})
             (initialState [rectA; rectB]) in
  let st := handleElementPointerDown s (pointerOn 20 20 false) "A" in
  el_x (withPosition rectB (100 + (50 - 20) / 1) (40 + (15 - 20) / 1))
    = 100 + (50 - 20) / 1 ∧
  el_y (withPosition rectB (100 + (50 - 20) / 1) (40 + (15 - 20) / 1))
    = 40 + (15 - 20) / 1.
Proof.
  intros s st.
  refine (proj1 moving_applies_anchor_delta st (pointerOn 50 15 false)
            (withPosition rectB (100 + (50 - 20) / 1) (40 + (15 - 20) / 1))
            {| px := 100; py := 40 |} eq_refl _ _).
  - vm_compute. right. left.
  - vm_compute. reflexivity.
Defined.

(** ** Deleting an element *)

Lemma filter_id (f : CanvasElement → bool) (l : list CanvasElement) :
  (∀ el, el ∈ l → f el = true) → List.filter f l = l.
Proof.
  induction l as [|a r IH]; intros H; [done|]. cbn.
  rewrite (H a) by left. f_equal. apply IH. intros el Hel. apply H. by right.
Qed.

Lemma filter_sublist (f : CanvasElement → bool) (l : list CanvasElement) :
  List.filter f l `sublist_of` l.
Proof.
  induction l as [|a r IH]; [done|]. cbn.
  destruct (f a); [by apply sublist_skip|by apply sublist_cons].
Qed.

Lemma not_idEq (a b : string) : negb (idEq a b) = true ↔ a ≠ b.
Proof.
  rewrite negb_true_iff. unfold idEq. by rewrite String.eqb_neq.
Qed.

Lemma deleteElement_elements (s : EditorState) (id : string) (el : CanvasElement) :
  el ∈ elements (deleteElement id s) ↔ el ∈ elements s ∧ el_id el ≠ id.
Proof.
  unfold deleteElement. cbn [setSelectedIds setElements elements].
  by rewrite elem_of_filter_bool, not_idEq.
Qed.




(** ** Click-to-place creation (TEXT, CODE, EXPANDABLE) *)

Lemma onPointerMove_idle (st : EditorState) (e : PointerEvent) :
  mode (interaction st) = IDLE → onPointerMove st e = st.
Proof.
  intros H. unfold onPointerMove.
  rewrite handleContainerPointerMove_other by (rewrite H; done).
  apply handleGlobalMove_other; rewrite H; done.
Qed.

Lemma onPointerMoves_idle (moves : list PointerEvent) (st : EditorState) :
  mode (interaction st) = IDLE → foldl onPointerMove st moves = st.
Proof.
  intros H. induction moves as [|e moves IH]; [done|].
  cbn. by rewrite onPointerMove_idle.
Qed.

Lemma runTimeouts_last (l : list string) (nid : string) (st : EditorState) :
  timers st = l ++ [nid] →
  selectedIds (runTimeouts (length (l ++ [nid])) st) = {[ nid ]}.
Proof.
  revert st. induction l as [|a l IH]; intros st H; cbn.
  - unfold runTimeout. by rewrite H.
  - apply IH. unfold runTimeout. by rewrite H.
Qed.

(** The new id is not in the selection when the handler returns, and when
    the timer has run the selection holds the new id alone: the element
    selected before is dropped. *)
Lemma click_to_place_counterexample :
  ¬ click_to_place_adds_to_selection (λ s, s) ∧
  ¬ click_to_place_adds_to_selection flushTimers.
Proof.
  set (s := setTool Tool.TEXT
              (setSelectedIds (λ _, {[ "A"%string ]}) (initialState [rectA]))).
  split; intros H;
    specialize (H s (pointerAt 200 200) "n"%string eq_refl eq_refl eq_refl eq_refl).
  - assert (Hn : "n"%string ∈ selectedIds (handleContainerPointerDown s (pointerAt 200 200) "n"))
      by (rewrite H; set_solver).
    vm_compute in Hn. discriminate.
  - assert (Hn : "A"%string ∈
                 selectedIds (flushTimers (handleContainerPointerDown s (pointerAt 200 200) "n")))
      by (rewrite H; set_solver).
    vm_compute in Hn. discriminate.
Qed.

(** C8 (amended).  A primary-button pointer-down on the canvas with the
    tool TEXT, CODE or EXPANDABLE (for TEXT: not inside an editable
    surface) appends at once exactly one element, with the default size
    and content of the tool, at the pointer's canvas position, and leaves
    the interaction mode IDLE, so that pointer moves change nothing.  The
    selection is not changed by the pointer-down itself: a timer is armed,
    and when it has run the selection is the new id alone. *)
Theorem click_to_place_creation (s : EditorState) (e : PointerEvent) (nid : string) :
  Tool.oneOf [Tool.TEXT; Tool.CODE; Tool.EXPANDABLE] (tool s) = true →
  button e = 0%Z →
  (tool s = Tool.TEXT → isContentEditable (target e) = false) →
  let p := getMousePos s e in
  let s' := handleContainerPointerDown s e nid in
  ∃ el,
    elements s' = elements s ++ [el] ∧
    el_id el = nid ∧ el_x el = px p ∧ el_y el = py p ∧
    match tool s with
    | Tool.TEXT =>
        el_type el = ElementType.TEXT ∧ el_width el = Some 400 ∧
        el_height el = None ∧ el_content el = Some ""%string
    | Tool.CODE =>
        el_type el = ElementType.CODE ∧ el_width el = Some 300 ∧
        el_height el = Some 150 ∧ el_content el = Some "// Code block"%string
    | _ =>
        el_type el = ElementType.EXPANDABLE ∧ el_width el = Some 300 ∧
        el_height el = None ∧ el_content el = Some "Toggle Section"%string ∧
        el_isExpanded el = Some true
    end ∧
    mode (interaction s') = IDLE ∧
    selectedIds s' = selectedIds s ∧
    timers s' = timers s ++ [nid] ∧
    selectedIds (flushTimers s') = {[ nid ]} ∧
    ∀ moves, foldl onPointerMove s' moves = s'.
Proof.
  intros Ht Hb Hed p s'.
  assert (Hs' : ∃ el,
    s' = setTimeout nid (setElements (append el)
           (setInteraction (session (px p) (py p) (Some nid) IDLE) s)) ∧
    el_id el = nid ∧ el_x el = px p ∧ el_y el = py p ∧
    match tool s with
    | Tool.TEXT =>
        el_type el = ElementType.TEXT ∧ el_width el = Some 400 ∧
        el_height el = None ∧ el_content el = Some ""%string
    | Tool.CODE =>
        el_type el = ElementType.CODE ∧ el_width el = Some 300 ∧
        el_height el = Some 150 ∧ el_content el = Some "// Code block"%string
    | _ =>
        el_type el = ElementType.EXPANDABLE ∧ el_width el = Some 300 ∧
        el_height el = None ∧ el_content el = Some "Toggle Section"%string ∧
        el_isExpanded el = Some true
    end).
  { subst s' p. unfold handleContainerPointerDown, isNonPrimary. rewrite Hb.
    destruct (tool s) eqn:E; try discriminate; cbn.
    - rewrite Hed by done. eexists. split; [reflexivity|]. cbn. done.
    - eexists. split; [reflexivity|]. cbn. done.
    - eexists. split; [reflexivity|]. cbn. done. }
  destruct Hs' as (el & Hs' & Hid & Hx & Hy & Hdef).
  exists el. rewrite Hs'. split; [done|]. do 4 (split; [done|]).
  split; [done|]. split; [done|]. split; [done|]. split.
  - unfold flushTimers. cbn [setTimeout timers].
    apply runTimeouts_last. done.
  - intros moves. by apply onPointerMoves_idle.
Qed.

Lemma click_to_place_creation_witness :
  let s := setTool Tool.CODE
             (setSelectedIds (λ _, {[ "A"%string ]}) (initialState [rectA])) in
  let s' := handleContainerPointerDown s (pointerAt 200 100) "n" in
  ∃ el,
    elements s' = [rectA] ++ [el] ∧
    el_id el = "n"%string ∧ el_x el = (200 - 0) / 1 ∧ el_y el = (100 - 0) / 1 ∧
    (el_type el = ElementType.CODE ∧ el_width el = Some 300 ∧
     el_height el = Some 150 ∧ el_content el = Some "// Code block"%string) ∧
    mode (interaction s') = IDLE ∧
    selectedIds s' = {[ "A"%string ]} ∧
    timers s' = [] ++ ["n"%string] ∧
    selectedIds (flushTimers s') = {[ "n"%string ]} ∧
    ∀ moves, foldl onPointerMove s' moves = s'.
Proof.
  intros s s'.
  refine (click_to_place_creation s (pointerAt 200 100) "n" eq_refl eq_refl _).
  discriminate.
Defined.

(** ** Screen to canvas conversion *)


Lemma dragBox_spec (sx sy x y : Q) :
  bx (dragBox sx sy x y) == Qmin x sx ∧
  bx (dragBox sx sy x y) + bwidth (dragBox sx sy x y) == Qmax x sx ∧
  by_ (dragBox sx sy x y) == Qmin y sy ∧
  by_ (dragBox sx sy x y) + bheight (dragBox sx sy x y) == Qmax y sy.
Proof.
  assert (Hax : ∀ p a,
    (if JS.ltb (p - a) 0 then p else a) == Qmin p a ∧
    (if JS.ltb (p - a) 0 then p else a) + Qabs (p - a) == Qmax p a).
  { intros p a. destruct (JS.ltb (p - a) 0) eqn:E.
    - apply ltb_lt in E. rewrite Qabs_neg by lra.
      rewrite Q.min_l, Q.max_r by lra. split; lra.
    - apply ltb_ge in E. rewrite Qabs_pos by lra.
      rewrite Q.min_r, Q.max_l by lra. split; lra. }
  unfold dragBox. cbn [bx by_ bwidth bheight].
  destruct (Hax x sx), (Hax y sy). done.
Qed.





(** ** The eraser *)

Lemma fold_min_le (r : list Q) (a c : Q) :
  foldr Qmin a r <= c ↔ ∃ z, z ∈ r ++ [a] ∧ z <= c.
Proof.
  induction r as [|b r IH]; cbn.
  - split.
    + intros H. exists a. split; [left|done].
    + intros (z & Hz & H). apply list_elem_of_singleton in Hz. by subst.
  - rewrite Q.min_le_iff, IH. split.
    + intros [H | (z & Hz & H)].
      * exists b. split; [left|done].
      * exists z. split; [by right|done].
    + intros (z & Hz & H). apply elem_of_cons in Hz as [-> | Hz]; [by left|].
      right. by exists z.
Qed.

Lemma fold_max_ge (r : list Q) (a c : Q) :
  c <= foldr Qmax a r ↔ ∃ z, z ∈ r ++ [a] ∧ c <= z.
Proof.
  induction r as [|b r IH]; cbn.
  - split.
    + intros H. exists a. split; [left|done].
    + intros (z & Hz & H). apply list_elem_of_singleton in Hz. by subst.
  - rewrite Q.max_le_iff, IH. split.
    + intros [H | (z & Hz & H)].
      * exists b. split; [left|done].
      * exists z. split; [by right|done].
    + intros (z & Hz & H). apply elem_of_cons in Hz as [-> | Hz]; [by left|].
      right. by exists z.
Qed.

Lemma elem_of_snoc_cons (r : list Q) (a z : Q) : z ∈ r ++ [a] ↔ z ∈ a :: r.
Proof. rewrite elem_of_app, !elem_of_cons, elem_of_nil. tauto. Qed.

Lemma min_list_le (l : list Q) (m c : Q) :
  JS.min_list l = Some m → (m <= c ↔ ∃ z, z ∈ l ∧ z <= c).
Proof.
  destruct l as [|a r]; [done|]. intros [= <-]. rewrite fold_min_le.
  split; intros (z & Hz & H); exists z; (split; [|done]);
    by apply elem_of_snoc_cons.
Qed.

Lemma max_list_ge (l : list Q) (m c : Q) :
  JS.max_list l = Some m → (c <= m ↔ ∃ z, z ∈ l ∧ c <= z).
Proof.
  destruct l as [|a r]; [done|]. intros [= <-]. rewrite fold_max_ge.
  split; intros (z & Hz & H); exists z; (split; [|done]);
    by apply elem_of_snoc_cons.
Qed.

Lemma min_coord_le (f : Point → Q) (pts : list Point) (m d c : Q) :
  JS.min_list (map f pts) = Some m →
  (m + d <= c ↔ ∃ p, p ∈ pts ∧ f p + d <= c).
Proof.
  intros Hm. transitivity (m <= c - d); [split; lra|].
  rewrite (min_list_le _ _ _ Hm). split.
  - intros (z & Hz & H). apply list_elem_of_fmap in Hz as (p & -> & Hp).
    exists p. split; [done|lra].
  - intros (p & Hp & H). exists (f p). split; [|lra].
    apply list_elem_of_fmap. by exists p.
Qed.

Lemma max_coord_ge (f : Point → Q) (pts : list Point) (m d c : Q) :
  JS.max_list (map f pts) = Some m →
  (c <= m + d ↔ ∃ p, p ∈ pts ∧ c <= f p + d).
Proof.
  intros Hm. transitivity (c - d <= m); [split; lra|].
  rewrite (max_list_ge _ _ _ Hm). split.
  - intros (z & Hz & H). apply list_elem_of_fmap in Hz as (p & -> & Hp).
    exists p. split; [done|lra].
  - intros (p & Hp & H). exists (f p). split; [|lra].
    apply list_elem_of_fmap. by exists p.
Qed.

Lemma truthy_Some (w : Q) : JS.truthy (Some w) = true ↔ ¬ w == 0.
Proof.
  cbn. rewrite negb_true_iff. split.
  - intros H E. apply Qeq_bool_iff in E. congruence.
  - intros H. destruct (Qeq_bool w 0) eqn:E; [|done]. by apply Qeq_bool_iff in E.
Qed.

Lemma sized_explicit (el : CanvasElement) :
  JS.truthy (el_width el) && JS.truthy (el_height el) = true ↔ explicitSize el.
Proof.
  unfold explicitSize. rewrite andb_true_iff. split.
  - intros [Hw Hh]. destruct (el_width el) as [w|]; [|done].
    destruct (el_height el) as [h|]; [|done].
    exists w, h. by rewrite <- !truthy_Some.
  - intros (w & h & -> & -> & Hw & Hh). by rewrite !truthy_Some.
Qed.

Lemma inBox_spec (x y x0 y0 w h : Q) :
  inBox x y x0 y0 w h = true ↔ x0 <= x ∧ x <= x0 + w ∧ y0 <= y ∧ y <= y0 + h.
Proof.
  unfold inBox. js_compare. tauto.
Qed.

Lemma pathHit_spec (x y : Q) (el : CanvasElement) (pts : list Point) :
  pathHit x y el pts = true ↔
  (∃ p, p ∈ pts ∧ px p + el_x el <= x) ∧ (∃ p, p ∈ pts ∧ x <= px p + el_x el) ∧
  (∃ p, p ∈ pts ∧ py p + el_y el <= y) ∧ (∃ p, p ∈ pts ∧ y <= py p + el_y el).
Proof.
  unfold pathHit. destruct pts as [|q pts].
  - cbn. split; [done|]. intros [(p & Hp & _) _]. by apply elem_of_nil in Hp.
  - destruct (JS.min_list (map px (q :: pts))) as [minX|] eqn:E1; [|done].
    destruct (JS.max_list (map px (q :: pts))) as [maxX|] eqn:E2; [|done].
    destruct (JS.min_list (map py (q :: pts))) as [minY|] eqn:E3; [|done].
    destruct (JS.max_list (map py (q :: pts))) as [maxY|] eqn:E4; [|done].
    js_compare.
    rewrite (min_coord_le px _ _ _ _ E1), (max_coord_ge px _ _ _ _ E2).
    rewrite (min_coord_le py _ _ _ _ E3), (max_coord_ge py _ _ _ _ E4).
    tauto.
Qed.

Lemma type_eqb_eq (a b : ElementType.t) : ElementType.eqb a b = true ↔ a = b.
Proof. destruct a, b; cbn; split; (done || discriminate). Qed.

(** The predicate of the eraser's search is membership in the hit region. *)
Lemma eraserHit_spec (x y : Q) (el : CanvasElement) :
  eraserHit x y el = true ↔ inHitRegion x y el.
Proof.
  unfold eraserHit, inHitRegion.
  destruct (JS.truthy (el_width el) && JS.truthy (el_height el)) eqn:E.
  - apply sized_explicit in E as Hex.
    destruct Hex as (w & h & Hw & Hh & Hw0 & Hh0).
    rewrite inBox_spec. split.
    + intros H. left. exists w, h. rewrite Hw, Hh in H. cbn in H. tauto.
    + intros [(w' & h' & Hw' & Hh' & _ & _ & H) | [[Hn _] | [Hn _]]].
      * rewrite Hw', Hh'. cbn. tauto.
      * exfalso. apply Hn. by exists w, h.
      * exfalso. apply Hn. by exists w, h.
  - assert (Hn : ¬ explicitSize el).
    { intros H. apply sized_explicit in H. congruence. }
    assert (Hfirst : ¬ ∃ w h, el_width el = Some w ∧ el_height el = Some h ∧
                       ¬ w == 0 ∧ ¬ h == 0 ∧
                       el_x el <= x ∧ x <= el_x el + w ∧ el_y el <= y ∧ y <= el_y el + h).
    { intros (w & h & Hw & Hh & Hw0 & Hh0 & _). apply Hn. by exists w, h. }
    destruct (ElementType.eqb (el_type el) ElementType.PATH) eqn:Ep.
    + apply type_eqb_eq in Ep. destruct (el_points el) as [pts|] eqn:Epts.
      * rewrite pathHit_spec. split.
        -- intros H. right. left. split; [done|]. split; [done|]. by exists pts.
        -- intros [H | [(_ & _ & pts' & [= <-] & H) | (_ & Ht & _)]];
             [done|done|congruence].
      * rewrite Ep. cbn. split; [done|].
        intros [H | [(_ & _ & pts' & ? & _) | (_ & Ht & _)]]; [done|done|congruence].
    + assert (Hp : el_type el ≠ ElementType.PATH).
      { intros H. apply type_eqb_eq in H. congruence. }
      destruct (ElementType.eqb (el_type el) ElementType.TEXT) eqn:Et.
      * apply type_eqb_eq in Et. rewrite inBox_spec. split.
        -- intros H. right. right. done.
        -- intros [H | [(_ & Ht & _) | (_ & _ & H)]]; [done|done|done].
      * split; [done|].
        intros [H | [(_ & Ht & _) | (_ & Ht & _)]]; [done|done|].
        apply type_eqb_eq in Ht. congruence.
Qed.

Lemma find_first (f : CanvasElement → bool) (l : list CanvasElement) (a : CanvasElement) :
  List.find f l = Some a ↔
  ∃ before after, l = before ++ a :: after ∧ f a = true ∧
                  ∀ b, b ∈ before → f b = false.
Proof.
  split.
  - induction l as [|c r IH]; [done|]. cbn. destruct (f c) eqn:E.
    + intros [= ->]. exists [], r. split; [done|]. split; [done|].
      intros b Hb. by apply elem_of_nil in Hb.
    + intros H. destruct (IH H) as (before & after & -> & Ha & Hb).
      exists (c :: before), after. split; [done|]. split; [done|].
      intros b Hin. apply elem_of_cons in Hin as [-> | Hin]; [done|by apply Hb].
  - intros (before & after & -> & Ha & Hb).
    induction before as [|c r IH]; cbn.
    + by rewrite Ha.
    + rewrite (Hb c) by left. apply IH. intros b Hin. apply Hb. by right.
Qed.

Lemma find_nothing (f : CanvasElement → bool) (l : list CanvasElement) :
  (∀ a, a ∈ l → f a = false) → List.find f l = None.
Proof.
  induction l as [|c r IH]; intros H; [done|]. cbn.
  rewrite (H c) by left. apply IH. intros a Ha. apply H. by right.
Qed.

Lemma filter_unique (before after : list CanvasElement) (hit : CanvasElement) :
  NoDup (map el_id (before ++ hit :: after)) →
  List.filter (λ el, negb (idEq (el_id el) (el_id hit))) (before ++ hit :: after)
  = before ++ after.
Proof.
  intros Hnd. rewrite List.filter_app. cbn. rewrite idEq_refl. cbn.
  rewrite map_app in Hnd. cbn in Hnd.
  apply NoDup_app in Hnd as (_ & Hdisj & Hnd).
  apply NoDup_cons in Hnd as [Hhit _].
  rewrite !filter_id; [done| |].
  - intros el Hel. apply not_idEq. intros E. apply Hhit. rewrite <- E.
    apply list_elem_of_fmap. by exists el.
  - intros el Hel. apply not_idEq. intros E.
    apply (Hdisj (el_id el)).
    + apply list_elem_of_fmap. by exists el.
    + rewrite E. left.
Qed.

Lemma onPointerMove_erasing (s : EditorState) (e : PointerEvent) :
  mode (interaction s) = ERASING →
  onPointerMove s e =
  match List.find (eraserHit (px (getMousePos s e)) (py (getMousePos s e))) (elements s) with
  | Some hit => deleteElement (el_id hit) s
  | None => s
  end.
Proof.
  intros Hm. unfold onPointerMove.
  assert (Hc : handleContainerPointerMove s e =
    match List.find (eraserHit (px (getMousePos s e)) (py (getMousePos s e))) (elements s) with
    | Some hit => deleteElement (el_id hit) s
    | None => s
    end).
  { unfold handleContainerPointerMove. by rewrite Hm. }
  rewrite Hc. apply handleGlobalMove_other;
    destruct (List.find _ _); cbn; rewrite Hm; done.
Qed.

Lemma no_region_flat (x y : Q) (el : CanvasElement) :
  el_type el ≠ ElementType.PATH → el_type el ≠ ElementType.TEXT →
  ¬ explicitSize el → ¬ inHitRegion x y el.
Proof.
  intros Hp Ht Hn [(w & h & Hw & Hh & Hw0 & Hh0 & _) | [(_ & H & _) | (_ & H & _)]];
    [|done|done].
  apply Hn. by exists w, h.
Qed.

(** C10.  In ERASING mode one pointer move deletes at most one element:
    the first in insertion order whose hit region contains the pointer
    (nothing when there is none), where the hit region is the explicit box
    when width and height are both non-zero, the bounding box of the
    points offset by the origin for a path, a box of 300 by 50 for a text
    element without explicit size, and nothing otherwise; so a rectangle
    whose width or height is zero survives every eraser move. *)
Theorem eraser_move_deletes_first_hit (s : EditorState) (e : PointerEvent) :
  mode (interaction s) = ERASING → NoDup (map el_id (elements s)) →
  let p := getMousePos s e in
  let s' := onPointerMove s e in
  ((∀ el, el ∈ elements s → ¬ inHitRegion (px p) (py p) el) → s' = s) ∧
  (∀ before hit after,
     elements s = before ++ hit :: after →
     inHitRegion (px p) (py p) hit →
     (∀ el, el ∈ before → ¬ inHitRegion (px p) (py p) el) →
     elements s' = before ++ after ∧
     selectedIds s' = selectedIds s ∖ {[ el_id hit ]}) ∧
  (length (elements s) ≤ S (length (elements s')))%nat ∧
  (∀ el, el ∈ elements s → ¬ inHitRegion (px p) (py p) el → el ∈ elements s') ∧
  (∀ el, el ∈ elements s → el_type el = ElementType.RECTANGLE →
         (∃ w, el_width el = Some w ∧ w == 0) ∨ (∃ h, el_height el = Some h ∧ h == 0) →
         el ∈ elements s').
Proof.
  intros Hm Hnd p s'.
  assert (Hs' : s' = match List.find (eraserHit (px p) (py p)) (elements s) with
                     | Some hit => deleteElement (el_id hit) s
                     | None => s
                     end) by (by apply onPointerMove_erasing).
  assert (Hkeep : ∀ el, el ∈ elements s → ¬ inHitRegion (px p) (py p) el →
                        el ∈ elements s').
  { intros el Hel Hno. rewrite Hs'.
    destruct (List.find _ _) as [hit|] eqn:E; [|done].
    apply deleteElement_elements. split; [done|].
    apply find_first in E as (before & after & Hl & Hhit & _).
    apply eraserHit_spec in Hhit. intros Eid.
    assert (el = hit); [|by subst].
    rewrite Hl in Hel, Hnd. clear -Hel Hnd Eid.
    rewrite map_app in Hnd. cbn in Hnd.
    apply NoDup_app in Hnd as (_ & Hdisj & Hnd).
    apply NoDup_cons in Hnd as [Hhit _].
    apply elem_of_app in Hel as [Hel | Hel].
    - exfalso. apply (Hdisj (el_id el)).
      + apply list_elem_of_fmap. by exists el.
      + rewrite Eid. left.
    - apply elem_of_cons in Hel as [-> | Hel]; [done|].
      exfalso. apply Hhit. rewrite <- Eid. apply list_elem_of_fmap. by exists el. }
  split; [|split; [|split; [|split]]].
  - intros Hno. rewrite Hs', find_nothing; [done|].
    intros a Ha. destruct (eraserHit (px p) (py p) a) eqn:E; [|done].
    apply eraserHit_spec in E. by apply Hno in E.
  - intros before hit after Hl Hhit Hbefore.
    assert (E : List.find (eraserHit (px p) (py p)) (elements s) = Some hit).
    { apply find_first. exists before, after. split; [done|].
      split; [by apply eraserHit_spec|].
      intros b Hb. destruct (eraserHit (px p) (py p) b) eqn:E; [|done].
      apply eraserHit_spec in E. by apply Hbefore in E. }
    rewrite Hs', E. unfold deleteElement.
    cbn [setSelectedIds setElements elements selectedIds].
    split; [|done]. rewrite Hl. apply filter_unique. by rewrite <- Hl.
  - rewrite Hs'. destruct (List.find _ _) as [hit|] eqn:E; [|lia].
    apply find_first in E as (before & after & Hl & _ & _).
    unfold deleteElement. cbn [setSelectedIds setElements elements].
    rewrite Hl, filter_unique by (by rewrite <- Hl).
    rewrite !length_app. cbn. lia.
  - done.
  - intros el Hel Hty Hz. apply Hkeep; [done|].
    apply no_region_flat; [by rewrite Hty|by rewrite Hty|].
    intros (w & h & Hw & Hh & Hw0 & Hh0).
    destruct Hz as [(w' & Hw' & E) | (h' & Hh' & E)]; congruence.
Qed.

Lemma eraser_move_deletes_first_hit_witness :
  elements (onPointerMove erasing (pointerAt 20 20)) = [flatRect; rectB] ∧
  selectedIds (onPointerMove erasing (pointerAt 20 20))
  = selectedIds erasing ∖ {[ "A"%string ]}.
Proof.
  assert (Hnd : NoDup (map el_id (elements erasing))).
  { apply (bool_decide_unpack _). vm_compute. exact I. }
  refine (proj1 (proj2 (eraser_move_deletes_first_hit erasing (pointerAt 20 20)
                          eq_refl Hnd))
            [flatRect] rectA [rectB] eq_refl _ _).
  - left. exists 40, 30. repeat split; try reflexivity; vm_compute; discriminate.
  - intros el Hel. apply list_elem_of_singleton in Hel as ->.
    apply no_region_flat; [done|done|].
    intros (w & h & [= <-] & _ & Hw0 & _). by apply Hw0.
Defined.

(** ** The earlier copy *)

(** At scale 1 the two copies convert a pointer position to the same
    canvas point. *)
Lemma earlier_getMousePos (s : EditorState) (e : PointerEvent) :
  scale s == 1 →
  px (getMousePos s e) == px (Earlier.getMousePos e) ∧
  py (getMousePos s e) == py (Earlier.getMousePos e).
Proof.
  intros Hk. cbn. rewrite Hk. split; field.
Qed.

(** In the earlier copy a click with the TEXT tool opens a CREATING
    session, and the pointer move that follows sizes the new text block
    like a shape. *)
Lemma earlier_click_to_place_is_dragged :
  let s := setTool Tool.TEXT (initialState []) in
  let s1 := Earlier.handleContainerPointerDown s (pointerAt 50 50) "t" in
  let s2 := Earlier.handleContainerPointerMove s1 (pointerAt 150 120) in
  mode (interaction s1) = CREATING ∧
  map (λ el, (el_x el, el_y el, el_width el, el_height el)) (elements s1)
  = [ (50, 50, None, None) ] ∧
  map (λ el, (el_x el, el_y el, el_width el, el_height el)) (elements s2)
  = [ (50, 50, Some 100, Some 70) ].
Proof. vm_compute. done. Qed.

(** In the earlier copy the minimum height of a resize is 20 for every
    element, text blocks included. *)
Lemma earlier_resize_minimum (s : EditorState) (e : PointerEvent)
    (cur : string) (el' : CanvasElement) :
  mode (interaction s) = RESIZING →
  currentId (interaction s) = Some cur → cur ≠ ""%string →
  el' ∈ elements (Earlier.handleGlobalMove s e) → el_id el' = cur →
  ∃ w ht, el_width el' = Some w ∧ el_height el' = Some ht ∧
    (JS.includes (resizeHandle (interaction s)) "e" = true ∨
     JS.includes (resizeHandle (interaction s)) "w" = true → 20 <= w) ∧
    (JS.includes (resizeHandle (interaction s)) "s" = true ∨
     JS.includes (resizeHandle (interaction s)) "n" = true → 20 <= ht).
Proof.
  intros Hm Hc Hne Hin Hid. unfold Earlier.handleGlobalMove in Hin.
  rewrite Hm, Hc in Hin.
  destruct (idEq cur "") eqn:E; [apply idEq_eq in E; done|].
  cbn [setElements elements] in Hin.
  apply list_elem_of_fmap in Hin as (el & -> & Hel).
  destruct (idEq (el_id el) cur) eqn:E'.
  - eexists _, _. split; [reflexivity|]. split; [reflexivity|].
    split; intros [H|H].
    + apply resizeBounds_min_width; tauto.
    + apply resizeBounds_min_width; tauto.
    + apply resizeBounds_min_height; tauto.
    + apply resizeBounds_min_height; tauto.
  - rewrite Hid, idEq_refl in E'. done.
Qed.

(** * Further properties of the component *)

(** ** The Delete and Backspace keys *)

Lemma elem_of_filter_unselected (sel : gset string) (l : list CanvasElement)
    (el : CanvasElement) :
  el ∈ List.filter (λ el, negb (bool_decide (el_id el ∈ sel))) l ↔
  el ∈ l ∧ el_id el ∉ sel.
Proof.
  rewrite elem_of_filter_bool, negb_true_iff, bool_decide_eq_false. done.
Qed.

Lemma size_positive (sel : gset string) :
  bool_decide (0 < size sel)%nat = true ↔ sel ≠ ∅.
Proof.
  rewrite bool_decide_eq_true. split.
  - intros H ->. rewrite size_empty in H. lia.
  - intros H. destruct (size sel) eqn:E; [|lia].
    apply size_empty_iff, leibniz_equiv in E. done.
Qed.

(** X1.  Delete or Backspace, pressed while no editable surface has the
    focus and something is selected, removes exactly the selected elements
    (the others stay, in order) and empties the selection, leaving tool and
    interaction session alone; pressed while editing, or with an empty
    selection, it changes nothing; any key other than Escape, Backspace and
    Delete changes nothing. *)
Theorem delete_key_removes_selection (s : EditorState) (e : KeyboardEvent) :
  (key e = "Delete"%string ∨ key e = "Backspace"%string →
   activeIsEditing e = false → selectedIds s ≠ ∅ →
   let s' := handleKeyDown s e in
   (∀ el, el ∈ elements s' ↔ el ∈ elements s ∧ el_id el ∉ selectedIds s) ∧
   elements s' `sublist_of` elements s ∧
   selectedIds s' = ∅ ∧ tool s' = tool s ∧ interaction s' = interaction s) ∧
  (key e = "Delete"%string ∨ key e = "Backspace"%string →
   activeIsEditing e = true ∨ selectedIds s = ∅ →
   handleKeyDown s e = s) ∧
  (key e ≠ "Escape"%string → key e ≠ "Delete"%string →
   key e ≠ "Backspace"%string → handleKeyDown s e = s).
Proof.
  split; [|split].
  - intros Hk He Hsel s'. subst s'. unfold handleKeyDown.
    apply size_positive in Hsel.
    destruct Hk as [-> | ->]; cbn [String.eqb Ascii.eqb Bool.eqb orb];
      rewrite He, Hsel; cbn [negb andb setSelectedIds setElements elements
        selectedIds tool interaction];
      (split; [intros el; apply elem_of_filter_unselected|]);
      (split; [apply filter_sublist|done]).
  - intros Hk Hno. unfold handleKeyDown.
    assert (Hc : negb (activeIsEditing e) && bool_decide (0 < size (selectedIds s))%nat
                 = false).
    { destruct Hno as [-> | ->]; [done|]. rewrite size_empty.
      by destruct (activeIsEditing e). }
    destruct Hk as [-> | ->]; cbn [String.eqb Ascii.eqb Bool.eqb orb];
      by rewrite Hc.
  - intros H1 H2 H3. unfold handleKeyDown.
    apply String.eqb_neq in H1, H2, H3. by rewrite H1, H2, H3.
Qed.

Lemma delete_key_removes_selection_witness :
  let s := setSelectedIds (λ _, {[ "A"%string ]}) (initialState [rectA; rectB]) in
  let s' := handleKeyDown s {| key := "Delete"; activeIsEditing := false |} in
  elements s' = [rectB] ∧ selectedIds s' = ∅ ∧ elements s' `sublist_of` elements s.
Proof.
  intros s s'.
  assert (Hne : selectedIds s ≠ ∅).
  { intros H. assert (Ha : "A"%string ∈ selectedIds s) by (cbn; set_solver).
    rewrite H in Ha. by apply not_elem_of_empty in Ha. }
  destruct (proj1 (delete_key_removes_selection s
                     {| key := "Delete"; activeIsEditing := false |})
              (or_introl eq_refl) eq_refl Hne) as (_ & Hsub & Hsel & _).
  split; [vm_compute; reflexivity|]. split; [exact Hsel|exact Hsub].
Defined.

(** ** Pointer-down on an element *)

Lemma pickColor_tool (s : EditorState) (id : string) :
  tool (pickColor s id) = tool s ∧ timers (pickColor s id) = timers s ∧
  selectionBox (pickColor s id) = selectionBox s.
Proof.
  unfold pickColor. destruct (List.find _ _) as [el|]; [|done].
  destruct (el_style el) as [st|]; [|done].
  destruct (strokeColor st) as [c|]; [|done].
  by destruct (String.eqb c "").
Qed.

Lemma elementPointerDown_select (s : EditorState) (e : PointerEvent) (id : string) :
  tool s = Tool.SELECT →
  let s' := handleElementPointerDown s e id in
  elements s' = elements s ∧ tool s' = tool s ∧ scale s' = scale s ∧
  selectedIds s' =
    (if shiftKey e
     then if bool_decide (id ∈ selectedIds s)
          then selectedIds s ∖ {[ id ]} else {[ id ]} ∪ selectedIds s
     else if bool_decide (id ∈ selectedIds s) then selectedIds s else {[ id ]}).
Proof.
  intros Ht s'. subst s'. unfold handleElementPointerDown. rewrite Ht.
  cbn [Tool.eqb].
  destruct (pickColor_frame s id) as (He & Hk & Hsel & Hi).
  destruct (pickColor_tool s id) as (Hto & _).
  destruct (closestDragHandle (target e) || negb (isInput (target e)));
    destruct (shiftKey e); cbn; rewrite ?Hsel;
    destruct (bool_decide (id ∈ selectedIds s)); cbn;
    rewrite ?He, ?Hto, ?Hk, ?Hsel; done.
Qed.

(** X2.  A pointer-down on an element with the SELECT tool never changes
    the elements or the tool.  With shift it toggles the element's
    membership in the selection, so that two shift-clicks restore the
    selection; without shift it keeps the whole selection when the element
    is already selected and replaces it by the element alone otherwise. *)
Theorem click_selection_rules (s : EditorState) (e : PointerEvent) (id : string) :
  tool s = Tool.SELECT →
  let s' := handleElementPointerDown s e id in
  elements s' = elements s ∧ tool s' = tool s ∧
  (shiftKey e = true →
   (id ∈ selectedIds s → selectedIds s' = selectedIds s ∖ {[ id ]}) ∧
   (id ∉ selectedIds s → selectedIds s' = {[ id ]} ∪ selectedIds s) ∧
   selectedIds (handleElementPointerDown s' e id) = selectedIds s) ∧
  (shiftKey e = false →
   (id ∈ selectedIds s → selectedIds s' = selectedIds s) ∧
   (id ∉ selectedIds s → selectedIds s' = {[ id ]})).
Proof.
  intros Ht s'.
  destruct (elementPointerDown_select s e id Ht) as (He & Hto & _ & Hsel).
  fold s' in He, Hto, Hsel.
  split; [done|]. split; [done|]. split.
  - intros Hs. rewrite Hs in Hsel. split; [|split].
    + intros Hin. by rewrite Hsel, bool_decide_eq_true_2.
    + intros Hin. by rewrite Hsel, bool_decide_eq_false_2.
    + assert (Ht' : tool s' = Tool.SELECT) by congruence.
      destruct (elementPointerDown_select s' e id Ht') as (_ & _ & _ & Hsel').
      rewrite Hsel', Hs, Hsel. apply set_eq. intros i.
      destruct (decide (id ∈ selectedIds s)) as [Hin|Hin].
      * rewrite (bool_decide_eq_true_2 _ Hin).
        rewrite bool_decide_eq_false_2
          by (rewrite elem_of_difference, elem_of_singleton; tauto).
        rewrite elem_of_union, elem_of_difference, elem_of_singleton.
        split; [intros [-> | [? _]]; done|].
        intros Hi. destruct (decide (i = id)); [by left|right; done].
      * rewrite (bool_decide_eq_false_2 _ Hin).
        rewrite bool_decide_eq_true_2
          by (rewrite elem_of_union, elem_of_singleton; tauto).
        rewrite elem_of_difference, elem_of_union, elem_of_singleton.
        split; [intros [[-> | ?] Hne]; done|].
        intros Hi. split; [by right|]. by intros ->.
  - intros Hs. rewrite Hs in Hsel. split.
    + intros Hin. by rewrite Hsel, bool_decide_eq_true_2.
    + intros Hin. by rewrite Hsel, bool_decide_eq_false_2.
Qed.

Lemma click_selection_rules_witness :
  let s := setSelectedIds (λ _, {[ "A"%string ]}) (initialState [rectA; rectB]) in
  let s' := handleElementPointerDown s (pointerOn 110 50 true) "B" in
  selectedIds s' = {[ "B"%string ]} ∪ selectedIds s ∧
  selectedIds (handleElementPointerDown s' (pointerOn 110 50 true) "B") = selectedIds s.
Proof.
  intros s s'.
  destruct (click_selection_rules s (pointerOn 110 50 true) "B" eq_refl)
    as (_ & _ & Hshift & _).
  destruct (Hshift eq_refl) as (_ & Hadd & Htwice).
  split; [|exact Htwice]. apply Hadd. vm_compute. discriminate.
Defined.

Lemma snapshot_unselected (sel : gset string) (els : list CanvasElement) (id : string) :
  id ∉ sel → snapshot sel els !! id = None.
Proof.
  intros H. unfold snapshot. rewrite snapshot_fold_other by (by left).
  apply lookup_empty.
Qed.

(** X3.  With the SELECT tool a press inside an input or editable surface
    (and not on a drag handle) selects but opens no session; any other
    press on an element opens a MOVING session anchored at the screen
    position of the pointer.  A shift-press on an element that was not
    selected adds it to the selection, but the drag it starts moves only
    the elements selected before: the pressed element stays where it is
    through every pointer move.  With a tool other than SELECT and ERASER
    a press on an element changes nothing. *)
Theorem click_drag_gating (s : EditorState) (e : PointerEvent) (id : string) :
  let s' := handleElementPointerDown s e id in
  (tool s = Tool.SELECT → closestDragHandle (target e) = false →
   isInput (target e) = true → interaction s' = interaction s) ∧
  (tool s = Tool.SELECT →
   closestDragHandle (target e) = true ∨ isInput (target e) = false →
   mode (interaction s') = MOVING ∧ startX (interaction s') = clientX e ∧
   startY (interaction s') = clientY e ∧ currentId (interaction s') = Some id) ∧
  (tool s = Tool.SELECT →
   closestDragHandle (target e) = true ∨ isInput (target e) = false →
   shiftKey e = true → id ∉ selectedIds s →
   id ∈ selectedIds s' ∧
   ∀ moves el, el ∈ elements s → el_id el = id →
               el ∈ elements (foldl onPointerMove s' moves)) ∧
  (tool s ≠ Tool.SELECT → tool s ≠ Tool.ERASER → s' = s).
Proof.
  intros s'. split; [|split; [|split]].
  - intros Ht Hd Hi. subst s'. unfold handleElementPointerDown.
    rewrite Ht, Hd, Hi. cbn.
    destruct (pickColor_frame s id) as (_ & _ & _ & Hint).
    destruct (shiftKey e); [done|].
    by destruct (bool_decide (id ∈ selectedIds s)).
  - intros Ht Hd. subst s'. unfold handleElementPointerDown. rewrite Ht.
    assert (Hg : closestDragHandle (target e) || negb (isInput (target e)) = true).
    { destruct Hd as [-> | ->]; [done|]. by rewrite orb_true_r. }
    rewrite Hg. done.
  - intros Ht Hd Hs Hid.
    assert (Hg : closestDragHandle (target e) || negb (isInput (target e)) = true).
    { destruct Hd as [-> | ->]; [done|]. by rewrite orb_true_r. }
    split.
    + destruct (elementPointerDown_select s e id Ht) as (_ & _ & _ & Hsel).
      fold s' in Hsel. rewrite Hsel, Hs, bool_decide_eq_false_2 by done.
      apply elem_of_union_l. by apply elem_of_singleton.
    + intros moves el Hel Heid.
      pose proof (elementPointerDown_moving s e id Ht Hg) as H0. cbn zeta in H0.
      fold s' in H0.
      assert (Hip : snapshot (dragged s e id) (elements s) !! el_id el = None).
      { apply snapshot_unselected. unfold dragged. by rewrite Hs, Heid. }
      destruct moves as [|e' moves _] using rev_ind.
      * cbn. destruct H0 as (_ & _ & H0). specialize (H0 0 0).
        assert (Hin : el ∈ map (moveElement (snapshot (dragged s e id) (elements s)) 0 0)
                             (elements s)).
        { apply list_elem_of_fmap. exists el. split; [|done].
          unfold moveElement. by rewrite Hip. }
        cbn [initialPositions] in H0. rewrite <- H0 in Hin.
        apply list_elem_of_fmap in Hin as (el0 & Heq & Hin0).
        assert (Hip0 : snapshot (dragged s e id) (elements s) !! el_id el0 = None).
        { unfold moveElement in Heq.
          destruct (snapshot (dragged s e id) (elements s) !! el_id el0) eqn:E; [|done].
          rewrite Heq in Hip. cbn in Hip. congruence. }
        unfold moveElement in Heq. rewrite Hip0 in Heq. by subst.
      * rewrite foldl_app. cbn [foldl].
        apply (moving_moves _ _ _ moves) in H0; [|done].
        apply (moving_move _ _ _ _ e') in H0 as [_ H0]; [|done].
        rewrite H0. apply list_elem_of_fmap. exists el. split; [|done].
        cbn [initialPositions]. unfold moveElement. by rewrite Hip.
  - intros H1 H2. subst s'. unfold handleElementPointerDown.
    by destruct (tool s).
Qed.

Lemma click_drag_gating_witness :
  let s := setSelectedIds (λ _, {[ "A"%string ]}) (initialState [rectA; rectB]) in
  let s' := handleElementPointerDown s (pointerOn 110 50 true) "B" in
  "B"%string ∈ selectedIds s' ∧
  rectB ∈ elements (foldl onPointerMove s' [pointerOn 150 90 true]) ∧
  map el_x (elements (foldl onPointerMove s' [pointerOn 150 90 true])) = [50; 100].
Proof.
  intros s s'.
  destruct (proj1 (proj2 (proj2 (click_drag_gating s (pointerOn 110 50 true) "B")))
              eq_refl (or_intror eq_refl) eq_refl) as [Hsel Hstay].
  { vm_compute. discriminate. }
  split; [exact Hsel|]. split.
  - apply (Hstay [pointerOn 150 90 true] rectB); [|reflexivity].
    vm_compute. right. left.
  - vm_compute. reflexivity.
Defined.

(** ** More on resizing *)

Lemma resizeBounds_east_edge (h : string) (b : Bounds) (dx dy mh : Q) :
  JS.includes h "w" = true →
  bx (resizeBounds h b dx dy mh) + bwidth (resizeBounds h b dx dy mh)
    == bx b + bwidth b ∧
  bx (resizeBounds h b dx dy mh) <= bx b + bwidth b - 20.
Proof.
  intros Hw. unfold resizeBounds. rewrite Hw.
  pose proof (Q.le_min_r dx (bwidth b - 20)).
  destruct (JS.includes h "n"); cbn; split; lra.
Qed.

Lemma resizeBounds_south_edge (h : string) (b : Bounds) (dx dy mh : Q) :
  JS.includes h "n" = true →
  by_ (resizeBounds h b dx dy mh) + bheight (resizeBounds h b dx dy mh)
    == by_ b + bheight b ∧
  by_ (resizeBounds h b dx dy mh) <= by_ b + bheight b - mh.
Proof.
  intros Hn. unfold resizeBounds. rewrite Hn.
  pose proof (Q.le_min_r dy (bheight b - mh)).
  destruct (JS.includes h "w"); cbn; split; lra.
Qed.

(** X4.  In a resize step a handle with 'w' keeps the east edge where the
    initial bounds have it (x + width is unchanged) and never moves x past
    that edge minus 20; a handle with 'n' keeps the south edge (y + height
    is unchanged) and never moves y past that edge minus the minimum
    height. *)
Theorem resize_opposite_edge_fixed (s : EditorState) (e : PointerEvent)
    (cur : string) (el' : CanvasElement) :
  mode (interaction s) = RESIZING →
  currentId (interaction s) = Some cur → cur ≠ ""%string →
  el' ∈ elements (handleGlobalMove s e) → el_id el' = cur →
  let h := resizeHandle (interaction s) in
  let b := initialBounds (interaction s) in
  ∃ w ht,
    el_width el' = Some w ∧ el_height el' = Some ht ∧
    (JS.includes h "w" = true →
     el_x el' + w == bx b + bwidth b ∧ el_x el' <= bx b + bwidth b - 20) ∧
    (JS.includes h "n" = true →
     el_y el' + ht == by_ b + bheight b ∧
     el_y el' <= by_ b + bheight b - minH (elementRefs s) el').
Proof.
  intros Hm Hc Hne Hin Hid h b.
  destruct (handleGlobalMove_resizing s e cur el' Hm Hc Hne Hin Hid)
    as (el & _ & _ & _ & Hmh & Hel).
  rewrite <- Hmh. subst el'. fold h b. eexists _, _.
  split; [reflexivity|]. split; [reflexivity|]. cbn [withBounds el_x el_y]. split.
  - apply resizeBounds_east_edge.
  - apply resizeBounds_south_edge.
Qed.

Lemma resize_opposite_edge_fixed_witness :
  let s := handleResizeStart
             (withRefs {[ "c"%string := mounted 300 150 None ]}
                (initialState [newCode "c" 10 10]))
             (pointerAt 10 10) "c" "nw" in
  ∃ el', elements (handleGlobalMove s (pointerAt 50 500)) = [el'] ∧
         el_x el' + 260 == 10 + 300 ∧ el_y el' + 20 == 10 + 150 ∧
         el_width el' = Some 260 ∧ el_height el' = Some 20.
Proof.
  intros s.
  set (el' := withBounds (newCode "c" 10 10)
                {| bx := 50; by_ := 140; bwidth := 260; bheight := 20 |}).
  exists el'.
  assert (Hin : el' ∈ elements (handleGlobalMove s (pointerAt 50 500)))
    by (vm_compute; left).
  destruct (resize_opposite_edge_fixed s (pointerAt 50 500) "c" el'
              eq_refl eq_refl ltac:(discriminate) Hin eq_refl)
    as (w & ht & Hw & Hh & He & Hs).
  injection Hw as <-. injection Hh as <-.
  split; [vm_compute; reflexivity|].
  split; [exact (proj1 (He eq_refl))|].
  split; [exact (proj1 (Hs eq_refl))|]. done.
Defined.

Lemma find_unique (l : list CanvasElement) (el : CanvasElement) :
  NoDup (map el_id l) → el ∈ l →
  List.find (λ x, idEq (el_id x) (el_id el)) l = Some el.
Proof.
  intros Hnd Hin. apply list_elem_of_split in Hin as (before & after & ->).
  apply find_first. exists before, after. split; [done|].
  split; [apply idEq_refl|]. intros b Hb.
  destruct (idEq (el_id b) (el_id el)) eqn:E; [|done].
  apply idEq_eq in E. rewrite map_app in Hnd. cbn in Hnd.
  apply NoDup_app in Hnd as (_ & Hdisj & _). exfalso.
  apply (Hdisj (el_id b)).
  - apply list_elem_of_fmap. by exists b.
  - rewrite E. left.
Qed.

Lemma find_absent (l : list CanvasElement) (id : string) :
  (∀ el, el ∈ l → el_id el ≠ id) →
  List.find (λ x, idEq (el_id x) id) l = None.
Proof.
  intros H. apply find_nothing. intros a Ha.
  destruct (idEq (el_id a) id) eqn:E; [|done]. apply idEq_eq in E.
  by apply H in Ha.
Qed.

(** X5.  Starting a resize on an id that no element carries changes
    nothing; otherwise it only replaces the interaction session.  When the
    resized element has an explicit width of at least 20 and an explicit
    height of at least its minimum height, a pointer move that comes back
    to the position of the press gives the element the position and size
    it had, whatever the handle. *)
Theorem resize_start_and_return (s : EditorState) (e : PointerEvent)
    (id handle : string) :
  let s1 := handleResizeStart s e id handle in
  ((∀ el, el ∈ elements s → el_id el ≠ id) → s1 = s) ∧
  elements s1 = elements s ∧ selectedIds s1 = selectedIds s ∧ tool s1 = tool s ∧
  (∀ el w ht e',
     NoDup (map el_id (elements s)) → el ∈ elements s → el_id el = id →
     id ≠ ""%string → ¬ scale s == 0 →
     el_width el = Some w → el_height el = Some ht →
     20 <= w → minH (elementRefs s) el <= ht → 0 < minH (elementRefs s) el →
     clientX e' = clientX e → clientY e' = clientY e →
     ∃ el', el' ∈ elements (handleGlobalMove s1 e') ∧ el_id el' = id ∧
            el_x el' == el_x el ∧ el_y el' == el_y el ∧
            ∃ w' ht', el_width el' = Some w' ∧ el_height el' = Some ht' ∧
                      w' == w ∧ ht' == ht).
Proof.
  intros s1. split; [|split; [|split; [|split]]].
  - intros H. subst s1. unfold handleResizeStart. by rewrite find_absent.
  - subst s1. unfold handleResizeStart. destruct (List.find _ _); [|done].
    by destruct (elementRefs s !! id).
  - subst s1. unfold handleResizeStart. destruct (List.find _ _); [|done].
    by destruct (elementRefs s !! id).
  - subst s1. unfold handleResizeStart. destruct (List.find _ _); [|done].
    by destruct (elementRefs s !! id).
  - intros el w ht e' Hnd Hel Hid Hne Hk Hw Hh Hw20 Hhm Hm0 Hx Hy.
    assert (Hw0 : ¬ w == 0) by lra. assert (Hh0 : ¬ ht == 0) by lra.
    assert (Hs1 : s1 = setInteraction
      {| mode := RESIZING; startX := clientX e; startY := clientY e;
         currentId := Some id; resizeHandle := handle;
         initialBounds := {| bx := el_x el; by_ := el_y el; bwidth := w; bheight := ht |};
         initialPositions := ∅ |} s).
    { subst s1. unfold handleResizeStart. rewrite <- Hid, find_unique by done.
      rewrite Hw, Hh. cbn [JS.or_else].
      apply truthy_Some in Hw0, Hh0. cbn in Hw0, Hh0.
      apply negb_true_iff in Hw0, Hh0. rewrite Hw0, Hh0.
      by destruct (elementRefs s !! el_id el). }
    set (b := {| bx := el_x el; by_ := el_y el; bwidth := w; bheight := ht |}) in *.
    set (dx := (clientX e' - clientX e) / scale s).
    set (dy := (clientY e' - clientY e) / scale s).
    exists (withBounds el (resizeBounds handle b dx dy (minH (elementRefs s) el))).
    assert (Hdx : dx == 0) by (subst dx; rewrite Hx; field; done).
    assert (Hdy : dy == 0) by (subst dy; rewrite Hy; field; done).
    split.
    { rewrite Hs1. unfold handleGlobalMove. cbn [setInteraction interaction mode currentId].
      destruct (idEq id "") eqn:E; [by apply idEq_eq in E|].
      cbn [setElements elements scale startX startY resizeHandle initialBounds elementRefs].
      apply list_elem_of_fmap. exists el. split; [|done].
      unfold resizeElement. by rewrite Hid, idEq_refl. }
    split; [done|]. cbn [withBounds el_x el_y el_width el_height].
    unfold resizeBounds. cbn [bx by_ bwidth bheight b].
    set (mh := minH (elementRefs s) el) in *.
    destruct (Q.max_spec 20 (w + dx)) as [[? E1]|[? E1]];
    destruct (Q.min_spec dx (w - 20)) as [[? E2]|[? E2]];
    destruct (Q.max_spec mh (ht + dy)) as [[? E3]|[? E3]];
    destruct (Q.min_spec dy (ht - mh)) as [[? E4]|[? E4]];
    destruct (JS.includes handle "e"), (JS.includes handle "w"),
      (JS.includes handle "s"), (JS.includes handle "n"); cbn;
      (split; [lra|]); (split; [lra|]); eexists _, _;
      (split; [reflexivity|]); (split; [reflexivity|]); split; lra.
Qed.

Lemma resize_start_and_return_witness :
  let s := withRefs {[ "c"%string := mounted 300 150 None ]}
             (initialState [newCode "c" 10 10]) in
  let s1 := handleResizeStart s (pointerAt 310 160) "c" "se" in
  ∃ el', el' ∈ elements (handleGlobalMove s1 (pointerAt 310 160)) ∧
         el_id el' = "c"%string ∧ el_x el' == 10 ∧ el_y el' == 10 ∧
         ∃ w' ht', el_width el' = Some w' ∧ el_height el' = Some ht' ∧
                   w' == 300 ∧ ht' == 150.
Proof.
  intros s s1.
  refine (proj2 (proj2 (proj2 (proj2
            (resize_start_and_return s (pointerAt 310 160) "c" "se"))))
            (newCode "c" 10 10) 300 150 (pointerAt 310 160)
            _ _ eq_refl _ _ eq_refl eq_refl _ _ _ eq_refl eq_refl).
  - apply (bool_decide_unpack _). vm_compute. exact I.
  - vm_compute. left.
  - discriminate.
  - vm_compute. discriminate.
  - vm_compute. discriminate.
  - vm_compute. discriminate.
  - vm_compute. reflexivity.
Defined.

(** ** Pointer up *)

Lemma setMode_idle (s : EditorState) :
  mode (interaction s) = IDLE → setMode IDLE s = s.
Proof.
  intros H. destruct s as [els t c k sel sm sb i refs tm].
  destruct i as [sx sy cur m ip rh ib]. cbn in H. subst. done.
Qed.

(** X6.  A pointer-up, over the canvas or outside it, always leaves the
    session in IDLE and never changes the elements or the tool; afterwards
    pointer moves change nothing and a second pointer-up changes nothing.
    Outside a box selection it leaves selection and selection box alone; a
    pointer-up outside the canvas never changes the selection, so a box
    selection released there selects nothing. *)
Theorem pointer_up_ends_session (s : EditorState) :
  let s' := onPointerUp s in
  mode (interaction s') = IDLE ∧ elements s' = elements s ∧ tool s' = tool s ∧
  (mode (interaction s) ≠ BOX_SELECT →
   selectedIds s' = selectedIds s ∧ selectionBox s' = selectionBox s) ∧
  (mode (interaction s) = BOX_SELECT → selectionBox s' = None) ∧
  (∀ moves, foldl onPointerMove s' moves = s') ∧
  onPointerUp s' = s' ∧
  mode (interaction (handleGlobalUp s)) = IDLE ∧
  selectedIds (handleGlobalUp s) = selectedIds s ∧
  elements (handleGlobalUp s) = elements s ∧
  (mode (interaction s) = BOX_SELECT → selectionBox (handleGlobalUp s) = None).
Proof.
  intros s'.
  assert (Hidle : mode (interaction s') = IDLE).
  { subst s'. unfold onPointerUp, handleGlobalUp.
    by destruct (mode (interaction (handleContainerPointerUp s))). }
  assert (Hup : ∀ st, mode (interaction st) = IDLE → onPointerUp st = st).
  { intros st H. unfold onPointerUp, handleContainerPointerUp, handleGlobalUp.
    rewrite H. rewrite !setMode_idle; rewrite ?H; try done. }
  split; [done|]. split; [|split; [|split; [|split; [|split; [|split]]]]].
  - subst s'. unfold onPointerUp, handleGlobalUp, handleContainerPointerUp.
    destruct (mode (interaction s)), (selectionBox s); done.
  - subst s'. unfold onPointerUp, handleGlobalUp, handleContainerPointerUp.
    destruct (mode (interaction s)), (selectionBox s); done.
  - intros Hm. subst s'. unfold onPointerUp, handleGlobalUp, handleContainerPointerUp.
    destruct (mode (interaction s)) eqn:Em, (selectionBox s) eqn:Eb; cbn;
      rewrite ?Eb; first [done | congruence].
  - intros Hm. subst s'. unfold onPointerUp, handleGlobalUp, handleContainerPointerUp.
    rewrite Hm. destruct (selectionBox s) eqn:Eb; cbn; by rewrite ?Eb.
  - intros moves. by apply onPointerMoves_idle.
  - by apply Hup.
  - unfold handleGlobalUp. destruct (mode (interaction s)); done.
Qed.

(** ** Free drawing (DRAW) *)

Section Drawing.
Variables (ax ay k : Q) (nid : string).

Lemma drawing_move (pts : list Point) (st : EditorState) (e : PointerEvent) :
  drawing ax ay k nid pts st →
  drawing ax ay k nid
    (pts ++ [ {| px := (clientX e - rectLeft e) / k; py := (clientY e - rectTop e) / k |} ])
    (onPointerMove st e) ∧
  length (elements (onPointerMove st e)) = length (elements st).
Proof.
  intros (Hi & Hk & front & el & Hels & Hid & Hty & Hpts & Hx & Hy).
  rewrite (onPointerMove_creating st e) by (by rewrite Hi).
  rewrite Hi. cbn [session currentId startX startY]. unfold setElements at 1 2.
  cbn [elements interaction scale]. rewrite Hels, map_app. cbn [map].
  unfold getMousePos; cbn [px py]. rewrite Hk.
  set (p := {| px := (clientX e - rectLeft e) / k; py := (clientY e - rectTop e) / k |}).
  assert (Hstep : createStep (Some nid) ax ay (px p) (py p) el = withPoints el (pts ++ [p])).
  { unfold createStep. rewrite Hid, bool_decide_eq_true_2 by done.
    cbn [negb]. rewrite Hty. cbn [ElementType.eqb]. by rewrite Hpts. }
  cbn [px py p] in Hstep. rewrite Hstep. split.
  - split; [done|]. split; [done|]. eexists _, _. split; [done|]. cbn. done.
  - by rewrite !length_app, length_map.
Qed.

Lemma drawing_moves (moves : list PointerEvent) (pts : list Point) (st : EditorState) :
  drawing ax ay k nid pts st →
  drawing ax ay k nid
    (pts ++ map (λ e, {| px := (clientX e - rectLeft e) / k;
                         py := (clientY e - rectTop e) / k |}) moves)
    (foldl onPointerMove st moves) ∧
  length (elements (foldl onPointerMove st moves)) = length (elements st).
Proof.
  revert pts st. induction moves as [|e moves IH]; intros pts st H; cbn.
  - by rewrite app_nil_r.
  - destruct (drawing_move pts st e H) as [H1 Hlen].
    destruct (IH _ _ H1) as [H2 Hlen2].
    rewrite <- app_assoc in H2. cbn in H2. split; [done|]. congruence.
Qed.

End Drawing.

(** X7.  A pointer-down with the DRAW tool appends one path at the origin
    with the active stroke color, and every pointer move appends the
    converted pointer position to its points: after the moves the points
    are the press position followed by the positions of the moves, in
    order; nothing else is added to the collection. *)
Theorem draw_appends_points (s : EditorState) (down : PointerEvent)
    (nid : string) (moves : list PointerEvent) :
  tool s = Tool.DRAW → button down = 0%Z →
  let s' := foldl onPointerMove (handleContainerPointerDown s down nid) moves in
  ∃ front el,
    elements s' = front ++ [el] ∧ length front = length (elements s) ∧
    el_id el = nid ∧ el_type el = ElementType.PATH ∧
    el_x el = 0 ∧ el_y el = 0 ∧
    el_points el = Some (getMousePos s down :: map (getMousePos s) moves) ∧
    mode (interaction s') = CREATING.
Proof.
  intros Ht Hb s'.
  assert (H0 : drawing (px (getMousePos s down)) (py (getMousePos s down)) (scale s) nid
                 [getMousePos s down] (handleContainerPointerDown s down nid)
               ∧ length (elements (handleContainerPointerDown s down nid))
                 = S (length (elements s))).
  { unfold handleContainerPointerDown, isNonPrimary. rewrite Hb, Ht. cbn.
    split; [|rewrite length_app; cbn; lia].
    split; [done|]. split; [done|]. eexists _, _. split; [done|]. done. }
  destruct H0 as [H0 Hlen0].
  destruct (drawing_moves _ _ _ _ moves _ _ H0)
    as [(Hi & _ & front & el & Hels & Hid & Hty & Hpts & Hx & Hy) Hlen].
  fold s' in Hi, Hels, Hlen. exists front, el.
  split; [done|]. split.
  { rewrite Hels, length_app in Hlen. cbn in Hlen. lia. }
  do 4 (split; [done|]). split; [|by rewrite Hi].
  rewrite Hpts. done.
Qed.

Lemma draw_appends_points_witness :
  let s := setTool Tool.DRAW (initialState [rectA]) in
  let s' := foldl onPointerMove (handleContainerPointerDown s (pointerAt 5 5) "p")
              [pointerAt 6 8; pointerAt 9 9] in
  ∃ front el,
    elements s' = front ++ [el] ∧ length front = 1%nat ∧
    el_id el = "p"%string ∧ el_type el = ElementType.PATH ∧
    el_x el = 0 ∧ el_y el = 0 ∧
    el_points el = Some (getMousePos s (pointerAt 5 5)
                           :: map (getMousePos s) [pointerAt 6 8; pointerAt 9 9]) ∧
    mode (interaction s') = CREATING.
Proof.
  intros s s'.
  exact (draw_appends_points s (pointerAt 5 5) "p" [pointerAt 6 8; pointerAt 9 9]
           eq_refl eq_refl).
Defined.

(** ** Height of the canvas *)

Lemma max_list_upper (l : list Q) (m z : Q) :
  JS.max_list l = Some m → z ∈ l → z <= m.
Proof.
  intros Hm Hz. apply (max_list_ge _ _ _ Hm). exists z. split; [done|lra].
Qed.

Lemma max_list_attained (l : list Q) (m : Q) :
  JS.max_list l = Some m → ∃ z, z ∈ l ∧ m == z.
Proof.
  intros Hm. destruct (proj1 (max_list_ge _ _ m Hm)) as (z & Hz & Hle); [lra|].
  exists z. split; [done|]. pose proof (max_list_upper _ _ _ Hm Hz). lra.
Qed.

(** X8.  The height given to the canvas is 2000 for an empty page;
    otherwise it is at least the height of the window and at least 500
    more than the bottom edge (y plus height, an absent height counting as
    0) of every element, and it is exactly one of these bounds. *)
Theorem content_height_bounds (innerHeight : Q) (s : EditorState) :
  (elements s = [] → getContentHeight innerHeight s = 2000) ∧
  (elements s ≠ [] →
   innerHeight <= getContentHeight innerHeight s ∧
   (∀ el, el ∈ elements s →
          el_y el + JS.or_else (el_height el) 0 + 500 <= getContentHeight innerHeight s) ∧
   (getContentHeight innerHeight s == innerHeight ∨
    ∃ el, el ∈ elements s ∧
          getContentHeight innerHeight s == el_y el + JS.or_else (el_height el) 0 + 500)).
Proof.
  unfold getContentHeight. split.
  - by intros ->.
  - intros Hne. destruct (elements s) as [|a r] eqn:E; [done|].
    set (f := λ el, el_y el + JS.or_else (el_height el) 0).
    cbn [length Nat.eqb].
    destruct (JS.max_list (map f (a :: r))) as [m|] eqn:Em; [|done].
    pose proof (Q.le_max_l innerHeight (m + 500)).
    pose proof (Q.le_max_r innerHeight (m + 500)).
    split; [done|]. split.
    + intros el Hel.
      assert (f el <= m).
      { apply (max_list_upper _ _ _ Em). apply list_elem_of_fmap. by exists el. }
      unfold f in *. lra.
    + destruct (Q.max_spec innerHeight (m + 500)) as [[_ Hq]|[_ Hq]]; [|by left].
      right. destruct (max_list_attained _ _ Em) as (z & Hz & Hmz).
      apply list_elem_of_fmap in Hz as (el & -> & Hel).
      exists el. split; [done|]. rewrite Hq, Hmz. unfold f. lra.
Qed.

Lemma content_height_bounds_witness :
  let s := initialState [rectA; rectB] in
  768 <= getContentHeight 768 s ∧
  (∀ el, el ∈ elements s →
         el_y el + JS.or_else (el_height el) 0 + 500 <= getContentHeight 768 s) ∧
  getContentHeight 768 s == 768.
Proof.
  intros s.
  assert (Hne : elements s ≠ []) by discriminate.
  destruct (proj2 (content_height_bounds 768 s) Hne) as (H1 & H2 & _).
  split; [exact H1|]. split; [exact H2|]. vm_compute. reflexivity.
Defined.

(** ** Colors *)

Lemma withStrokeColor_spec (el : CanvasElement) (color : string) :
  sameButStyle el (withStrokeColor el color) ∧
  styleField strokeColor (withStrokeColor el color) = Some color ∧
  styleField backgroundColor (withStrokeColor el color) = styleField backgroundColor el ∧
  styleField strokeWidth (withStrokeColor el color) = styleField strokeWidth el ∧
  styleField fontSize (withStrokeColor el color) = styleField fontSize el.
Proof.
  unfold sameButStyle, styleField, withStrokeColor. cbn.
  by destruct (el_style el).
Qed.

Lemma withStrokeColor_twice (el : CanvasElement) (c1 c2 : string) :
  withStrokeColor (withStrokeColor el c1) c2 = withStrokeColor el c2.
Proof. unfold withStrokeColor. cbn. by destruct (el_style el). Qed.

Lemma recolor_cases (sel : gset string) (color : string) (hl : bool) (el : CanvasElement) :
  let el' := recolor sel color hl el in
  sameButStyle el el' ∧
  (el_id el ∉ sel → el' = el) ∧
  (el_id el ∈ sel → isShape (el_type el) → el' = withStrokeColor el color) ∧
  (el_id el ∈ sel → el_type el = ElementType.TEXT →
   el' = if hl then el else withStrokeColor el color) ∧
  (el_type el = ElementType.CODE ∨ el_type el = ElementType.IMAGE ∨
   el_type el = ElementType.EXPANDABLE → el' = el).
Proof.
  intros el'. subst el'. unfold recolor, isShape.
  destruct (withStrokeColor_spec el color) as [Hsame _].
  assert (Hrefl : sameButStyle el el) by (by unfold sameButStyle).
  case_bool_decide as Hin.
  - destruct (el_type el) eqn:Et; cbn; destruct hl;
      repeat split; try done; intros; try done;
      repeat match goal with H : _ ∨ _ |- _ => destruct H end; done.
  - repeat split; try done; intros; done.
Qed.

Lemma recolor_twice (sel : gset string) (color : string) (hl : bool) (el : CanvasElement) :
  recolor sel color hl (recolor sel color hl el) = recolor sel color hl el.
Proof.
  unfold recolor. destruct (bool_decide (el_id el ∈ sel)) eqn:Hin; [|by rewrite Hin].
  destruct (el_type el) eqn:Et; cbn; destruct hl; cbn;
    rewrite ?Hin, ?Et; cbn; by rewrite ?withStrokeColor_twice.
Qed.

(** X9.  Picking a color makes it the active color and never touches the
    selection or the session.  Of the elements only the style can change,
    and only for selected ones: a selected rectangle, circle or path gets
    the color as stroke color and keeps its other style fields; a selected
    text block gets it unless text is highlighted; code blocks, images and
    sections are left as they are.  With an empty selection no element
    changes, and picking the same color twice gives what picking it once
    gives. *)
Theorem recolor_selection (color : string) (hl : bool) (s : EditorState) :
  let s' := applyColorToSelection color hl s in
  activeColor s' = color ∧ selectedIds s' = selectedIds s ∧
  interaction s' = interaction s ∧ tool s' = tool s ∧
  Forall2 (λ el el',
     sameButStyle el el' ∧
     (el_id el ∉ selectedIds s → el' = el) ∧
     (el_id el ∈ selectedIds s → isShape (el_type el) →
      styleField strokeColor el' = Some color ∧
      styleField backgroundColor el' = styleField backgroundColor el ∧
      styleField strokeWidth el' = styleField strokeWidth el ∧
      styleField fontSize el' = styleField fontSize el) ∧
     (el_id el ∈ selectedIds s → el_type el = ElementType.TEXT →
      if hl then el' = el else styleField strokeColor el' = Some color) ∧
     (el_type el = ElementType.CODE ∨ el_type el = ElementType.IMAGE ∨
      el_type el = ElementType.EXPANDABLE → el' = el))
    (elements s) (elements s') ∧
  (selectedIds s = ∅ → elements s' = elements s) ∧
  applyColorToSelection color hl s' = s'.
Proof.
  intros s'.
  assert (Hs' : elements s' = map (recolor (selectedIds s) color hl) (elements s)
                ∧ activeColor s' = color ∧ selectedIds s' = selectedIds s
                ∧ interaction s' = interaction s ∧ tool s' = tool s).
  { subst s'. unfold applyColorToSelection.
    destruct (bool_decide (0 < size (selectedIds s))%nat) eqn:E; [done|].
    cbn. split; [|done].
    assert (Hempty : selectedIds s = ∅).
    { destruct (decide (selectedIds s = ∅)) as [|Hne]; [done|].
      apply size_positive in Hne. congruence. }
    rewrite Hempty. symmetry. erewrite map_ext; [apply map_id|].
    intros el. unfold recolor. by rewrite bool_decide_eq_false_2. }
  destruct Hs' as (Hels & Hc & Hsel & Hi & Ht).
  do 4 (split; [done|]). split; [|split].
  - rewrite Hels. apply Forall2_fmap_r, Forall_Forall2_diag, Forall_forall.
    intros el _.
    destruct (recolor_cases (selectedIds s) color hl el) as (H1 & H2 & H3 & H4 & H5).
    split; [done|]. split; [done|]. split; [|split; [|done]].
    + intros Hin Hsh. rewrite (H3 Hin Hsh).
      by destruct (withStrokeColor_spec el color) as (_ & ? & ? & ? & ?).
    + intros Hin Hty. rewrite (H4 Hin Hty). destruct hl; [done|].
      by destruct (withStrokeColor_spec el color) as (_ & ? & _).
  - intros Hempty. rewrite Hels, Hempty. erewrite map_ext; [apply map_id|].
    intros el. unfold recolor. by rewrite bool_decide_eq_false_2.
  - unfold applyColorToSelection at 1. rewrite Hsel.
    destruct s' as [els t c k sel sm sb i refs tm]. cbn in *. subst.
    destruct (bool_decide (0 < size (selectedIds s))%nat) eqn:E;
      unfold setElements, setActiveColor; cbn; [|done].
    f_equal. rewrite map_map. apply map_ext. intros el. apply recolor_twice.
Qed.

Lemma recolor_selection_witness :
  let s := setSelectedIds (λ _, {[ "R"%string ]}) (initialState [redRect; rectA]) in
  let s' := applyColorToSelection "#3b82f6" false s in
  activeColor s' = "#3b82f6"%string ∧
  map (styleField strokeColor) (elements s') = [Some "#3b82f6"%string; None] ∧
  map (styleField strokeWidth) (elements s') = [Some 2; None] ∧
  applyColorToSelection "#3b82f6" false s' = s'.
Proof.
  intros s s'.
  destruct (recolor_selection "#3b82f6" false s) as (Hc & _ & _ & _ & _ & _ & Hidem).
  split; [exact Hc|]. split; [vm_compute; reflexivity|].
  split; [vm_compute; reflexivity|exact Hidem].
Defined.

Lemma canvasDown_shape (s : EditorState) (e : PointerEvent) (nid : string) :
  tool s = Tool.RECT ∨ tool s = Tool.CIRCLE ∨ tool s = Tool.DRAW →
  button e = 0%Z →
  ∃ new, elements (handleContainerPointerDown s e nid) = elements s ++ [new] ∧
         el_id new = nid ∧ styleField strokeColor new = Some (activeColor s) ∧
         styleField strokeWidth new = Some 2.
Proof.
  intros Ht Hb. unfold handleContainerPointerDown, isNonPrimary. rewrite Hb.
  destruct Ht as [-> | [-> | ->]]; cbn; eexists; (split; [reflexivity|]); done.
Qed.

(** X10.  Pressing with the SELECT tool on an element that has a non-empty
    stroke color makes that color the active color, and the next shape or
    path drawn is stroked with it; pressing on an element without stroke
    color leaves the active color as it is. *)
Theorem picked_color_is_used (s : EditorState) (e down : PointerEvent)
    (el : CanvasElement) (t : Tool.t) (nid : string) :
  tool s = Tool.SELECT → NoDup (map el_id (elements s)) → el ∈ elements s →
  let s1 := handleElementPointerDown s e (el_id el) in
  (∀ c, styleField strokeColor el = Some c → c ≠ ""%string →
        activeColor s1 = c ∧
        (t = Tool.RECT ∨ t = Tool.CIRCLE ∨ t = Tool.DRAW → button down = 0%Z →
         ∃ new, elements (handleContainerPointerDown (setTool t s1) down nid)
                = elements s ++ [new] ∧
                el_id new = nid ∧ styleField strokeColor new = Some c)) ∧
  (styleField strokeColor el = None ∨ styleField strokeColor el = Some ""%string →
   activeColor s1 = activeColor s).
Proof.
  intros Ht Hnd Hel s1.
  assert (Hpick : ∀ st, activeColor (setInteraction st (pickColor s (el_id el)))
                        = activeColor (pickColor s (el_id el))) by done.
  assert (Hs1 : activeColor s1 = activeColor (pickColor s (el_id el))
                ∧ elements s1 = elements s).
  { destruct (elementPointerDown_select s e (el_id el) Ht) as (He & _).
    split; [|done]. subst s1. unfold handleElementPointerDown. rewrite Ht.
    cbn [Tool.eqb].
    destruct (closestDragHandle (target e) || negb (isInput (target e)));
      destruct (shiftKey e); cbn; try done;
      destruct (bool_decide (el_id el ∈ selectedIds s)); done. }
  destruct Hs1 as [Hac He1].
  assert (Hfind : pickColor s (el_id el) =
    match el_style el with
    | Some st => match strokeColor st with
                 | Some c => if String.eqb c "" then s else setActiveColor c s
                 | None => s
                 end
    | None => s
    end).
  { unfold pickColor. by rewrite find_unique. }
  split.
  - intros c Hc Hne. unfold styleField in Hc.
    assert (Hact : activeColor s1 = c).
    { rewrite Hac, Hfind. destruct (el_style el) as [st|]; [|done].
      rewrite Hc. apply String.eqb_neq in Hne. by rewrite Hne. }
    split; [done|]. intros Htool Hb.
    destruct (canvasDown_shape (setTool t s1) down nid Htool Hb)
      as (new & Hels & Hid & Hstroke & _).
    exists new. cbn [setTool elements activeColor] in Hels, Hstroke.
    rewrite He1 in Hels. rewrite Hact in Hstroke. done.
  - intros Hno. rewrite Hac, Hfind. unfold styleField in Hno.
    destruct (el_style el) as [st|]; [|done].
    destruct Hno as [-> | ->]; done.
Qed.

Lemma picked_color_is_used_witness :
  let s := initialState [redRect; rectA] in
  let s1 := handleElementPointerDown s (pointerOn 20 20 false) "R" in
  activeColor s1 = "#ef4444"%string ∧
  ∃ new, elements (handleContainerPointerDown (setTool Tool.CIRCLE s1) (pointerAt 200 200) "n")
         = elements s ++ [new] ∧
         el_id new = "n"%string ∧ styleField strokeColor new = Some "#ef4444"%string.
Proof.
  intros s s1.
  assert (Hnd : NoDup (map el_id (elements s)))
    by (apply (bool_decide_unpack _); vm_compute; exact I).
  assert (Hel : redRect ∈ elements s) by (vm_compute; left).
  destruct (proj1 (picked_color_is_used s (pointerOn 20 20 false) (pointerAt 200 200)
                     redRect Tool.CIRCLE "n" eq_refl Hnd Hel)
              "#ef4444"%string eq_refl ltac:(discriminate)) as [Hc Hnew].
  split; [exact Hc|]. exact (Hnew (or_intror (or_introl eq_refl)) eq_refl).
Defined.

(** ** Patching an element *)

Lemma Forall2_map_right (P : CanvasElement → CanvasElement → Prop)
    (f : CanvasElement → CanvasElement) (l : list CanvasElement) :
  (∀ el, P el (f el)) → Forall2 P l (map f l).
Proof. intros H. induction l; cbn; by constructor. Qed.

Lemma applyPatch_none (el : CanvasElement) : applyPatch el noPatch = el.
Proof. by destruct el. Qed.

Lemma applyPatch_merge (el : CanvasElement) (u1 u2 : Patch) :
  applyPatch (applyPatch el u1) u2 = applyPatch el (mergePatch u1 u2).
Proof.
  unfold applyPatch, mergePatch. cbn.
  destruct (p_id u2), (p_type u2), (p_x u2), (p_y u2), (p_width u2), (p_height u2),
    (p_content u2), (p_points u2), (p_style u2), (p_isExpanded u2); done.
Qed.

(** X11.  Patching by id keeps the number and the order of the elements and
    leaves every element of another id untouched; on an id that no element
    carries, and with an empty patch, it changes nothing.  When the patch
    does not set the id, the ids of the collection are unchanged, and two
    patches on the same id act as the single patch in which the fields of
    the second override those of the first. *)
Theorem update_element_by_id (id : string) (u : Patch) (s : EditorState) :
  let s' := updateElement id u s in
  Forall2 (λ el el', if idEq (el_id el) id then el' = applyPatch el u else el' = el)
    (elements s) (elements s') ∧
  selectedIds s' = selectedIds s ∧ interaction s' = interaction s ∧
  ((∀ el, el ∈ elements s → el_id el ≠ id) → s' = s) ∧
  updateElement id noPatch s = s ∧
  (p_id u = None →
   map el_id (elements s') = map el_id (elements s) ∧
   ∀ u2, updateElement id u2 s' = updateElement id (mergePatch u u2) s).
Proof.
  intros s'.
  assert (Hid : ∀ f, (∀ el, el ∈ elements s → f el = el) →
                     setElements (map f) s = s).
  { intros f Hf. destruct s as [els t c k sel sm sb i refs tm].
    unfold setElements. cbn in *. f_equal.
    erewrite map_ext_in; [apply map_id|]. intros el Hel. apply Hf.
    by apply list_elem_of_In. }
  split; [|split; [done|split; [done|split; [|split]]]].
  - subst s'. cbn. apply Forall2_map_right.
    intros el. by destruct (idEq (el_id el) id).
  - intros Habs. apply Hid. intros el Hel.
    destruct (idEq (el_id el) id) eqn:E; [|done]. apply idEq_eq in E.
    by apply Habs in Hel.
  - apply Hid. intros el _. rewrite applyPatch_none. by destruct (idEq (el_id el) id).
  - intros Hu. split.
    + subst s'. cbn. rewrite map_map. apply map_ext. intros el.
      destruct (idEq (el_id el) id); [|done]. cbn. by rewrite Hu.
    + intros u2. subst s'. unfold updateElement, setElements. cbn. f_equal.
      rewrite map_map. apply map_ext. intros el.
      destruct (idEq (el_id el) id) eqn:E; [|by rewrite ?E].
      cbn. rewrite Hu. cbn. fold (idEq (el_id el) id). rewrite E.
      apply applyPatch_merge.
Qed.

Lemma update_element_by_id_witness :
  let u := {| p_id := None; p_type := None; p_x := None; p_y := None;
              p_width := None; p_height := Some (Some 80); p_content := None;
              p_points := None; p_style := None; p_isExpanded := None |} in
  let s := initialState [rectA; rectB] in
  map el_id (elements (updateElement "A" u s)) = map el_id (elements s) ∧
  map el_height (elements (updateElement "A" u s)) = [Some 80; Some 30] ∧
  updateElement "A" noPatch (updateElement "A" u s)
  = updateElement "A" (mergePatch u noPatch) s.
Proof.
  intros u s.
  destruct (update_element_by_id "A" u s) as (_ & _ & _ & _ & _ & Hu).
  destruct (Hu eq_refl) as [Hids Hmerge].
  split; [exact Hids|]. split; [vm_compute; reflexivity|]. exact (Hmerge noPatch).
Defined.

(** ** The box-selection gesture *)

Lemma overlaps_dragBox (a p : Point) (el : CanvasElement) :
  overlaps (dragBox (px a) (py a) (px p) (py p)) el ↔ meets a p el.
Proof.
  unfold overlaps, meets.
  destruct (dragBox_spec (px a) (py a) (px p) (py p)) as (H1 & H2 & H3 & H4).
  split; intros (? & ? & ? & ?); repeat split; lra.
Qed.

Lemma onPointerMove_boxing (st : EditorState) (e : PointerEvent) :
  mode (interaction st) = BOX_SELECT →
  onPointerMove st e =
  setSelectionBox
    (Some (dragBox (startX (interaction st)) (startY (interaction st))
             (px (getMousePos st e)) (py (getMousePos st e)))) st.
Proof.
  intros H. unfold onPointerMove.
  assert (Hc : handleContainerPointerMove st e =
    setSelectionBox
      (Some (dragBox (startX (interaction st)) (startY (interaction st))
               (px (getMousePos st e)) (py (getMousePos st e)))) st).
  { unfold handleContainerPointerMove. by rewrite H. }
  rewrite Hc. apply handleGlobalMove_other; cbn; rewrite H; done.
Qed.

Lemma boxSelecting_moves (ax ay k : Q) (els : list CanvasElement) (sel : gset string)
    (moves : list PointerEvent) (st : EditorState) :
  boxSelecting ax ay k els sel st →
  boxSelecting ax ay k els sel (foldl onPointerMove st moves).
Proof.
  revert st. induction moves as [|e moves IH]; intros st H; [done|].
  cbn. apply IH. destruct H as (Hi & Hk & He & Hs).
  rewrite onPointerMove_boxing by (by rewrite Hi). done.
Qed.

Lemma pointerUp_boxing (st : EditorState) (sb : Bounds) :
  mode (interaction st) = BOX_SELECT → selectionBox st = Some sb →
  selectedIds (onPointerUp st) = addAll (List.filter (boxHit sb) (elements st)) (selectedIds st) ∧
  elements (onPointerUp st) = elements st ∧ selectionBox (onPointerUp st) = None ∧
  mode (interaction (onPointerUp st)) = IDLE.
Proof.
  intros Hm Hsb. unfold onPointerUp, handleContainerPointerUp. rewrite Hm, Hsb. done.
Qed.

(** X12.  A whole box selection - press on the background with the SELECT
    tool, any pointer moves, release - selects exactly the elements whose
    box (an absent or zero extent counting as 10) meets the open rectangle
    spanned by the press position and the last pointer position, whatever
    the direction of the drag, together with the previous selection when
    shift was held at the press; it changes no element and ends in IDLE
    with no selection box.  A press and release without a move selects the
    elements whose box strictly contains the point. *)
Theorem box_select_gesture (s : EditorState) (down : PointerEvent) (nid : string) :
  tool s = Tool.SELECT → isBackground (target down) = true →
  let a := getMousePos s down in
  let s0 := handleContainerPointerDown s down nid in
  (∀ moves e,
     let p := getMousePos s e in
     let s' := onPointerUp (foldl onPointerMove s0 (moves ++ [e])) in
     (∀ id, id ∈ selectedIds s' ↔
            (shiftKey down = true ∧ id ∈ selectedIds s) ∨
            ∃ el, el ∈ elements s ∧ meets a p el ∧ el_id el = id) ∧
     elements s' = elements s ∧ selectionBox s' = None ∧
     mode (interaction s') = IDLE) ∧
  (∀ id, id ∈ selectedIds (onPointerUp s0) ↔
         (shiftKey down = true ∧ id ∈ selectedIds s) ∨
         ∃ el, el ∈ elements s ∧ el_id el = id ∧
               el_x el < px a ∧ px a < el_x el + extent (el_width el) ∧
               el_y el < py a ∧ py a < el_y el + extent (el_height el)).
Proof.
  intros Ht Hbg a s0.
  set (sel0 := if shiftKey down then selectedIds s else (∅ : gset string)).
  assert (H0 : boxSelecting (px a) (py a) (scale s) (elements s) sel0 s0
               ∧ selectionBox s0 = Some {| bx := px a; by_ := py a; bwidth := 0; bheight := 0 |}).
  { subst s0 sel0. unfold handleContainerPointerDown. rewrite Ht, Hbg. cbn.
    by destruct (shiftKey down). }
  destruct H0 as [H0 Hsb0].
  assert (Hsel0 : ∀ id, id ∈ sel0 ↔ shiftKey down = true ∧ id ∈ selectedIds s).
  { intros id. subst sel0. destruct (shiftKey down); [tauto|].
    split; [by intros ?%not_elem_of_empty|]. by intros [? _]. }
  split.
  - intros moves e p s'.
    pose proof (boxSelecting_moves _ _ _ _ _ moves _ H0) as (Hi & Hk & He & Hs).
    set (st := foldl onPointerMove s0 moves) in *.
    assert (Hst : foldl onPointerMove s0 (moves ++ [e]) =
                  setSelectionBox (Some (dragBox (px a) (py a) (px p) (py p))) st).
    { rewrite foldl_app. cbn [foldl]. fold st.
      rewrite onPointerMove_boxing by (by rewrite Hi). rewrite Hi.
      unfold getMousePos. rewrite Hk. done. }
    destruct (pointerUp_boxing (foldl onPointerMove s0 (moves ++ [e]))
                (dragBox (px a) (py a) (px p) (py p)))
      as (Hsel & Hels & Hbox & Hmode).
    { rewrite Hst. cbn. by rewrite Hi. }
    { by rewrite Hst. }
    fold s' in Hsel, Hels, Hbox, Hmode. rewrite Hst in Hsel, Hels.
    cbn [setSelectionBox elements selectedIds] in Hsel, Hels.
    rewrite He in Hsel, Hels. rewrite Hs in Hsel.
    split; [|done]. intros id. rewrite Hsel, elem_of_addAll, Hsel0.
    split; (intros [H | (el & H)]; [by left|right; exists el]).
    + destruct H as [H E]. apply elem_of_filter_bool in H as [H1 H2].
      apply boxHit_overlaps, overlaps_dragBox in H2. done.
    + destruct H as (H1 & H2 & E). split; [|done].
      apply elem_of_filter_bool. split; [done|].
      by apply boxHit_overlaps, overlaps_dragBox.
  - destruct H0 as (Hi & Hk & He & Hs).
    destruct (pointerUp_boxing s0 _ ltac:(by rewrite Hi) Hsb0) as (Hsel & _).
    intros id. rewrite Hsel, He, Hs, elem_of_addAll, Hsel0.
    split; (intros [H | (el & H)]; [by left|right; exists el]).
    + destruct H as [H E]. apply elem_of_filter_bool in H as [H1 H2].
      apply boxHit_overlaps in H2. unfold overlaps in H2.
      cbn [bx by_ bwidth bheight] in H2. destruct H2 as (? & ? & ? & ?).
      split; [done|]. split; [done|]. repeat split; lra.
    + destruct H as (H1 & E & ? & ? & ? & ?). split; [|done].
      apply elem_of_filter_bool. split; [done|].
      apply boxHit_overlaps. unfold overlaps. cbn [bx by_ bwidth bheight].
      repeat split; lra.
Qed.

Lemma box_select_gesture_witness :
  let s := initialState [rectA; rectB] in
  let s' := onPointerUp (foldl onPointerMove
                           (handleContainerPointerDown s (pointerAt 60 60) "n")
                           ([pointerAt 30 30] ++ [pointerAt 0 0])) in
  ("A"%string ∈ selectedIds s' ↔
   (false = true ∧ "A"%string ∈ selectedIds s) ∨
   ∃ el, el ∈ elements s ∧
         meets (getMousePos s (pointerAt 60 60)) (getMousePos s (pointerAt 0 0)) el ∧
         el_id el = "A"%string) ∧
  selectedIds s' = {[ "A"%string ]}.
Proof.
  intros s s'. split.
  - exact (proj1 (proj1 (box_select_gesture s (pointerAt 60 60) "n" eq_refl eq_refl)
                    [pointerAt 30 30] (pointerAt 0 0)) "A"%string).
  - vm_compute. reflexivity.
Defined.

(** ** The invariant of the element store *)

Lemma live_ids (s : EditorState) :
  selection_live s ↔ ∀ i, i ∈ selectedIds s → i ∈ ids s.
Proof.
  unfold selection_live, ids. split; intros H i Hi.
  - destruct (H i Hi) as (el & Hel & <-). apply list_elem_of_fmap. by exists el.
  - apply H, list_elem_of_fmap in Hi as (el & -> & Hel). by exists el.
Qed.

Lemma live_upto_nil (s : EditorState) : live_upto [] s ↔ well_formed s.
Proof.
  unfold live_upto, well_formed. rewrite live_ids. split; intros [Hnd H].
  - split; [done|]. intros i Hi. destruct (H i Hi) as [?|Hn]; [done|].
    by apply elem_of_nil in Hn.
  - split; [done|]. intros i Hi. left. by apply H.
Qed.

Lemma live_upto_mono (G G' : list string) (s : EditorState) :
  (∀ i, i ∈ G → i ∈ G') → live_upto G s → live_upto G' s.
Proof.
  intros Hsub [Hnd H]. split; [done|]. intros i Hi.
  destruct (H i Hi) as [?|?]; [by left|right; by apply Hsub].
Qed.

Lemma wf_frame (G : list string) (s s' : EditorState) :
  ids s' = ids s →
  (∀ i, i ∈ selectedIds s' → i ∈ selectedIds s ∨ i ∈ ids s) →
  live_upto G s → live_upto G s'.
Proof.
  intros Hids Hsel [Hnd Hlive]. split; [by rewrite Hids|].
  intros i Hi. rewrite Hids.
  destruct (Hsel i Hi) as [H|H]; [by apply Hlive|by left].
Qed.

Lemma ids_sublist (l k : list CanvasElement) :
  l `sublist_of` k → map el_id l `sublist_of` map el_id k.
Proof. induction 1; cbn; by constructor. Qed.

Lemma wf_filter (G : list string) (f : CanvasElement → bool) (s s' : EditorState) :
  elements s' = List.filter f (elements s) →
  (∀ i, i ∈ selectedIds s' →
        i ∈ selectedIds s ∧ ∀ el, el ∈ elements s → el_id el = i → f el = true) →
  live_upto G s → live_upto G s'.
Proof.
  intros Hels Hsel [Hnd Hlive]. split.
  - unfold ids in *. rewrite Hels.
    apply (sublist_NoDup _ (map el_id (elements s))); [done|].
    apply ids_sublist, filter_sublist.
  - intros i Hi. destruct (Hsel i Hi) as [Hin Hf].
    destruct (Hlive i Hin) as [Hl | HG]; [left|by right].
    apply list_elem_of_fmap in Hl as (el & -> & Hel).
    unfold ids. rewrite Hels. apply list_elem_of_fmap. exists el. split; [done|].
    apply elem_of_filter_bool. split; [done|]. by apply Hf.
Qed.

Lemma wf_delete (G : list string) (id : string) (s : EditorState) :
  live_upto G s → live_upto G (deleteElement id s).
Proof.
  apply (wf_filter G (λ el, negb (idEq (el_id el) id))); [done|].
  intros i Hi. cbn in Hi. apply elem_of_difference in Hi as [Hi Hne].
  split; [done|]. intros el _ E. apply not_idEq. rewrite E.
  intros ->. apply Hne. by apply elem_of_singleton.
Qed.

Lemma wf_append (G : list string) (s s' : EditorState) (el : CanvasElement) :
  elements s' = elements s ++ [el] → el_id el ∉ ids s →
  (∀ i, i ∈ selectedIds s' → i ∈ selectedIds s) →
  live_upto G s → live_upto G s'.
Proof.
  intros Hels Hfresh Hsel [Hnd Hlive]. split.
  - unfold ids in *. rewrite Hels, map_app. cbn.
    apply NoDup_app. split; [done|]. split; [|apply NoDup_singleton].
    intros i Hi Hi'. apply list_elem_of_singleton in Hi'. by subst.
  - intros i Hi. destruct (Hlive i (Hsel i Hi)) as [Hl | HG]; [left|by right].
    unfold ids in *. rewrite Hels, map_app. apply elem_of_app. by left.
Qed.

Lemma ids_map (f : CanvasElement → CanvasElement) (s : EditorState) :
  (∀ el, el_id (f el) = el_id el) → ids (setElements (map f) s) = ids s.
Proof.
  intros H. unfold ids. cbn. rewrite map_map. by apply map_ext.
Qed.

Lemma createStep_id (cur : option string) (sx sy x y : Q) (el : CanvasElement) :
  el_id (createStep cur sx sy x y el) = el_id el.
Proof.
  unfold createStep. destruct (negb _); [done|].
  by destruct (ElementType.eqb _ _).
Qed.

Lemma moveElement_id (ip : gmap string Point) (dx dy : Q) (el : CanvasElement) :
  el_id (moveElement ip dx dy el) = el_id el.
Proof. unfold moveElement. by destruct (ip !! el_id el). Qed.

Lemma resizeElement_id (refs : gmap string DomElement) (cur h : string)
    (b : Bounds) (dx dy : Q) (el : CanvasElement) :
  el_id (resizeElement refs cur h b dx dy el) = el_id el.
Proof. unfold resizeElement. by destruct (negb _). Qed.

Lemma wf_containerMove (G : list string) (s : EditorState) (e : PointerEvent) :
  live_upto G s → live_upto G (handleContainerPointerMove s e).
Proof.
  intros H. unfold handleContainerPointerMove.
  destruct (mode (interaction s)); try done.
  - apply (wf_frame G s); [apply ids_map, createStep_id| |done]. intros i Hi. by left.
  - destruct (List.find _ _); [by apply wf_delete|done].
Qed.

Lemma wf_globalMove (G : list string) (s : EditorState) (e : PointerEvent) :
  live_upto G s → live_upto G (handleGlobalMove s e).
Proof.
  intros H. unfold handleGlobalMove.
  destruct (mode (interaction s)); try done.
  - apply (wf_frame G s); [apply ids_map, moveElement_id| |done]. intros i Hi. by left.
  - destruct (currentId (interaction s)) as [cur|]; [|done].
    destruct (idEq cur ""); [done|].
    apply (wf_frame G s); [apply ids_map, resizeElement_id| |done]. intros i Hi. by left.
Qed.

Lemma wf_globalUp (G : list string) (s : EditorState) :
  live_upto G s → live_upto G (handleGlobalUp s).
Proof.
  intros H. apply (wf_frame G s); [| |done].
  - unfold handleGlobalUp. by destruct (mode (interaction s)).
  - intros i Hi. left. revert Hi. unfold handleGlobalUp.
    by destruct (mode (interaction s)).
Qed.

Lemma wf_containerUp (G : list string) (s : EditorState) :
  live_upto G s → live_upto G (handleContainerPointerUp s).
Proof.
  intros H. apply (wf_frame G s); [| |done].
  - unfold handleContainerPointerUp.
    by destruct (mode (interaction s)), (selectionBox s).
  - intros i. unfold handleContainerPointerUp.
    destruct (mode (interaction s)), (selectionBox s) as [sb|]; cbn; try (by left).
    rewrite elem_of_addAll. intros [Hi | (el & Hel & <-)]; [by left|right].
    apply elem_of_filter_bool in Hel as [Hel _].
    apply list_elem_of_fmap. by exists el.
Qed.

Lemma canvasDown_frame (s : EditorState) (e : PointerEvent) (nid : string) :
  let s' := handleContainerPointerDown s e nid in
  (elements s' = elements s ∨ ∃ el, elements s' = elements s ++ [el] ∧ el_id el = nid) ∧
  (selectedIds s' = selectedIds s ∨ selectedIds s' = ∅) ∧
  (timers s' = timers s ∨ timers s' = timers s ++ [nid]).
Proof.
  intros s'. subst s'. unfold handleContainerPointerDown.
  destruct (tool s); cbn;
    repeat match goal with
           | |- context [if ?b then _ else _] => destruct b; cbn
           end;
    (split; [first [by left | right; eexists; split; reflexivity]
            | split; first [by left | by right]]).
Qed.

Lemma wf_canvasDown (G : list string) (s : EditorState) (e : PointerEvent) (nid : string) :
  nid ∉ ids s → live_upto G s → live_upto G (handleContainerPointerDown s e nid).
Proof.
  intros Hfresh H.
  destruct (canvasDown_frame s e nid) as ([Hels | (el & Hels & Hid)] & Hsel & _).
  - apply (wf_frame G s); [by unfold ids; rewrite Hels| |done].
    intros i Hi. destruct Hsel as [Hsel | Hsel]; rewrite Hsel in Hi; [by left|].
    by apply not_elem_of_empty in Hi.
  - apply (wf_append G s _ el); [done|by rewrite Hid| |done].
    intros i Hi. destruct Hsel as [Hsel | Hsel]; rewrite Hsel in Hi; [done|].
    by apply not_elem_of_empty in Hi.
Qed.

Lemma wf_elementDown (G : list string) (s : EditorState) (e : PointerEvent) (id : string) :
  id ∈ ids s → live_upto G s → live_upto G (handleElementPointerDown s e id).
Proof.
  intros Hid H. destruct (Tool.eqb (tool s) Tool.ERASER) eqn:Ee.
  { unfold handleElementPointerDown. rewrite Ee. by apply wf_delete. }
  destruct (Tool.eqb (tool s) Tool.SELECT) eqn:Es.
  - assert (Ht : tool s = Tool.SELECT) by (by destruct (tool s)).
    destruct (elementPointerDown_select s e id Ht) as (Hels & _ & _ & Hsel).
    apply (wf_frame G s); [by unfold ids; rewrite Hels| |done].
    intros i. rewrite Hsel.
    destruct (shiftKey e), (bool_decide (id ∈ selectedIds s));
      rewrite ?elem_of_difference, ?elem_of_union, ?elem_of_singleton;
      intros Hi; try (by left).
    + by left; destruct Hi.
    + destruct Hi as [-> | Hi]; [by right|by left].
    + subst. by right.
  - unfold handleElementPointerDown. by rewrite Ee, Es.
Qed.

Lemma wf_resizeStart (G : list string) (s : EditorState) (e : PointerEvent)
    (id handle : string) :
  live_upto G s → live_upto G (handleResizeStart s e id handle).
Proof.
  intros H. unfold handleResizeStart. destruct (List.find _ _); [|done].
  destruct (elementRefs s !! id); (apply (wf_frame G s); [reflexivity| |done]);
    intros i Hi; by left.
Qed.

Lemma wf_keyDown (G : list string) (s : EditorState) (e : KeyboardEvent) :
  live_upto G s → live_upto G (handleKeyDown s e).
Proof.
  intros H. unfold handleKeyDown. destruct (String.eqb (key e) "Escape").
  { apply (wf_frame G s); [reflexivity| |done]. intros i Hi. by apply not_elem_of_empty in Hi. }
  destruct (String.eqb (key e) "Backspace" || String.eqb (key e) "Delete"); [|done].
  destruct (negb (activeIsEditing e) && _); [|done].
  apply (wf_filter G (λ el, negb (bool_decide (el_id el ∈ selectedIds s))) s);
    [reflexivity| |done].
  intros i Hi. by apply not_elem_of_empty in Hi.
Qed.

Lemma recolor_id (sel : gset string) (color : string) (hl : bool) (el : CanvasElement) :
  el_id (recolor sel color hl el) = el_id el.
Proof.
  destruct (recolor_cases sel color hl el) as [(H & _) _]. by rewrite H.
Qed.

Lemma wf_applyColor (G : list string) (color : string) (hl : bool) (s : EditorState) :
  live_upto G s → live_upto G (applyColorToSelection color hl s).
Proof.
  intros H. unfold applyColorToSelection.
  destruct (bool_decide (0 < size (selectedIds s))%nat).
  - apply (wf_frame G s); [| |done].
    + unfold ids. cbn. rewrite map_map. apply map_ext. intros el. apply recolor_id.
    + intros i Hi. by left.
  - apply (wf_frame G s); [reflexivity| |done]. intros i Hi. by left.
Qed.

Lemma wf_update (G : list string) (id : string) (u : Patch) (s : EditorState) :
  p_id u = None → live_upto G s → live_upto G (updateElement id u s).
Proof.
  intros Hu H. apply (wf_frame G s); [| |done].
  - apply ids_map. intros el. destruct (idEq (el_id el) id); [|done].
    cbn. by rewrite Hu.
  - intros i Hi. by left.
Qed.

Lemma wf_textKeyUp (G : list string) (s : EditorState) (k : string)
    (caret : option Point) (id : string) :
  live_upto G s → live_upto G (handleTextKeyUp s k caret id).
Proof.
  intros H. unfold handleTextKeyUp.
  by destruct (String.eqb k "/"), caret.
Qed.

Lemma wf_slashSelect (G : list string) (s : EditorState) :
  live_upto G s → live_upto G (handleSlashSelect s).
Proof.
  intros H. unfold handleSlashSelect. by destruct (slashMenu s).
Qed.

(** A timer that fires selects its id, live or not. *)
Lemma wf_timeout (G : list string) (s : EditorState) :
  live_upto G s → live_upto (G ++ timers s) (runTimeout s).
Proof.
  intros [Hnd H]. unfold runTimeout. destruct (timers s) as [|id rest] eqn:E.
  - rewrite app_nil_r. by split.
  - split; [done|]. intros i Hi. cbn in Hi. apply elem_of_singleton in Hi as ->.
    right. apply elem_of_app. right. left.
Qed.

Lemma wf_dispatch (G : list string) (s : EditorState) (ev : Event) :
  ev ≠ Timeout → live_upto G s → enabled s ev → live_upto G (dispatch s ev).
Proof.
  intros Hev H Hen. destruct ev; cbn [dispatch enabled] in *.
  - by apply wf_keyDown.
  - by apply wf_canvasDown.
  - by apply wf_elementDown.
  - by apply wf_resizeStart.
  - by apply wf_globalMove, wf_containerMove.
  - by apply wf_globalMove.
  - by apply wf_globalUp, wf_containerUp.
  - by apply wf_globalUp.
  - done.
  - by apply wf_applyColor.
  - done.
  - done.
  - done.
  - by apply wf_update.
  - by apply wf_delete.
  - done.
  - by apply wf_textKeyUp.
  - by apply wf_slashSelect.
  - done.
  - done.
Qed.

Lemma wf_dispatch_any (G : list string) (s : EditorState) (ev : Event) :
  live_upto G s → enabled s ev → live_upto (G ++ timers s) (dispatch s ev).
Proof.
  intros H Hen. destruct ev;
    try (apply (live_upto_mono G);
         [intros i Hi; apply elem_of_app; by left|by apply wf_dispatch]).
  by apply wf_timeout.
Qed.

(** ** Pending timers *)

Lemma timers_deleteElement (id : string) (s : EditorState) :
  timers (deleteElement id s) = timers s.
Proof. done. Qed.

Lemma timers_containerMove (s : EditorState) (e : PointerEvent) :
  timers (handleContainerPointerMove s e) = timers s.
Proof.
  unfold handleContainerPointerMove.
  destruct (mode (interaction s)); try done. by destruct (List.find _ _).
Qed.

Lemma timers_globalMove (s : EditorState) (e : PointerEvent) :
  timers (handleGlobalMove s e) = timers s.
Proof.
  unfold handleGlobalMove. destruct (mode (interaction s)); try done.
  destruct (currentId (interaction s)) as [cur|]; [|done].
  by destruct (idEq cur "").
Qed.

Lemma timers_globalUp (s : EditorState) : timers (handleGlobalUp s) = timers s.
Proof. unfold handleGlobalUp. by destruct (mode (interaction s)). Qed.

Lemma timers_containerUp (s : EditorState) :
  timers (handleContainerPointerUp s) = timers s.
Proof.
  unfold handleContainerPointerUp.
  by destruct (mode (interaction s)), (selectionBox s).
Qed.

Lemma timers_pickColor (s : EditorState) (id : string) :
  timers (pickColor s id) = timers s.
Proof.
  unfold pickColor. destruct (List.find _ _) as [el|]; [|done].
  destruct (el_style el) as [st|]; [|done].
  destruct (strokeColor st) as [c|]; [|done]. by destruct (String.eqb c "").
Qed.

Lemma timers_elementDown (s : EditorState) (e : PointerEvent) (id : string) :
  timers (handleElementPointerDown s e id) = timers s.
Proof.
  unfold handleElementPointerDown.
  destruct (Tool.eqb (tool s) Tool.ERASER); [done|].
  destruct (Tool.eqb (tool s) Tool.SELECT); [|done].
  destruct (closestDragHandle (target e) || negb (isInput (target e))),
    (shiftKey e), (negb (bool_decide (id ∈ selectedIds s)));
    cbn; apply timers_pickColor.
Qed.

Lemma timers_resizeStart (s : EditorState) (e : PointerEvent) (id handle : string) :
  timers (handleResizeStart s e id handle) = timers s.
Proof.
  unfold handleResizeStart. destruct (List.find _ _); [|done].
  by destruct (elementRefs s !! id).
Qed.

Lemma timers_keyDown (s : EditorState) (e : KeyboardEvent) :
  timers (handleKeyDown s e) = timers s.
Proof.
  unfold handleKeyDown. destruct (String.eqb (key e) "Escape"); [done|].
  destruct (String.eqb (key e) "Backspace" || String.eqb (key e) "Delete"); [|done].
  by destruct (negb (activeIsEditing e) && _).
Qed.

Lemma timers_applyColor (color : string) (hl : bool) (s : EditorState) :
  timers (applyColorToSelection color hl s) = timers s.
Proof.
  unfold applyColorToSelection. by destruct (bool_decide _).
Qed.

(** Only a press on the canvas arms a timer, for the id it generates. *)
Lemma timers_dispatch (s : EditorState) (ev : Event) (i : string) :
  i ∈ timers (dispatch s ev) → i ∈ timers s ∨ i ∈ placed [ev].
Proof.
  destruct ev; cbn [dispatch placed flat_map].
  - rewrite timers_keyDown. by left.
  - destruct (canvasDown_frame s e newId) as (_ & _ & [-> | ->]); [by left|].
    rewrite elem_of_app. intros [?|Hi]; [by left|right].
    apply list_elem_of_singleton in Hi as ->. left.
  - rewrite timers_elementDown. by left.
  - rewrite timers_resizeStart. by left.
  - unfold onPointerMove. rewrite timers_globalMove, timers_containerMove. by left.
  - rewrite timers_globalMove. by left.
  - unfold onPointerUp. rewrite timers_globalUp, timers_containerUp. by left.
  - rewrite timers_globalUp. by left.
  - by left.
  - rewrite timers_applyColor. by left.
  - by left.
  - by left.
  - by left.
  - by left.
  - by left.
  - unfold runTimeout. destruct (timers s) as [|id rest] eqn:E; cbn.
    + rewrite E. by left.
    + intros Hi. left. by right.
  - unfold handleTextKeyUp. destruct (String.eqb k "/"), caret; by left.
  - unfold handleSlashSelect. destruct (slashMenu s); by left.
  - by left.
  - by left.
Qed.

Lemma elem_of_placed_cons (ev : Event) (evs : list Event) (i : string) :
  i ∈ placed (ev :: evs) ↔ i ∈ placed [ev] ∨ i ∈ placed evs.
Proof.
  unfold placed. cbn [flat_map]. rewrite app_nil_r. apply elem_of_app.
Qed.

Lemma live_trace (evs : list Event) (G : list string) (s : EditorState) :
  live_upto G s → admissible s evs →
  live_upto (G ++ timers s ++ placed evs) (foldl dispatch s evs).
Proof.
  revert G s. induction evs as [|ev evs IH]; intros G s H Hadm.
  - apply (live_upto_mono G); [|done]. intros i Hi. apply elem_of_app. by left.
  - destruct Hadm as [Hen Hadm]. cbn [foldl].
    apply (live_upto_mono ((G ++ timers s) ++ timers (dispatch s ev) ++ placed evs)).
    + intros i. rewrite !elem_of_app, elem_of_placed_cons.
      intros [[?|?] | [Ht|?]]; [tauto|tauto| |tauto].
      apply timers_dispatch in Ht. tauto.
    + apply IH; [|done]. by apply wf_dispatch_any.
Qed.

Lemma wf_trace (evs : list Event) (s : EditorState) :
  well_formed s → admissible s evs → Timeout ∉ evs →
  well_formed (foldl dispatch s evs).
Proof.
  revert s. induction evs as [|ev evs IH]; intros s H Hadm Hno; [done|].
  destruct Hadm as [Hen Hadm]. cbn [foldl].
  apply not_elem_of_cons in Hno as [Hne Hno].
  apply IH; [|done|done]. apply live_upto_nil, wf_dispatch; [done| |done].
  by apply live_upto_nil.
Qed.

(** X13.  Under every sequence of events of the editor - keys, presses,
    moves, releases, resize starts, tool, color and zoom changes, patches,
    deletions, slash-menu events, node registrations and the 50 ms timer of
    a click-to-place creation firing - the ids of the elements stay unique,
    provided each generated id is new, element presses fire on elements of
    the collection, and no patch sets an id.  Every selected id stays the
    id of an element as long as no timer fires; a timer that fires can
    select the id of an element that has been deleted meanwhile, so in
    general a selected id is the id of an element or an id generated for a
    press on the canvas (or pending at the start).  A text block placed by
    a click and erased before its timer fires ends up selected though it
    is gone.  A freshly mounted page with unique ids is well formed. *)
Theorem well_formed_preserved :
  (∀ evs s, well_formed s → admissible s evs →
     let s' := foldl dispatch s evs in
     NoDup (ids s') ∧
     (∀ id, id ∈ selectedIds s' → id ∈ ids s' ∨ id ∈ timers s ∨ id ∈ placed evs) ∧
     (Timeout ∉ evs → well_formed s')) ∧
  (∀ els, NoDup (map el_id els) → well_formed (initialState els)) ∧
  (admissible (initialState []) placeThenErase ∧
   ¬ well_formed (foldl dispatch (initialState []) placeThenErase)).
Proof.
  split; [|split].
  - intros evs s H Hadm s'.
    destruct (live_trace evs [] s (proj2 (live_upto_nil s) H) Hadm) as [Hnd Hsel].
    fold s' in Hnd, Hsel. split; [done|]. split; [|by apply wf_trace].
    intros id Hid. destruct (Hsel id Hid) as [?|Hin]; [by left|right].
    cbn in Hin. by apply elem_of_app in Hin.
  - intros els Hnd. split; [done|]. intros i Hi. by apply not_elem_of_empty in Hi.
  - split.
    + cbn [placeThenErase admissible enabled]. repeat split.
      * intros Hn. vm_compute in Hn. by apply elem_of_nil in Hn.
      * apply (bool_decide_unpack _). vm_compute. exact I.
    + intros [_ Hlive].
      assert (Hsel : "n"%string ∈ selectedIds (foldl dispatch (initialState []) placeThenErase))
        by (apply (bool_decide_unpack _); vm_compute; exact I).
      destruct (Hlive _ Hsel) as (el & Hel & _).
      assert (E : elements (foldl dispatch (initialState []) placeThenErase) = [])
        by (vm_compute; reflexivity).
      rewrite E in Hel. by apply elem_of_nil in Hel.
Qed.

Lemma well_formed_preserved_witness :
  let s' := foldl dispatch (initialState [rectA; rectB])
       [ PickTool Tool.TEXT; CanvasDown (pointerAt 200 200) "n"; Timeout;
         PickTool Tool.SELECT; ElementDown (pointerOn 20 20 false) "A"; Up;
         KeyDown {| key := "Delete"; activeIsEditing := false |} ] in
  NoDup (ids s') ∧
  ¬ well_formed (foldl dispatch (initialState []) placeThenErase).
Proof.
  intros s'. destruct well_formed_preserved as (Htrace & Hinit & _ & Hbad).
  split; [|exact Hbad].
  refine (proj1 (Htrace _ (initialState [rectA; rectB]) _ _)).
  - apply Hinit. apply (bool_decide_unpack _). vm_compute. exact I.
  - cbn [admissible enabled]. repeat split.
    + apply (bool_decide_unpack _). vm_compute. exact I.
    + apply (bool_decide_unpack _). vm_compute. exact I.
Defined.

(** * The document store and the application shell *)

(** X14.  Creating a document from a non-blank name opens it on its first
    page: the document and its root folder are stored, the root has the new
    page as only child, the page is empty, and the name field and the
    dialog are reset; documents, nodes and pages stored under other ids
    are untouched.  A blank name changes nothing.  Should the generated
    root id and page id coincide, the page node replaces the root folder
    and no page is opened. *)
Theorem create_document_opens_first_page (app : App)
    (docId rootId pid : string) (now : Z) :
  (rootId ≠ pid →
   let app' := handleCreateDoc false docId rootId pid now app in
   currentDocId app' = Some docId ∧ activePageId app' = Some pid ∧
   mountedElements (state app') pid = [] ∧
   newDocName app' = ""%string ∧ isModalOpen app' = false ∧
   (∃ d, documents (state app') !! docId = Some d ∧
         doc_name d = newDocName app ∧ rootNodeId d = rootId) ∧
   (∃ r, fileNodes (state app') !! rootId = Some r ∧ children r = [pid] ∧
         parentId r = None ∧ fn_type r = NodeType.FOLDER) ∧
   (∃ p, fileNodes (state app') !! pid = Some p ∧ parentId p = Some rootId ∧
         fn_type p = NodeType.PAGE ∧ children p = []) ∧
   (∀ d, d ≠ docId → documents (state app') !! d = documents (state app) !! d) ∧
   (∀ n, n ≠ rootId → n ≠ pid →
         fileNodes (state app') !! n = fileNodes (state app) !! n) ∧
   (∀ p, p ≠ pid → pages (state app') !! p = pages (state app) !! p)) ∧
  handleCreateDoc true docId rootId pid now app = app ∧
  activePageId (handleCreateDoc false docId pid pid now app) = None.
Proof.
  split; [|split; [done|]].
  - intros Hne app'. subst app'. unfold handleCreateDoc, createDocument.
    cbn [documents fileNodes pages]. rewrite lookup_insert_eq. cbn [rootNodeId].
    rewrite lookup_insert_ne by done. rewrite lookup_insert_eq.
    cbn [state currentDocId activePageId isModalOpen newDocName documents
         fileNodes pages children head].
    unfold mountedElements. cbn [pages]. rewrite lookup_insert_eq. cbn.
    do 5 (split; [done|]). split; [|split; [|split; [|split; [|split]]]].
    + eexists. rewrite lookup_insert_eq. done.
    + eexists. rewrite lookup_insert_ne by done. rewrite lookup_insert_eq. done.
    + eexists. rewrite lookup_insert_eq. done.
    + intros d Hd. by rewrite lookup_insert_ne.
    + intros n Hn1 Hn2. by rewrite !lookup_insert_ne.
    + intros p Hp. by rewrite lookup_insert_ne.
  - unfold handleCreateDoc, createDocument. cbn [documents fileNodes pages].
    rewrite lookup_insert_eq. cbn [rootNodeId]. rewrite lookup_insert_eq. done.
Qed.

Lemma create_document_opens_first_page_witness :
  let app' := handleCreateDoc false "d1" "r1" "p1" 1700000000000 freshApp in
  currentDocId app' = Some "d1"%string ∧ activePageId app' = Some "p1"%string ∧
  mountedElements (state app') "p1" = [].
Proof.
  intros app'.
  destruct (proj1 (create_document_opens_first_page freshApp "d1" "r1" "p1" 1700000000000)
              ltac:(discriminate)) as (H1 & H2 & H3 & _).
  exact (conj H1 (conj H2 H3)).
Defined.

(** X15.  Creating a node under a missing parent fails and leaves the
    application as it is.  Under an existing parent, with a new id, the
    node is appended after the parent's children, which keep their order;
    it has no children, is open exactly when it is a folder, and names the
    parent.  A page gets an empty page content and becomes the active
    page; a folder changes neither the pages nor the active page.
    Documents and the other nodes are untouched. *)
Theorem create_node_appends_child (app : App) (parent : string)
    (type : NodeType.t) (name nid : string) :
  (fileNodes (state app) !! parent = None →
   createFileNode (state app) parent type name nid = None ∧
   handleCreateNode parent type name nid app = app) ∧
  (∀ p, fileNodes (state app) !! parent = Some p → nid ≠ parent →
     let app' := handleCreateNode parent type name nid app in
     (∃ p', fileNodes (state app') !! parent = Some p' ∧
            children p' = children p ++ [nid] ∧ fn_name p' = fn_name p ∧
            parentId p' = parentId p ∧ fn_type p' = fn_type p) ∧
     (∃ n, fileNodes (state app') !! nid = Some n ∧ fn_id n = nid ∧
           fn_type n = type ∧ fn_name n = name ∧ parentId n = Some parent ∧
           children n = [] ∧
           isOpen n = (if NodeType.eqb type NodeType.FOLDER then Some true else None)) ∧
     (∀ i, i ≠ parent → i ≠ nid →
           fileNodes (state app') !! i = fileNodes (state app) !! i) ∧
     documents (state app') = documents (state app) ∧
     (type = NodeType.PAGE →
      activePageId app' = Some nid ∧ mountedElements (state app') nid = [] ∧
      ∀ q, q ≠ nid → pages (state app') !! q = pages (state app) !! q) ∧
     (type = NodeType.FOLDER →
      activePageId app' = activePageId app ∧ pages (state app') = pages (state app))).
Proof.
  split.
  - intros Hp. unfold handleCreateNode, createFileNode. by rewrite Hp.
  - intros p Hp Hne app'. subst app'. unfold handleCreateNode, createFileNode.
    rewrite Hp. cbn [state fileNodes documents pages activePageId].
    split; [|split; [|split; [|split; [done|split]]]].
    + eexists. rewrite lookup_insert_ne by done. rewrite lookup_insert_eq. done.
    + eexists. rewrite lookup_insert_eq. done.
    + intros i H1 H2. by rewrite !lookup_insert_ne.
    + intros ->. cbn. split; [done|]. unfold mountedElements. cbn.
      rewrite lookup_insert_eq. split; [done|].
      intros q Hq. by rewrite lookup_insert_ne.
    + intros ->. done.
Qed.

Lemma create_node_appends_child_witness :
  let app := handleCreateDoc false "d1" "r1" "p1" 0 freshApp in
  let app' := handleCreateNode "r1" NodeType.PAGE "New Page" "p2" app in
  (∃ p', fileNodes (state app') !! "r1"%string = Some p' ∧
         children p' = ["p1"%string] ++ ["p2"%string]) ∧
  activePageId app' = Some "p2"%string.
Proof.
  intros app app'.
  destruct (proj2 (create_node_appends_child app "r1" NodeType.PAGE "New Page" "p2")
              {| fn_id := "r1"; fn_type := NodeType.FOLDER; fn_name := "Root";
                 parentId := None; children := ["p1"%string]; isOpen := Some true |}
              eq_refl ltac:(discriminate))
    as ((p' & Hp' & Hch & _) & _ & _ & _ & Hpage & _).
  split; [by exists p'|]. exact (proj1 (Hpage eq_refl)).
Defined.

(** X16.  Saving the elements of the active page and mounting an editor on
    that page gives back the saved elements; the other pages, the
    documents, the file tree and the active page are untouched, the page
    keeps its page id, and of two saves the last one wins.  Without an
    active page a save changes nothing. *)
Theorem save_then_mount (app : App) (els : list CanvasElement) :
  (∀ page, activePageId app = Some page → page ≠ ""%string →
     let app' := handleSavePage els app in
     mountedElements (state app') page = els ∧
     elements (initialState (mountedElements (state app') page)) = els ∧
     (∀ q, q ≠ page → pages (state app') !! q = pages (state app) !! q) ∧
     (∀ pc, pages (state app) !! page = Some pc →
            ∃ pc', pages (state app') !! page = Some pc' ∧ pageId pc' = pageId pc) ∧
     documents (state app') = documents (state app) ∧
     fileNodes (state app') = fileNodes (state app) ∧
     activePageId app' = activePageId app ∧
     ∀ els0, handleSavePage els (handleSavePage els0 app) = app') ∧
  (activePageId app = None ∨ activePageId app = Some ""%string →
   handleSavePage els app = app).
Proof.
  split.
  - intros page Hp Hne app'. subst app'. unfold handleSavePage. rewrite Hp.
    apply String.eqb_neq in Hne. rewrite Hne.
    unfold mountedElements, updatePageContent.
    cbn [state pages documents fileNodes activePageId].
    rewrite lookup_insert_eq. cbn [pc_elements initialState elements].
    do 2 (split; [done|]). split; [|split; [|split; [done|split; [done|split; [done|]]]]].
    + intros q Hq. by rewrite lookup_insert_ne.
    + intros pc Hpc. eexists. split; [reflexivity|]. by rewrite Hpc.
    + intros els0. cbn [state pages documents fileNodes activePageId
        currentDocId isModalOpen newDocName]. rewrite Hne.
      cbn [state pages documents fileNodes activePageId
        currentDocId isModalOpen newDocName]. rewrite lookup_insert_eq. cbn [pageId].
      by rewrite insert_insert_eq.
  - unfold handleSavePage. intros [-> | ->]; done.
Qed.

Lemma save_then_mount_witness :
  let app := handleCreateDoc false "d1" "r1" "p1" 0 freshApp in
  mountedElements (state (handleSavePage [rectA; rectB] app)) "p1" = [rectA; rectB] ∧
  handleSavePage [rectA; rectB] (handleSavePage [rectA] app)
  = handleSavePage [rectA; rectB] app.
Proof.
  intros app.
  destruct (proj1 (save_then_mount app [rectA; rectB]) "p1"%string eq_refl
              ltac:(discriminate)) as (H1 & _ & _ & _ & _ & _ & _ & H2).
  exact (conj H1 (H2 [rectA])).
Defined.

Lemma elem_of_filter_ne (nid : string) (l : list string) (c : string) :
  c ∈ List.filter (λ c, negb (String.eqb c nid)) l ↔ c ∈ l ∧ c ≠ nid.
Proof.
  rewrite !list_elem_of_In, filter_In, negb_true_iff, String.eqb_neq. done.
Qed.

Lemma filter_ne_sublist (nid : string) (l : list string) :
  List.filter (λ c, negb (String.eqb c nid)) l `sublist_of` l.
Proof.
  induction l as [|a r IH]; [done|]. cbn.
  destruct (negb _); [by apply sublist_skip|by apply sublist_cons].
Qed.

Lemma filter_ne_twice (nid : string) (l : list string) :
  List.filter (λ c, negb (String.eqb c nid))
    (List.filter (λ c, negb (String.eqb c nid)) l)
  = List.filter (λ c, negb (String.eqb c nid)) l.
Proof.
  induction l as [|a r IH]; [done|]. cbn.
  destruct (negb (String.eqb a nid)) eqn:E; [|done]. cbn. by rewrite E, IH.
Qed.

Lemma truthyId_Some (o : option string) :
  truthyId o = true ↔ ∃ i, o = Some i ∧ i ≠ ""%string.
Proof.
  destruct o as [i|]; cbn.
  - rewrite negb_true_iff, String.eqb_neq. split; [by exists i|].
    by intros (? & [= <-] & ?).
  - split; [done|]. by intros (? & ? & _).
Qed.

(** X17.  Deleting a node that is missing, that is a root (no parent), or
    whose parent is missing changes nothing.  Otherwise the node is taken
    out of its parent's children, the other children keeping their order;
    the node itself, its descendants and every page content stay in the
    store; the active page is closed exactly when it is the deleted node;
    deleting the same node again changes nothing more. *)
Theorem delete_node_detaches (app : App) (nid : string) :
  (fileNodes (state app) !! nid = None → handleDeleteNode nid app = app) ∧
  (∀ node, fileNodes (state app) !! nid = Some node →
           parentId node = None ∨ parentId node = Some ""%string →
           handleDeleteNode nid app = app) ∧
  (∀ node pid, fileNodes (state app) !! nid = Some node →
               parentId node = Some pid → fileNodes (state app) !! pid = None →
               handleDeleteNode nid app = app) ∧
  (∀ node pid p,
     fileNodes (state app) !! nid = Some node →
     parentId node = Some pid → pid ≠ ""%string →
     fileNodes (state app) !! pid = Some p →
     let app' := handleDeleteNode nid app in
     (∃ p', fileNodes (state app') !! pid = Some p' ∧
            (∀ c, c ∈ children p' ↔ c ∈ children p ∧ c ≠ nid) ∧
            children p' `sublist_of` children p ∧
            fn_name p' = fn_name p ∧ parentId p' = parentId p) ∧
     (nid ≠ pid → fileNodes (state app') !! nid = Some node) ∧
     (∀ i, i ≠ pid → fileNodes (state app') !! i = fileNodes (state app) !! i) ∧
     pages (state app') = pages (state app) ∧
     documents (state app') = documents (state app) ∧
     (activePageId app = Some nid → activePageId app' = None) ∧
     (activePageId app ≠ Some nid → activePageId app' = activePageId app) ∧
     (nid ≠ pid → handleDeleteNode nid app' = app')).
Proof.
  split; [|split; [|split]].
  - intros H. unfold handleDeleteNode. by rewrite H.
  - intros node Hn Hroot. unfold handleDeleteNode. rewrite Hn.
    by destruct Hroot as [-> | ->].
  - intros node pid Hn Hpid Hp. unfold handleDeleteNode. rewrite Hn, Hpid.
    destruct (negb (truthyId (Some pid))); [done|]. cbn. by rewrite Hp.
  - intros node pid p Hn Hpid Hne Hp app'.
    assert (Htr : truthyId (parentId node) = true).
    { apply truthyId_Some. by exists pid. }
    set (p' := {| fn_id := fn_id p; fn_type := fn_type p; fn_name := fn_name p;
                  parentId := parentId p;
                  children := List.filter (λ c, negb (String.eqb c nid)) (children p);
                  isOpen := isOpen p |}).
    assert (Happ : app' =
      {| state := {| documents := documents (state app);
                     fileNodes := <[ pid := p' ]> (fileNodes (state app));
                     pages := pages (state app) |};
         currentDocId := currentDocId app;
         activePageId := if bool_decide (activePageId app = Some nid) then None
                         else activePageId app;
         isModalOpen := isModalOpen app; newDocName := newDocName app |}).
    { subst app'. unfold handleDeleteNode. rewrite Hn, Htr, Hpid. cbn.
      by rewrite Hp. }
    rewrite Happ. cbn [state fileNodes pages documents activePageId].
    split; [|split; [|split; [|split; [done|split; [done|split; [|split]]]]]].
    + exists p'. rewrite lookup_insert_eq. split; [done|]. cbn [children p'].
      split; [apply elem_of_filter_ne|]. split; [apply filter_ne_sublist|done].
    + intros Hnp. by rewrite lookup_insert_ne.
    + intros i Hi. by rewrite lookup_insert_ne.
    + intros Ha. by rewrite bool_decide_eq_true_2.
    + intros Ha. by rewrite bool_decide_eq_false_2.
    + intros Hnp. unfold handleDeleteNode. cbn [state fileNodes].
      rewrite lookup_insert_ne by done. rewrite Hn, Htr, Hpid.
      cbn [negb default from_option id]. rewrite lookup_insert_eq. cbn [documents pages currentDocId activePageId
        isModalOpen newDocName fn_id fn_type fn_name parentId children isOpen p'].
      rewrite insert_insert_eq, filter_ne_twice.
      f_equal. destruct (bool_decide (activePageId app = Some nid)) eqn:E; [done|].
      by rewrite E.
Qed.

Lemma delete_node_detaches_witness :
  let app := handleCreateNode "r1" NodeType.PAGE "New Page" "p2"
               (handleCreateDoc false "d1" "r1" "p1" 0 freshApp) in
  let app' := handleDeleteNode "p2" app in
  (∃ p', fileNodes (state app') !! "r1"%string = Some p' ∧
         children p' = ["p1"%string]) ∧
  is_Some (fileNodes (state app') !! "p2"%string) ∧
  is_Some (pages (state app') !! "p2"%string) ∧
  activePageId app' = None.
Proof.
  intros app app'. subst app'.
  destruct (proj2 (proj2 (proj2 (delete_node_detaches app "p2")))
              {| fn_id := "p2"; fn_type := NodeType.PAGE; fn_name := "New Page";
                 parentId := Some "r1"%string; children := []; isOpen := None |}
              "r1"%string
              {| fn_id := "r1"; fn_type := NodeType.FOLDER; fn_name := "Root";
                 parentId := None; children := ["p1"%string; "p2"%string];
                 isOpen := Some true |}
              eq_refl eq_refl ltac:(discriminate) eq_refl)
    as (_ & Hkept & _ & Hpages & _ & Hact & _).
  split; [|split; [|split]].
  - eexists. split; [vm_compute; reflexivity|reflexivity].
  - rewrite (Hkept ltac:(discriminate)). by eexists.
  - rewrite Hpages. vm_compute. by eexists.
  - by apply Hact.
Defined.

(** In a consistent tree, replacing a node by one with the same parent
    keeps every child link. *)
Lemma child_link_kept (fn : gmap string FileNode) (k : string) (p p' : FileNode)
    (c i : string) (cn : FileNode) :
  fn !! k = Some p → parentId p' = parentId p →
  fn !! c = Some cn → parentId cn = Some i →
  ∃ cn', <[ k := p' ]> fn !! c = Some cn' ∧ parentId cn' = Some i.
Proof.
  intros Hk Hpar Hc Hi. destruct (decide (c = k)) as [-> | Hne].
  - exists p'. rewrite lookup_insert_eq. split; [done|]. congruence.
  - exists cn. by rewrite lookup_insert_ne.
Qed.

Lemma tree_ok_createDocument (st : AppState) (name d r p : string) (now : Z) :
  tree_ok st → fileNodes st !! r = None → fileNodes st !! p = None → r ≠ p →
  tree_ok (createDocument st name d r p now).1.
Proof.
  intros Hok Hr Hp Hne i n. unfold createDocument. cbn [fst fileNodes pages].
  destruct (decide (i = p)) as [-> | Hip].
  { rewrite lookup_insert_eq. intros [= <-]. cbn. split; [done|]. split.
    - intros c Hc. by apply elem_of_nil in Hc.
    - intros _. rewrite lookup_insert_eq. by eexists. }
  rewrite lookup_insert_ne by done.
  destruct (decide (i = r)) as [-> | Hir].
  { rewrite lookup_insert_eq. intros [= <-]. cbn. split; [done|]. split; [|done].
    intros c Hc. apply list_elem_of_singleton in Hc as ->.
    eexists. rewrite lookup_insert_eq. done. }
  rewrite lookup_insert_ne by done. intros Hn.
  destruct (Hok i n Hn) as (Hid & Hch & Hpg). split; [done|]. split.
  - intros c Hc. destruct (Hch c Hc) as (cn & Hcn & Hpar). exists cn.
    split; [|done]. rewrite !lookup_insert_ne; [done|congruence|congruence].
  - intros Hty. rewrite lookup_insert_ne by done. by apply Hpg.
Qed.

Lemma tree_ok_createFileNode (st st' : AppState) (parent : string)
    (ty : NodeType.t) (name nid : string) :
  tree_ok st → fileNodes st !! nid = None →
  createFileNode st parent ty name nid = Some (st', nid) → tree_ok st'.
Proof.
  intros Hok Hfresh Hc. unfold createFileNode in Hc.
  destruct (fileNodes st !! parent) as [p|] eqn:Hp; [|done].
  injection Hc as <-.
  assert (Hne : nid ≠ parent) by congruence.
  destruct (Hok parent p Hp) as (Hpid & Hpch & Hppg).
  assert (Hpages : ∀ i, is_Some (pages st !! i) →
    is_Some ((if NodeType.eqb ty NodeType.PAGE
              then <[ nid := {| pageId := Some nid; pc_elements := [] |} ]> (pages st)
              else pages st) !! i)).
  { intros i Hi. destruct (NodeType.eqb ty NodeType.PAGE); [|done].
    destruct (decide (i = nid)) as [-> | ?];
      [rewrite lookup_insert_eq; by eexists|by rewrite lookup_insert_ne]. }
  assert (Hlink : ∀ c i cn, fileNodes st !! c = Some cn → parentId cn = Some i →
    ∃ cn', <[ nid := {| fn_id := nid; fn_type := ty; fn_name := name;
                        parentId := Some parent; children := [];
                        isOpen := if NodeType.eqb ty NodeType.FOLDER
                                  then Some true else None |} ]>
             (<[ parent := {| fn_id := fn_id p; fn_type := fn_type p;
                              fn_name := fn_name p; parentId := parentId p;
                              children := children p ++ [nid];
                              isOpen := isOpen p |} ]> (fileNodes st)) !! c = Some cn'
           ∧ parentId cn' = Some i).
  { intros c i cn Hcn Hpar. rewrite lookup_insert_ne by congruence.
    by apply (child_link_kept _ _ p _ _ _ cn). }
  intros i n. cbn [fileNodes pages].
  destruct (decide (i = nid)) as [-> | Hin].
  { rewrite lookup_insert_eq. intros [= <-]. cbn. split; [done|]. split.
    - intros c Hc'. by apply elem_of_nil in Hc'.
    - intros ->. cbn. rewrite lookup_insert_eq. by eexists. }
  rewrite lookup_insert_ne by done.
  destruct (decide (i = parent)) as [-> | Hip].
  { rewrite lookup_insert_eq. intros [= <-]. cbn. split; [done|]. split.
    - intros c Hc'. apply elem_of_app in Hc' as [Hc' | Hc'].
      + destruct (Hpch c Hc') as (cn & Hcn & Hpar). by apply (Hlink c parent cn).
      + apply list_elem_of_singleton in Hc' as ->. eexists.
        rewrite lookup_insert_eq. done.
    - intros Hty. by apply Hpages, Hppg. }
  rewrite lookup_insert_ne by done. intros Hn.
  destruct (Hok i n Hn) as (Hid & Hch & Hpg). split; [done|]. split.
  - intros c Hc'. destruct (Hch c Hc') as (cn & Hcn & Hpar). by apply (Hlink c i cn).
  - intros Hty. by apply Hpages, Hpg.
Qed.

Lemma tree_ok_updatePageContent (st : AppState) (page : string)
    (els : list CanvasElement) :
  tree_ok st → tree_ok (updatePageContent st page els).
Proof.
  intros Hok i n Hn. cbn [updatePageContent fileNodes pages] in *.
  destruct (Hok i n Hn) as (Hid & Hch & Hpg). split; [done|]. split; [done|].
  intros Hty. destruct (decide (i = page)) as [-> | ?];
    [rewrite lookup_insert_eq; by eexists|rewrite lookup_insert_ne by done; by apply Hpg].
Qed.

Lemma tree_ok_handleDeleteNode (app : App) (nid : string) :
  tree_ok (state app) → tree_ok (state (handleDeleteNode nid app)).
Proof.
  intros Hok. unfold handleDeleteNode.
  destruct (fileNodes (state app) !! nid) as [node|] eqn:Hn; [|done].
  destruct (negb (truthyId (parentId node))); [done|].
  set (pid := default ""%string (parentId node)).
  destruct (fileNodes (state app) !! pid) as [p|] eqn:Hp; [|done].
  cbn [state]. destruct (Hok pid p Hp) as (Hpid & Hpch & Hppg).
  intros i n. cbn [fileNodes pages].
  destruct (decide (i = pid)) as [-> | Hip].
  - rewrite lookup_insert_eq. intros [= <-]. cbn. split; [done|]. split; [|done].
    intros c Hc. apply elem_of_filter_ne in Hc as [Hc _].
    destruct (Hpch c Hc) as (cn & Hcn & Hpar).
    by apply (child_link_kept _ _ p _ _ _ cn).
  - rewrite lookup_insert_ne by done. intros Hn'.
    destruct (Hok i n Hn') as (Hid & Hch & Hpg). split; [done|]. split; [|done].
    intros c Hc. destruct (Hch c Hc) as (cn & Hcn & Hpar).
    by apply (child_link_kept _ _ p _ _ _ cn).
Qed.

(** X18.  The file tree stays consistent - every node is stored under its
    own id, every child of a node is stored and names that node as parent,
    every page node has a page content - from the empty store on, through
    creating documents and nodes with new ids, saving pages and deleting
    nodes. *)
Theorem tree_ok_preserved :
  tree_ok emptyStore ∧
  (∀ st name d r p now,
     tree_ok st → fileNodes st !! r = None → fileNodes st !! p = None → r ≠ p →
     tree_ok (createDocument st name d r p now).1) ∧
  (∀ st st' parent ty name nid,
     tree_ok st → fileNodes st !! nid = None →
     createFileNode st parent ty name nid = Some (st', nid) → tree_ok st') ∧
  (∀ st page els, tree_ok st → tree_ok (updatePageContent st page els)) ∧
  (∀ app nid, tree_ok (state app) → tree_ok (state (handleDeleteNode nid app))).
Proof.
  split; [|split; [|split; [|split]]].
  - intros i n H. cbn in H. by rewrite lookup_empty in H.
  - apply tree_ok_createDocument.
  - apply tree_ok_createFileNode.
  - apply tree_ok_updatePageContent.
  - apply tree_ok_handleDeleteNode.
Qed.

Lemma tree_ok_preserved_witness :
  tree_ok (createDocument emptyStore "Notes" "d1" "r1" "p1" 0).1 ∧
  tree_ok (state (handleDeleteNode "p1"
                    (handleCreateDoc false "d1" "r1" "p1" 0 freshApp))).
Proof.
  destruct tree_ok_preserved as (Hempty & Hdoc & _ & _ & Hdel).
  assert (H1 : tree_ok (createDocument emptyStore "Notes" "d1" "r1" "p1" 0).1).
  { apply Hdoc; [exact Hempty|reflexivity|reflexivity|discriminate]. }
  split; [exact H1|]. apply Hdel. exact H1.
Defined.

(** * Title and body of a section *)

Lemma cut_cons2 (a b : ascii) (r : string) :
  cut (String a (String b r)) =
  if isBar a && isBar b then (EmptyString, Some r)
  else let '(x, y) := cut (String b r) in (String a x, y).
Proof. reflexivity. Qed.

Lemma cut_clean (t b : string) :
  noBar t = true → cut (t +:+ "||" +:+ b) = (t, Some b).
Proof.
  induction t as [|a r IH]; intros Hn.
  - reflexivity.
  - cbn [noBar] in Hn. apply andb_true_iff in Hn as [Ha Hr].
    apply negb_true_iff in Ha. specialize (IH Hr).
    change (String a r +:+ "||" +:+ b) with (String a (r +:+ "||" +:+ b)).
    destruct (r +:+ "||" +:+ b) as [|c rest] eqn:E.
    + by destruct r.
    + rewrite cut_cons2, Ha. cbn [andb]. by rewrite IH.
Qed.

Lemma cut_noBar (b : string) : noBar b = true → cut b = (b, None).
Proof.
  induction b as [|a r IH]; intros Hn; [done|].
  cbn [noBar] in Hn. apply andb_true_iff in Hn as [Ha Hr].
  apply negb_true_iff in Ha. specialize (IH Hr).
  destruct r as [|c r']; [done|]. rewrite cut_cons2, Ha. cbn [andb]. by rewrite IH.
Qed.

Lemma cut_fst_stable (s : string) :
  cut (cut s).1 = ((cut s).1, None) ∧
  (∀ a r, s = String a r → (cut s).1 = EmptyString ∨ ∃ x, (cut s).1 = String a x).
Proof.
  induction s as [|a r IH]; [done|].
  destruct r as [|b r'].
  - split; [done|]. intros a' r' [= <- <-]. right. by eexists.
  - rewrite cut_cons2. destruct (isBar a && isBar b) eqn:E.
    + split; [done|]. intros. by left.
    + destruct IH as [IH1 IH2]. destruct (cut (String b r')) as [x y] eqn:Ec.
      cbn [fst] in *. split.
      * destruct (IH2 b r' eq_refl) as [-> | (x' & ->)]; [done|].
        rewrite cut_cons2, E. by rewrite IH1.
      * intros a' r'' [= <- <-]. right. by eexists.
Qed.

(** X19.  A section content built from a title without "|" and a body
    reads back as that title and as the body up to its first "||" (the
    whole body when it has none): text after a "||" in the body is
    dropped.  Editing the title to a value without "|" sets the title and
    keeps the body as read; editing the body of a section whose title has
    no "|" keeps the title and sets the body up to its first "||".  A
    content without "||" is all title, and an absent content gives an empty
    title and an empty body. *)
Theorem section_title_and_body (el : CanvasElement) (s : EditorState) :
  (∀ t b, noBar t = true →
     titleOf (Some (t +:+ "||" +:+ b)) = t ∧
     bodyOf (Some (t +:+ "||" +:+ b)) = (cut b).1 ∧
     (noBar b = true → bodyOf (Some (t +:+ "||" +:+ b)) = b)) ∧
  (∀ c, noBar c = true → titleOf (Some c) = c ∧ bodyOf (Some c) = ""%string) ∧
  titleOf None = ""%string ∧ bodyOf None = ""%string ∧
  (∀ value el', noBar value = true →
     el' ∈ elements (editTitle el value s) → el_id el' = el_id el →
     titleOf (el_content el') = value ∧
     bodyOf (el_content el') = bodyOf (el_content el)) ∧
  (∀ html el', noBar (titleOf (el_content el)) = true →
     el' ∈ elements (editBody el html s) → el_id el' = el_id el →
     titleOf (el_content el') = titleOf (el_content el) ∧
     bodyOf (el_content el') = (cut html).1).
Proof.
  assert (Hread : ∀ t b, noBar t = true →
     titleOf (Some (t +:+ "||" +:+ b)) = t ∧
     bodyOf (Some (t +:+ "||" +:+ b)) = (cut b).1).
  { intros t b Ht. unfold titleOf, bodyOf. by rewrite cut_clean. }
  assert (Hpatched : ∀ c el', el' ∈ elements (updateElement (el_id el) (contentPatch c) s) →
     el_id el' = el_id el → el_content el' = Some c).
  { intros c el' Hin Hid. cbn in Hin.
    apply list_elem_of_fmap in Hin as (el0 & -> & _).
    destruct (idEq (el_id el0) (el_id el)) eqn:E; [done|].
    apply idEq_eq in Hid. congruence. }
  split; [|split; [|split; [done|split; [done|split]]]].
  - intros t b Ht. destruct (Hread t b Ht) as [H1 H2].
    split; [done|]. split; [done|]. intros Hb. by rewrite H2, cut_noBar.
  - intros c Hc. unfold titleOf, bodyOf. by rewrite cut_noBar.
  - intros value el' Hv Hin Hid. rewrite (Hpatched _ _ Hin Hid).
    destruct (Hread value (bodyOf (el_content el)) Hv) as [H1 H2].
    split; [done|]. rewrite H2. unfold bodyOf.
    destruct (el_content el) as [c|]; [|done].
    destruct (cut c).2 as [rest|]; [|done].
    by rewrite (proj1 (cut_fst_stable rest)).
  - intros html el' Ht Hin Hid. rewrite (Hpatched _ _ Hin Hid).
    by apply Hread.
Qed.

Lemma section_title_and_body_witness :
  titleOf (Some ("Plan" +:+ "||" +:+ "a||b")) = "Plan"%string ∧
  bodyOf (Some ("Plan" +:+ "||" +:+ "a||b")) = "a"%string ∧
  bodyOf (Some ("Plan" +:+ "||" +:+ "notes")) = "notes"%string.
Proof.
  destruct (proj1 (section_title_and_body rectA (initialState [])) "Plan"%string
              "a||b"%string eq_refl) as (H1 & H2 & _).
  destruct (proj1 (section_title_and_body rectA (initialState [])) "Plan"%string
              "notes"%string eq_refl) as (_ & _ & H3).
  split; [exact H1|]. split; [exact H2|]. exact (H3 eq_refl).
Defined.

(** * Eraser drags *)

Lemma erase_step (i : Interaction) (k : Q) (st : EditorState) (e : PointerEvent) :
  erasingOver i k st →
  let x := (clientX e - rectLeft e) / k in
  let y := (clientY e - rectTop e) / k in
  erasingOver i k (onPointerMove st e) ∧
  elements (onPointerMove st e) `sublist_of` elements st ∧
  (length (elements st) ≤ S (length (elements (onPointerMove st e))))%nat ∧
  (∀ el, el ∈ elements st →
         el ∈ elements (onPointerMove st e) ∨ inHitRegion x y el).
Proof.
  intros (Hi & Hk & Hm & Hnd) x y.
  rewrite onPointerMove_erasing by (by rewrite Hi).
  unfold getMousePos. rewrite Hk. cbn [px py]. fold x y.
  destruct (List.find (eraserHit x y) (elements st)) as [hit|] eqn:E.
  - apply find_first in E as (before & after & Hl & Hhit & _).
    apply eraserHit_spec in Hhit.
    assert (Hels : elements (deleteElement (el_id hit) st) = before ++ after).
    { unfold deleteElement. cbn [setSelectedIds setElements elements].
      rewrite Hl. apply filter_unique. unfold ids in Hnd. by rewrite <- Hl. }
    assert (Hsub : before ++ after `sublist_of` elements st).
    { rewrite Hl. apply sublist_app; [done|]. by apply sublist_cons. }
    split; [|split; [by rewrite Hels|split]].
    + split; [done|]. split; [done|]. split; [done|].
      unfold ids. rewrite Hels.
      apply (sublist_NoDup _ (map el_id (elements st))); [done|].
      by apply ids_sublist.
    + rewrite Hels, Hl, !length_app. cbn. lia.
    + intros el Hel. rewrite Hels. rewrite Hl in Hel.
      rewrite elem_of_app, elem_of_cons in Hel. rewrite elem_of_app.
      destruct Hel as [? | [-> | ?]]; [by left; left|by right|by left; right].
  - split; [done|]. split; [done|]. split; [lia|]. by left.
Qed.

Lemma erase_steps (i : Interaction) (k : Q) (moves : list PointerEvent) (st : EditorState) :
  erasingOver i k st →
  let st' := foldl onPointerMove st moves in
  erasingOver i k st' ∧
  elements st' `sublist_of` elements st ∧
  (length (elements st) ≤ length (elements st') + length moves)%nat ∧
  (∀ el, el ∈ elements st →
     el ∈ elements st' ∨
     ∃ e, e ∈ moves ∧ inHitRegion ((clientX e - rectLeft e) / k)
                                   ((clientY e - rectTop e) / k) el).
Proof.
  revert st. induction moves as [|e moves IH]; intros st Hst; cbn.
  - split; [done|]. split; [done|]. split; [lia|]. by left.
  - destruct (erase_step _ _ st e Hst) as (Hst1 & Hsub1 & Hlen1 & Hcase1).
    destruct (IH _ Hst1) as (Hst2 & Hsub2 & Hlen2 & Hcase2).
    split; [done|]. split; [by etrans|]. split; [lia|].
    intros el Hel. destruct (Hcase1 el Hel) as [Hin | Hhit].
    + destruct (Hcase2 el Hin) as [? | (e' & He' & Hhit)]; [by left|].
      right. exists e'. split; [by right|done].
    + right. exists e. split; [by left|done].
Qed.

(** X20.  An eraser drag only removes: after any sequence of pointer moves
    in ERASING mode the remaining elements are a sub-sequence of the
    original ones, at most one element is gone per move, every element
    that is gone had the pointer in its hit region at some move, and an
    element whose hit region contained none of the pointer positions is
    still there.  The session stays in ERASING. *)
Theorem eraser_drag_only_removes (s : EditorState) (moves : list PointerEvent) :
  mode (interaction s) = ERASING → NoDup (map el_id (elements s)) →
  let s' := foldl onPointerMove s moves in
  elements s' `sublist_of` elements s ∧
  (length (elements s) ≤ length (elements s') + length moves)%nat ∧
  (∀ el, el ∈ elements s → el ∉ elements s' →
         ∃ e, e ∈ moves ∧ inHitRegion (px (getMousePos s e)) (py (getMousePos s e)) el) ∧
  (∀ el, el ∈ elements s →
         (∀ e, e ∈ moves →
               ¬ inHitRegion (px (getMousePos s e)) (py (getMousePos s e)) el) →
         el ∈ elements s') ∧
  mode (interaction s') = ERASING.
Proof.
  intros Hm Hnd s'.
  assert (H0 : erasingOver (interaction s) (scale s) s) by done.
  destruct (erase_steps _ _ moves s H0) as ((Hi & _ & _ & _) & Hsub & Hlen & Hcase).
  fold s' in Hi, Hsub, Hlen, Hcase.
  split; [done|]. split; [done|]. split; [|split; [|by rewrite Hi]].
  - intros el Hel Hout. by destruct (Hcase el Hel).
  - intros el Hel Hno. destruct (Hcase el Hel) as [|(e & He & Hhit)]; [done|].
    by apply Hno in Hhit.
Qed.

Lemma eraser_drag_only_removes_witness :
  let s' := foldl onPointerMove erasing [pointerAt 20 20; pointerAt 110 50] in
  elements s' `sublist_of` elements erasing ∧
  (length (elements erasing) ≤ length (elements s') + 2)%nat ∧
  mode (interaction s') = ERASING.
Proof.
  assert (Hnd : NoDup (map el_id (elements erasing)))
    by (apply (bool_decide_unpack _); vm_compute; exact I).
  destruct (eraser_drag_only_removes erasing [pointerAt 20 20; pointerAt 110 50]
              eq_refl Hnd) as (H1 & H2 & _ & _ & H5).
  split; [exact H1|]. split; [exact H2|exact H5].
Defined.
